(** * GOV.UK Frontend: the Accordion state machine and its I18n engine

    A shallow embedding of [dist/govuk/components/accordion/accordion.bundle.js]:
    the [I18n] class (message lookup, pluralisation, placeholder
    interpolation) and the [Accordion] class (section expand / collapse,
    the derived "show all" control, session-storage persistence).

    JavaScript values are modelled by [JsValue]; objects used as
    dictionaries ([translations], [options], [sessionStorage], element
    attributes) are [gmap string _]; exceptions are the [Throw] branch of
    [Result]; DOM mutation is explicit state passing. *)

From Stdlib Require Import ZArith QArith Qround String Ascii List Bool Lia.
From stdpp Require Import base option gmap strings list pretty.

Close Scope Q_scope.
Local Open Scope string_scope.
Local Open Scope list_scope.
Local Open Scope Z_scope.

(** ** JavaScript values, exceptions *)

(** A JavaScript number: the three non-finite values and the finite ones.
    The code only applies [isFinite], [Math.floor], [Math.abs], [%] and
    [===] to counts, all of which are exact, so a finite number is its
    rational value. *)
Inductive JsNumber : Type :=
  | NaN
  | PosInfinity
  | NegInfinity
  | Finite (q : Q).

Inductive JsValue : Type :=
  | JsUndefined
  | JsNull
  | JsBoolean (b : bool)
  | JsNum (n : JsNumber)
  | JsString (s : string)
  | JsObject.

(** The [Error]s the bundle throws, the exception the storage can throw on
    a write, and the one [removeChild] throws for a node that is not a
    child. *)
Inductive JsError : Type :=
  | LookupKeyMissing
  | NoOptionData
  | NoDataForPlaceholder (placeholderWithBraces : string)
  | PluralOtherRequired (locale : string)
  | QuotaExceededError
  | NotFoundError.

Inductive Result (A : Type) : Type :=
  | Ok (a : A)
  | Throw (e : JsError).
Arguments Ok {A} a.
Arguments Throw {A} e.

#[global] Instance result_ret : MRet Result := fun A a => Ok a.
#[global] Instance result_bind : MBind Result := fun A B f m =>
  match m with
  | Ok a => f a
  | Throw e => Throw e
  end.

Definition isOk {A} (r : Result A) : bool :=
  match r with Ok _ => true | Throw _ => false end.

(** [isFinite(count)] *)
Definition isFinite (n : JsNumber) : bool :=
  match n with Finite _ => true | _ => false end.

(** ** The I18n engine *)
Module I18n.

Inductive PluralRule : Type := zero | one | two | few | many | other.

Definition pluralRuleName (r : PluralRule) : string :=
  match r with
  | zero => "zero" | one => "one" | two => "two"
  | few => "few" | many => "many" | other => "other"
  end.

(** The runtime services the engine calls. [Intl.PluralRules] and
    [Intl.NumberFormat] may be missing or may not know the locale
    ([supportedLocalesOf(locale).length] is 0): then the field is [None]
    at that locale. [numberToString] is the template literal coercion of
    a number. The locales are those [supportedLocalesOf] answers for: on
    a locale that is not a well-formed language tag (such as [en_GB]) it
    throws a [RangeError], a case this runtime does not have. *)
Record Runtime : Type := {
  documentLang : string;
  intlPluralRules : string -> option (Q -> PluralRule);
  intlNumberFormat : string -> option (JsNumber -> string);
  numberToString : JsNumber -> string
}.

(** The engine: [this.translations] and [this.locale]. *)
Record Engine : Type := {
  translations : gmap string JsValue;
  locale : string
}.

(** [constructor(translations, config)]: [translations || {}], and the
    locale is the first non-empty of [config.locale], the document's
    language and ['en']. *)
Definition construct (rt : Runtime) (tr : option (gmap string JsValue))
    (configLocale : option string) : Engine :=
  {| translations := default ∅ tr;
     locale :=
       match configLocale with
       | Some l => if String.eqb l "" then
                     (if String.eqb (documentLang rt) "" then "en" else documentLang rt)
                   else l
       | None => if String.eqb (documentLang rt) "" then "en" else documentLang rt
       end |}.

(** *** Fallback plural rules: [I18n.pluralRules] *)

Inductive RuleSet : Type :=
  | arabic | chinese | french | german | irish | russian | scottish | spanish | welsh.

(** JavaScript [%] is the truncated remainder. *)
Notation "a % b" := (Z.rem a b) (at level 40, left associativity) : Z_scope.

Definition pluralRules (ruleset : RuleSet) (n : Z) : PluralRule :=
  match ruleset with
  | arabic =>
      if n =? 0 then zero
      else if n =? 1 then one
      else if n =? 2 then two
      else if (n % 100 >=? 3) && (n % 100 <=? 10) then few
      else if (n % 100 >=? 11) && (n % 100 <=? 99) then many
      else other
  | chinese => other
  | french => if (n =? 0) || (n =? 1) then one else other
  | german => if n =? 1 then one else other
  | irish =>
      if n =? 1 then one
      else if n =? 2 then two
      else if (n >=? 3) && (n <=? 6) then few
      else if (n >=? 7) && (n <=? 10) then many
      else other
  | russian =>
      let lastTwo := n % 100 in
      let last := lastTwo % 10 in
      if (last =? 1) && negb (lastTwo =? 11) then one
      else if (last >=? 2) && (last <=? 4)
              && negb ((lastTwo >=? 12) && (lastTwo <=? 14)) then few
      else if (last =? 0) || ((last >=? 5) && (last <=? 9))
              || ((lastTwo >=? 11) && (lastTwo <=? 14)) then many
      else other
  | scottish =>
      if (n =? 1) || (n =? 11) then one
      else if (n =? 2) || (n =? 12) then two
      else if ((n >=? 3) && (n <=? 10)) || ((n >=? 13) && (n <=? 19)) then few
      else other
  | spanish =>
      if n =? 1 then one
      else if (n % 1000000 =? 0) && negb (n =? 0) then many
      else other
  | welsh =>
      if n =? 0 then zero
      else if n =? 1 then one
      else if n =? 2 then two
      else if n =? 3 then few
      else if n =? 6 then many
      else other
  end.

(** [I18n.pluralRulesMap], in the order of its keys. *)
Definition pluralRulesMap : list (RuleSet * list string) :=
  [ (arabic, ["ar"]);
    (chinese, ["my"; "zh"; "id"; "ja"; "jv"; "ko"; "ms"; "th"; "vi"]);
    (french, ["hy"; "bn"; "fr"; "gu"; "hi"; "fa"; "pa"; "zu"]);
    (german, ["af"; "sq"; "az"; "eu"; "bg"; "ca"; "da"; "nl"; "en"; "et"; "fi";
              "ka"; "de"; "el"; "hu"; "lb"; "no"; "so"; "sw"; "sv"; "ta"; "te";
              "tr"; "ur"]);
    (irish, ["ga"]);
    (russian, ["ru"; "uk"]);
    (scottish, ["gd"]);
    (spanish, ["pt-PT"; "it"; "es"]);
    (welsh, ["cy"]) ].

(** [locale.split('-')[0]] *)
Fixpoint localeShortOf (l : string) : string :=
  match l with
  | EmptyString => EmptyString
  | String c r => if Ascii.eqb c "-" then EmptyString else String c (localeShortOf r)
  end.

(** [getPluralRulesForLocale()]: the first rule set one of whose
    languages is the locale or its short form; [None] is [undefined]. *)
Definition getPluralRulesForLocale (i : Engine) : option RuleSet :=
  let localeShort := localeShortOf (locale i) in
  fst <$> List.find
    (fun entry => existsb (fun language =>
        String.eqb language (locale i) || String.eqb language localeShort)
        (snd entry))
    pluralRulesMap.

(** [selectPluralFormUsingFallbackRules(count)] on a finite count. *)
Definition selectPluralFormUsingFallbackRules (i : Engine) (count : Q) : PluralRule :=
  let count := Z.abs (Qfloor count) in
  match getPluralRulesForLocale i with
  | Some ruleset => pluralRules ruleset count
  | None => other
  end.

(** [hasIntlPluralRulesSupport()] and [hasIntlNumberFormatSupport()] *)
Definition hasIntlPluralRulesSupport (rt : Runtime) (i : Engine) : bool :=
  bool_decide (is_Some (intlPluralRules rt (locale i))).

Definition hasIntlNumberFormatSupport (rt : Runtime) (i : Engine) : bool :=
  bool_decide (is_Some (intlNumberFormat rt (locale i))).

(** The form [Intl.PluralRules] or the fallback rules prefer for a finite
    count: the first half of [getPluralSuffix]. *)
Definition preferredForm (rt : Runtime) (i : Engine) (count : Q) : PluralRule :=
  match intlPluralRules rt (locale i) with
  | Some select => select count
  | None => selectPluralFormUsingFallbackRules i count
  end.

(** [key in this.translations] *)
Definition hasKey (i : Engine) (key : string) : bool :=
  bool_decide (is_Some (translations i !! key)).

(** [getPluralSuffix(lookupKey, count)] *)
Definition getPluralSuffix (rt : Runtime) (i : Engine) (lookupKey : string)
    (count : JsNumber) : Result PluralRule :=
  match count with
  | Finite q =>
      let preferred := preferredForm rt i q in
      if hasKey i (lookupKey +:+ "." +:+ pluralRuleName preferred) then Ok preferred
      else if hasKey i (lookupKey +:+ ".other") then Ok other
      else Throw (PluralOtherRequired (locale i))
  | _ => Ok other
  end.

(** *** Placeholders: the pattern [/%{(.\S+)}/]

    Strings are sequences of code units below 256. [\S] excludes the
    white space and line terminator characters, [.] excludes the line
    terminators. *)
Definition isWhiteSpace (c : ascii) : bool :=
  let n := nat_of_ascii c in
  ((9 <=? n) && (n <=? 13) || (n =? 32) || (n =? 160))%nat.

Definition isLineTerminator (c : ascii) : bool :=
  let n := nat_of_ascii c in
  ((n =? 10) || (n =? 13))%nat.

(** The longest prefix of non-white-space characters: what a greedy
    [\S+] first consumes. *)
Fixpoint nonSpaceRun (s : string) : string :=
  match s with
  | EmptyString => EmptyString
  | String c r => if isWhiteSpace c then EmptyString else String c (nonSpaceRun r)
  end.

(** The part of [run] before its last ["}"]: backtracking from the
    greedy match stops at the last closing brace. *)
Fixpoint beforeLastBrace (run : string) : option string :=
  match run with
  | EmptyString => None
  | String c r =>
      match beforeLastBrace r with
      | Some pre => Some (String c pre)
      | None => if Ascii.eqb c "}" then Some EmptyString else None
      end
  end.

(** A match of the pattern at the start of [s]: the captured key.
    The capture is one character that is not a line terminator followed
    by at least one non-white-space character. *)
Definition matchAt (s : string) : option string :=
  match s with
  | String p (String b (String c1 tail)) =>
      if Ascii.eqb p "%" && Ascii.eqb b "{" && negb (isLineTerminator c1) then
        match beforeLastBrace (nonSpaceRun tail) with
        | Some EmptyString => None
        | Some pre => Some (String c1 pre)
        | None => None
        end
      else None
  | _ => None
  end.

Inductive Token : Type :=
  | Lit (c : ascii)
  | Placeholder (placeholderKey : string).

Definition placeholderWithBraces (placeholderKey : string) : string :=
  "%{" +:+ placeholderKey +:+ "}".

(** The successive, non-overlapping matches of the global pattern, left
    to right, with the characters between them. [skip] counts the
    characters of the current match still to pass over. *)
Fixpoint scan (s : string) (skip : nat) : list Token :=
  match s with
  | EmptyString => []
  | String c r =>
      match skip with
      | S k => scan r k
      | O =>
          match matchAt (String c r) with
          | Some key => Placeholder key :: scan r (2 + String.length key)
          | None => Lit c :: scan r 0
          end
      end
  end.

Definition isPlaceholder (tk : Token) : bool :=
  match tk with Placeholder _ => true | Lit _ => false end.

(** [translationString.match(/%{(.\S+)}/)] is truthy *)
Definition hasPlaceholders (translationString : string) : bool :=
  existsb isPlaceholder (scan translationString 0).



(** [formatter ? formatter.format(n) : `${n}`] *)
Definition formatNumber (rt : Runtime) (i : Engine) (n : JsNumber) : string :=
  match intlNumberFormat rt (locale i) with
  | Some format => format n
  | None => numberToString rt n
  end.

(** The replacer function of [replacePlaceholders]. *)
Definition replacePlaceholder (rt : Runtime) (i : Engine)
    (options : gmap string JsValue) (placeholderKey : string) : Result string :=
  match options !! placeholderKey with
  | Some placeholderValue =>
      match placeholderValue with
      | JsBoolean false => Ok EmptyString
      | JsNum n => Ok (formatNumber rt i n)
      | JsString s => Ok s
      | _ => Ok EmptyString
      end
  | None => Throw (NoDataForPlaceholder (placeholderWithBraces placeholderKey))
  end.

Fixpoint replaceTokens (rt : Runtime) (i : Engine) (options : gmap string JsValue)
    (tokens : list Token) : Result string :=
  match tokens with
  | [] => Ok EmptyString
  | Lit c :: rest =>
      out ← replaceTokens rt i options rest; Ok (String c out)
  | Placeholder key :: rest =>
      value ← replacePlaceholder rt i options key;
      out ← replaceTokens rt i options rest;
      Ok (value +:+ out)
  end.

(** [replacePlaceholders(translationString, options)] *)
Definition replacePlaceholders (rt : Runtime) (i : Engine)
    (translationString : string) (options : gmap string JsValue) : Result string :=
  replaceTokens rt i options (scan translationString 0).

(** The second half of [t]: fetch the translation string of the final
    lookup key and interpolate it. *)
Definition lookupAndInterpolate (rt : Runtime) (i : Engine) (lookupKey : string)
    (options : option (gmap string JsValue)) : Result string :=
  match translations i !! lookupKey with
  | Some (JsString translationString) =>
      if hasPlaceholders translationString then
        match options with
        | None => Throw NoOptionData
        | Some o => replacePlaceholders rt i translationString o
        end
      else Ok translationString
  | _ => Ok lookupKey
  end.

(** The first half of [t]: the lookup key, with the plural suffix when
    [options.count] is a number. *)
Definition resolveLookupKey (rt : Runtime) (i : Engine) (lookupKey : string)
    (options : option (gmap string JsValue)) : Result string :=
  if String.eqb lookupKey "" then Throw LookupKeyMissing
  else
    match options with
    | Some o =>
        match o !! "count" with
        | Some (JsNum count) =>
            suffix ← getPluralSuffix rt i lookupKey count;
            Ok (lookupKey +:+ "." +:+ pluralRuleName suffix)
        | _ => Ok lookupKey
        end
    | None => Ok lookupKey
    end.

(** [t(lookupKey, options)] *)
Definition t (rt : Runtime) (i : Engine) (lookupKey : string)
    (options : option (gmap string JsValue)) : Result string :=
  lookupKey ← resolveLookupKey rt i lookupKey options;
  lookupAndInterpolate rt i lookupKey options.

End I18n.

(** ** Session storage

    [window.sessionStorage]: a string-to-string dictionary owned by the
    browser. [setItem] throws [QuotaExceededError] when the new value
    could not be set; here that is when the stored keys and values would
    outgrow [quota] (a disabled storage has quota 0). *)
Module Storage.

Record Storage : Type := {
  items : gmap string string;
  quota : nat
}.

Definition used (m : gmap string string) : nat :=
  map_fold (fun k v acc => (String.length k + String.length v + acc)%nat) 0%nat m.

Definition getItem (key : string) (st : Storage) : option string :=
  items st !! key.

Definition setItem (key value : string) (st : Storage) : Result Storage :=
  let items' := <[key := value]> (items st) in
  if (used items' <=? quota st)%nat
  then Ok {| items := items'; quota := quota st |}
  else Throw QuotaExceededError.

Definition removeItem (key : string) (st : Storage) : Storage :=
  {| items := delete key (items st); quota := quota st |}.

End Storage.

(** ** The Accordion component *)
Module Accordion.
Import I18n Storage.

(** A section element with the descendants the component finds by class
    ([$section.querySelector]); [None] is a missing element. The section
    elements are the only elements that carry the expanded class. *)
Record Section : Type := {
  (** [classList.contains('govuk-accordion__section--expanded')] *)
  sectionExpanded : bool;
  (** [.govuk-accordion-nav__chevron]; [true] when it also has the
      [--down] class *)
  showHideIcon : option bool;
  (** [.govuk-accordion__section-toggle-text] that is an [HTMLElement]:
      its [innerText] *)
  showHideText : option string;
  (** [.govuk-accordion__section-button]: its attributes *)
  button : option (gmap string string);
  (** [.govuk-accordion__section-content]: its [hidden] attribute *)
  content : option (option string);
  (** [.govuk-accordion__section-heading-text] that is an [HTMLElement]:
      its [innerText] *)
  headingText : option string;
  (** [.govuk-accordion__section-summary] that is an [HTMLElement]: its
      [innerText] *)
  summary : option string
}.

(** The markup of a section before the component enhances it: the header
    with the [span] to be replaced by a button, its heading and optional
    summary line, and the content wrapper; none of the elements the
    component creates is present. *)
Record Span : Type := {
  spanAttributes : gmap string string;
  spanText : string
}.

Record Header : Type := {
  (** [$header.querySelector('.govuk-accordion__section-button')] *)
  span : option Span;
  (** [$header.querySelector('.govuk-accordion__section-heading')] is
      found *)
  heading : bool;
  (** the span found is a child of the heading found
      ([$span.parentNode === $heading]) *)
  spanInHeading : bool;
  headerSummary : option string
}.

Record SectionMarkup : Type := {
  markupExpanded : bool;
  header : option Header;
  markupContent : option (option string)
}.

Record Markup : Type := {
  (** [$module instanceof HTMLElement] and the body has the
      [govuk-frontend-supported] class *)
  supported : bool;
  moduleId : string;
  markupSections : list SectionMarkup
}.

(** The resolved configuration [mergeConfigs] returns, as the component
    reads it: the keys of the [i18n] namespace and [rememberExpanded]. *)
Record AccordionConfig : Type := {
  i18nConfig : gmap string JsValue;
  rememberExpanded : bool
}.

(** [Accordion.defaults] *)
Definition defaultI18n : gmap string JsValue :=
  <["hideAllSections" := JsString "Hide all sections"]>
  (<["hideSection" := JsString "Hide"]>
  (<["hideSectionAriaLabel" := JsString "Hide this section"]>
  (<["showAllSections" := JsString "Show all sections"]>
  (<["showSection" := JsString "Show"]>
  (<["showSectionAriaLabel" := JsString "Show this section"]> ∅))))).

Definition defaults : AccordionConfig :=
  {| i18nConfig := defaultI18n; rememberExpanded := true |}.

(** The component instance with the state of the elements it owns. *)
Record Accordion : Type := {
  config : AccordionConfig;
  i18n : Engine;
  sections : list Section;
  browserSupportsSessionStorage : bool;
  (** [$showAllButton]'s [aria-expanded] attribute *)
  showAllAriaExpanded : string;
  (** [$showAllText.innerText] *)
  showAllText : string;
  (** [$showAllIcon] has the [--down] class *)
  showAllIconDown : bool
}.

Definition withSections (a : Accordion) (ss : list Section) : Accordion :=
  {| config := config a; i18n := i18n a; sections := ss;
     browserSupportsSessionStorage := browserSupportsSessionStorage a;
     showAllAriaExpanded := showAllAriaExpanded a;
     showAllText := showAllText a;
     showAllIconDown := showAllIconDown a |}.

(** [`${expanded}`] and [expanded.toString()] *)
Definition boolString (b : bool) : string := if b then "true" else "false".

(** [String.prototype.trim] *)
Fixpoint trimStart (s : string) : string :=
  match s with
  | EmptyString => EmptyString
  | String c r => if isWhiteSpace c then trimStart r else s
  end.

Fixpoint trimEnd (s : string) : string :=
  match s with
  | EmptyString => EmptyString
  | String c r =>
      match trimEnd r with
      | EmptyString => if isWhiteSpace c then EmptyString else String c EmptyString
      | r' => String c r'
      end
  end.

Definition trim (s : string) : string := trimEnd (trimStart s).

(** [Array.prototype.join] *)
Fixpoint join (separator : string) (parts : list string) : string :=
  match parts with
  | [] => EmptyString
  | [x] => x
  | x :: rest => x +:+ separator +:+ join separator rest
  end.

(** [isExpanded($section)] *)
Definition isExpanded (s : Section) : bool := sectionExpanded s.

(** [checkIfAllSectionsOpen()] *)
Definition checkIfAllSectionsOpen (a : Accordion) : bool :=
  let sectionsCount := length (sections a) in
  let expandedSectionCount := length (List.filter isExpanded (sections a)) in
  (sectionsCount =? expandedSectionCount)%nat.

(** [updateShowAllButton(expanded)] *)
Definition updateShowAllButton (rt : Runtime) (expanded : bool) (a : Accordion)
    : Accordion * Result unit :=
  match t rt (i18n a) (if expanded then "hideAllSections" else "showAllSections") None with
  | Throw e => (a, Throw e)
  | Ok newButtonText =>
      ({| config := config a; i18n := i18n a; sections := sections a;
          browserSupportsSessionStorage := browserSupportsSessionStorage a;
          showAllAriaExpanded := boolString expanded;
          showAllText := newButtonText;
          showAllIconDown := negb expanded |}, Ok ())
  end.

(** The guard of [setExpanded]: the icon, the toggle text, the button and
    the content wrapper are all found. *)
Definition wellFormed (s : Section) : bool :=
  match showHideIcon s, showHideText s, button s, content s with
  | Some _, Some _, Some _, Some _ => true
  | _, _, _, _ => false
  end.

(** [ariaLabelParts] before the action text is pushed *)
Definition ariaLabelParts (s : Section) : list string :=
  match headingText s with Some h => [trim h] | None => [] end ++
  match summary s with Some m => [trim m] | None => [] end.

(** The section once [setExpanded] has set the toggle text and the
    button's [aria-expanded]. *)
Definition withToggleText (s : Section) (btn : gmap string string) (expanded : bool)
    (newButtonText : string) : Section :=
  {| sectionExpanded := sectionExpanded s;
     showHideIcon := showHideIcon s;
     showHideText := Some newButtonText;
     button := Some (<["aria-expanded" := boolString expanded]> btn);
     content := content s;
     headingText := headingText s;
     summary := summary s |}.

(** The section once [setExpanded] has also set the [aria-label], the
    [hidden] attribute, the expanded class and the icon class. *)
Definition withExpanded (s : Section) (btn : gmap string string) (expanded : bool)
    (newButtonText ariaLabelMessage : string) : Section :=
  {| sectionExpanded := expanded;
     showHideIcon := Some (negb expanded);
     showHideText := Some newButtonText;
     button := Some (<["aria-label" := join " , " (ariaLabelParts s ++ [ariaLabelMessage])]>
                      (<["aria-expanded" := boolString expanded]> btn));
     content := Some (if expanded then None else Some "until-found");
     headingText := headingText s;
     summary := summary s |}.

(** [setExpanded(expanded, $section)], the section given by its position
    in [$sections]. The statements before a throwing [i18n.t] call have
    taken effect. *)
Definition setExpanded (rt : Runtime) (expanded : bool) (idx : nat) (a : Accordion)
    : Accordion * Result unit :=
  match sections a !! idx with
  | None => (a, Ok ())
  | Some s =>
      match showHideIcon s, showHideText s, button s, content s with
      | Some _, Some _, Some btn, Some _ =>
          match t rt (i18n a) (if expanded then "hideSection" else "showSection") None with
          | Throw e => (a, Throw e)
          | Ok newButtonText =>
              match t rt (i18n a)
                      (if expanded then "hideSectionAriaLabel" else "showSectionAriaLabel")
                      None with
              | Throw e =>
                  (withSections a
                     (<[idx := withToggleText s btn expanded newButtonText]> (sections a)),
                   Throw e)
              | Ok ariaLabelMessage =>
                  let a' := withSections a
                    (<[idx := withExpanded s btn expanded newButtonText ariaLabelMessage]>
                       (sections a)) in
                  updateShowAllButton rt (checkIfAllSectionsOpen a') a'
              end
          end
      | _, _, _, _ => (a, Ok ())
      end
  end.

(** [storeState($section)] *)
Definition storeState (idx : nat) (a : Accordion) (st : Storage) : Storage * Result unit :=
  if browserSupportsSessionStorage a && rememberExpanded (config a) then
    match sections a !! idx ≫= button with
    | Some btn =>
        match btn !! "aria-controls", btn !! "aria-expanded" with
        | Some contentId, Some contentState =>
            if negb (String.eqb contentId "") && negb (String.eqb contentState "") then
              match setItem contentId contentState st with
              | Ok st' => (st', Ok ())
              | Throw e => (st, Throw e)
              end
            else (st, Ok ())
        | _, _ => (st, Ok ())
        end
    | None => (st, Ok ())
    end
  else (st, Ok ()).

(** [setInitialState($section)] *)
Definition setInitialState (rt : Runtime) (idx : nat) (a : Accordion) (st : Storage)
    : Accordion * Result unit :=
  if browserSupportsSessionStorage a && rememberExpanded (config a) then
    match sections a !! idx ≫= button with
    | Some btn =>
        let contentState :=
          match btn !! "aria-controls" with
          | Some contentId => if String.eqb contentId "" then None else getItem contentId st
          | None => None
          end in
        match contentState with
        | Some state => setExpanded rt (String.eqb state "true") idx a
        | None => (a, Ok ())
        end
    | None => (a, Ok ())
    end
  else (a, Ok ()).

(** [onSectionToggle($section)] *)
Definition onSectionToggle (rt : Runtime) (idx : nat) (w : Accordion * Storage)
    : (Accordion * Storage) * Result unit :=
  let '(a, st) := w in
  let expanded := default false (isExpanded <$> sections a !! idx) in
  match setExpanded rt (negb expanded) idx a with
  | (a', Throw e) => ((a', st), Throw e)
  | (a', Ok _) =>
      let '(st', r) := storeState idx a' st in ((a', st'), r)
  end.

(** The body of the [forEach] of [onShowOrHideAllToggle], over the
    positions still to visit; a throw ends the loop. *)
Fixpoint showOrHideAll (rt : Runtime) (nowExpanded : bool) (idxs : list nat)
    (w : Accordion * Storage) : (Accordion * Storage) * Result unit :=
  match idxs with
  | [] => (w, Ok ())
  | idx :: rest =>
      let '(a, st) := w in
      match setExpanded rt nowExpanded idx a with
      | (a', Throw e) => ((a', st), Throw e)
      | (a', Ok _) =>
          match storeState idx a' st with
          | (st', Throw e) => ((a', st'), Throw e)
          | (st', Ok _) => showOrHideAll rt nowExpanded rest (a', st')
          end
      end
  end.

(** [onShowOrHideAllToggle()] *)
Definition onShowOrHideAllToggle (rt : Runtime) (w : Accordion * Storage)
    : (Accordion * Storage) * Result unit :=
  let nowExpanded := negb (checkIfAllSectionsOpen (fst w)) in
  match showOrHideAll rt nowExpanded (seq 0 (length (sections (fst w)))) w with
  | (w', Throw e) => (w', Throw e)
  | ((a', st'), Ok _) =>
      let '(a'', r) := updateShowAllButton rt nowExpanded a' in ((a'', st'), r)
  end.

(** [onBeforeMatch(event)]: [target] is the position of the section
    closest to the event target, [None] when the target is not an element
    or lies in no section. *)
Definition onBeforeMatch (rt : Runtime) (target : option nat) (a : Accordion)
    : Accordion * Result unit :=
  match target with
  | Some idx => setExpanded rt true idx a
  | None => (a, Ok ())
  end.

(** [helper.checkForSessionStorage()]: the result, and the storage
    after the probe. *)
Definition testString : string := "this is the test string".

Definition checkForSessionStorage (st : Storage) : bool * Storage :=
  match setItem testString testString st with
  | Ok st1 =>
      let result := bool_decide (getItem testString st1 = Some testString) in
      (result, removeItem testString st1)
  | Throw _ => (false, st)
  end.

(** The section as the class queries see it before any enhancement. *)
Definition sectionOfMarkup (m : SectionMarkup) : Section :=
  {| sectionExpanded := markupExpanded m;
     showHideIcon := None;
     showHideText := None;
     button := spanAttributes <$> (header m ≫= span);
     content := markupContent m;
     headingText := None;
     summary := header m ≫= headerSummary |}.

(** The section as [constructHeaderMarkup($header, index)] leaves it when
    it returns: the button takes [type], [aria-controls] and then every
    attribute of the span but its [id]; the heading text takes the span's
    content; the toggle is created with an icon without the [--down]
    class and an empty text. *)
Definition constructedHeader (moduleId : string) (h : Header) (index : nat)
    (s : Section) : Section :=
  match span h, heading h with
  | Some sp, true =>
      let attrs :=
        delete "id" (spanAttributes sp) ∪
        <["aria-controls" := moduleId +:+ "-content-" +:+ pretty (index + 1)%nat]>
          (<["type" := "button"]> ∅) in
      {| sectionExpanded := sectionExpanded s;
         showHideIcon := Some false;
         showHideText := Some EmptyString;
         button := Some attrs;
         content := content s;
         headingText := Some (spanText sp);
         summary := summary s |}
  | _, _ => s
  end.

(** [$heading.removeChild($span)], the last step but one of
    [constructHeaderMarkup], throws a [NotFoundError] when the span is not
    a child of the heading; the button has not been attached by then. *)
Definition removeChildThrows (h : Header) : bool :=
  match span h, heading h with
  | Some _, true => negb (spanInHeading h)
  | _, _ => false
  end.

(** [constructHeaderMarkup($header, index)]: the change it makes to the
    section, or the exception it ends with. *)
Definition constructHeaderMarkup (moduleId : string) (h : Header) (index : nat)
    : Result (Section -> Section) :=
  if removeChildThrows h then Throw NotFoundError
  else Ok (constructedHeader moduleId h index).

(** The body of the [forEach] of [initSectionHeaders] for the section at
    [index]. *)
Definition initSectionHeader (rt : Runtime) (moduleId : string) (st : Storage)
    (index : nat) (m : SectionMarkup) (a : Accordion) : Accordion * Result unit :=
  match header m with
  | None => (a, Ok ())
  | Some h =>
      match constructHeaderMarkup moduleId h index with
      | Throw e => (a, Throw e)
      | Ok construct =>
          let a1 := withSections a (alter construct index (sections a)) in
          let expanded := default false (isExpanded <$> sections a1 !! index) in
          match setExpanded rt expanded index a1 with
          | (a2, Throw e) => (a2, Throw e)
          | (a2, Ok _) => setInitialState rt index a2 st
          end
      end
  end.

(** [initSectionHeaders()] from position [index] on. *)
Fixpoint initSectionHeaders (rt : Runtime) (moduleId : string) (st : Storage)
    (index : nat) (ms : list SectionMarkup) (a : Accordion) : Accordion * Result unit :=
  match ms with
  | [] => (a, Ok ())
  | m :: rest =>
      match initSectionHeader rt moduleId st index m a with
      | (a', Throw e) => (a', Throw e)
      | (a', Ok _) => initSectionHeaders rt moduleId st (S index) rest a'
      end
  end.

(** [new Accordion($module, config)] over the markup and the resolved
    configuration. [Ok None] is the inert instance (unsupported page or
    no section); the storage returned is the one the probe leaves. *)
Definition new (rt : Runtime) (cfg : AccordionConfig) (markup : Markup) (st : Storage)
    : Storage * Result (option Accordion) :=
  if negb (supported markup) then (st, Ok None)
  else
    match markupSections markup with
    | [] => (st, Ok None)
    | _ =>
        let '(available, st1) := checkForSessionStorage st in
        (* initControls *)
        let a0 :=
          {| config := cfg;
             i18n := I18n.construct rt (Some (i18nConfig cfg)) None;
             sections := sectionOfMarkup <$> markupSections markup;
             browserSupportsSessionStorage := available;
             showAllAriaExpanded := "false";
             showAllText := EmptyString;
             showAllIconDown := false |} in
        match initSectionHeaders rt (moduleId markup) st1 0 (markupSections markup) a0 with
        | (_, Throw e) => (st1, Throw e)
        | (a1, Ok _) =>
            match updateShowAllButton rt (checkIfAllSectionsOpen a1) a1 with
            | (_, Throw e) => (st1, Throw e)
            | (a2, Ok _) => (st1, Ok (Some a2))
            end
        end
    end.

(** The events the component listens to. *)
Inductive Event : Type :=
  | ClickSection (idx : nat)
  | ClickShowAll
  | BeforeMatch (target : option nat).

Definition handle (rt : Runtime) (ev : Event) (w : Accordion * Storage)
    : (Accordion * Storage) * Result unit :=
  match ev with
  | ClickSection idx => onSectionToggle rt idx w
  | ClickShowAll => onShowOrHideAllToggle rt w
  | BeforeMatch target =>
      let '(a', r) := onBeforeMatch rt target (fst w) in ((a', snd w), r)
  end.

(** [$button.getAttribute('aria-controls')] of the section's button: the
    key of the section in the storage. *)
Definition ariaControls (s : Section) : option string :=
  button s ≫= (fun btn : gmap string string => btn !! "aria-controls").

(** [$button.getAttribute('aria-label')] *)
Definition ariaLabel (s : Section) : option string :=
  button s ≫= (fun btn : gmap string string => btn !! "aria-label").

(** The section at [index] once its header has been constructed. *)
Definition enhanced (moduleId : string) (index : nat) (m : SectionMarkup) : Section :=
  match header m with
  | Some h => constructedHeader moduleId h index (sectionOfMarkup m)
  | None => sectionOfMarkup m
  end.

(** Both messages [setExpanded(expanded, _)] asks the engine for are
    resolved without an error. *)
Definition labelsResolve (rt : Runtime) (i : Engine) (expanded : bool) : bool :=
  isOk (t rt i (if expanded then "hideSection" else "showSection") None)
  && isOk (t rt i (if expanded then "hideSectionAriaLabel" else "showSectionAriaLabel") None).

(** What [setInitialState] reads for a section: the state stored under
    its key, when states are remembered and the storage works. *)
Definition storedState (available remember : bool) (st : Storage) (s : Section)
    : option string :=
  if available && remember then
    match ariaControls s with
    | Some contentId => if String.eqb contentId "" then None else getItem contentId st
    | None => None
    end
  else None.

(** The messages of every well-formed section, for the state the section
    is in, resolve. *)
Definition labelled (rt : Runtime) (a : Accordion) : Prop :=
  forall idx s, sections a !! idx = Some s -> wellFormed s = true ->
    labelsResolve rt (i18n a) (isExpanded s) = true.

(** The component is an instance over [markup] with the configuration
    [cfg]: one section per section of the markup, well-formed when the
    markup's section with its header constructed is, and with its key. *)
Definition builtOver (rt : Runtime) (cfg : AccordionConfig) (markup : Markup)
    (a : Accordion) : Prop :=
  config a = cfg
  /\ i18n a = I18n.construct rt (Some (i18nConfig cfg)) None
  /\ length (sections a) = length (markupSections markup)
  /\ forall idx m, markupSections markup !! idx = Some m ->
       exists s, sections a !! idx = Some s
         /\ wellFormed s = wellFormed (enhanced (moduleId markup) idx m)
         /\ ariaControls s = ariaControls (enhanced (moduleId markup) idx m).

(** What the constructor makes of the section with markup [m], given the
    section [enh] with its header constructed: a well-formed section is
    in the stored state when one is read and in the markup's state
    otherwise; the others stay as the markup has them. *)
Definition initialState (available remember : bool) (st : Storage) (enh : Section)
    (m : SectionMarkup) : bool :=
  if wellFormed enh then
    match storedState available remember st enh with
    | Some state => String.eqb state "true"
    | None => markupExpanded m
    end
  else markupExpanded m.

(** Every section passes the guard of [setExpanded]. *)
Definition allWellFormed (a : Accordion) : Prop :=
  forall idx s, sections a !! idx = Some s -> wellFormed s = true.

(** The states of a component constructed over [markup] with the
    configuration [cfg]: the one [new] returns, those the event handlers
    lead to (whether they return or throw), and any change other scripts
    make to the storage in between. *)
Inductive reachable (rt : Runtime) (cfg : AccordionConfig) (markup : Markup)
    : Accordion * Storage -> Prop :=
  | reachable_new st st' a :
      new rt cfg markup st = (st', Ok (Some a)) ->
      reachable rt cfg markup (a, st')
  | reachable_handle w ev w' r :
      reachable rt cfg markup w ->
      handle rt ev w = (w', r) ->
      reachable rt cfg markup w'
  | reachable_storage a st st' :
      reachable rt cfg markup (a, st) ->
      reachable rt cfg markup (a, st').

End Accordion.

(** ** The glossary's plural rule families

    The rule families as the specification's glossary words them: an
    ordered list of clauses over a non-negative integer [n], the first
    clause that applies gives the category, and [other] is the "else".
    "Last digit" is [n mod 10], "last two digits" is [n mod 100]. *)
Module Glossary.
Import I18n.

Definition lastDigit (n : Z) : Z := n mod 10.
Definition lastTwo (n : Z) : Z := n mod 100.

Definition within (lo hi x : Z) : bool := (lo <=? x) && (x <=? hi).

Definition equals (k n : Z) : bool := n =? k.

Definition Clause : Type := (Z -> bool) * PluralRule.

Fixpoint category (clauses : list Clause) (n : Z) : PluralRule :=
  match clauses with
  | [] => other
  | (applies, c) :: rest => if applies n then c else category rest n
  end.

Definition family (ruleset : RuleSet) : list Clause :=
  match ruleset with
  | arabic =>
      [ (equals 0, zero); (equals 1, one); (equals 2, two);
        (fun n => within 3 10 (n mod 100), few);
        (fun n => within 11 99 (n mod 100), many) ]
  | chinese => []
  | french => [ (fun n => equals 0 n || equals 1 n, one) ]
  | german => [ (equals 1, one) ]
  | irish =>
      [ (equals 1, one); (equals 2, two); (within 3 6, few); (within 7 10, many) ]
  | russian =>
      [ (fun n => equals 1 (lastDigit n) && negb (equals 11 (lastTwo n)), one);
        (fun n => within 2 4 (lastDigit n) && negb (within 12 14 (lastTwo n)), few);
        (fun n => equals 0 (lastDigit n) || within 5 9 (lastDigit n)
                  || within 11 14 (lastTwo n), many) ]
  | scottish =>
      [ (fun n => equals 1 n || equals 11 n, one);
        (fun n => equals 2 n || equals 12 n, two);
        (fun n => within 3 10 n || within 13 19 n, few) ]
  | spanish =>
      [ (equals 1, one);
        (fun n => equals 0 (n mod 1000000) && negb (equals 0 n), many) ]
  | welsh =>
      [ (equals 0, zero); (equals 1, one); (equals 2, two); (equals 3, few); (equals 6, many) ]
  end.

End Glossary.

(** ** The specification's substitution rule

    What the specification says a placeholder is replaced by, given the
    value of its key in the options: the empty string for [false] and for
    every value that is neither a number nor a string, the string itself,
    the formatted number. *)
Module Wording.
Import I18n.







End Wording.

(** ** Scenarios

    A runtime without [Intl] (the fallback rules apply), whose number
    coercion prints integers in decimal, and the accordion of the
    end-to-end scenario. *)
Module Scenario.
Import I18n Storage Accordion.

Definition noIntl (lang : string) : Runtime :=
  {| documentLang := lang;
     intlPluralRules := fun _ => None;
     intlNumberFormat := fun _ => None;
     numberToString := fun n =>
       match n with
       | NaN => "NaN"
       | PosInfinity => "Infinity"
       | NegInfinity => "-Infinity"
       | Finite q => pretty (Qfloor q)
       end |}.

Definition count (n : Z) : gmap string JsValue :=
  {[ "count" := JsNum (Finite (inject_Z n)) ]}.

Definition countNaN : gmap string JsValue :=
  {[ "count" := JsNum NaN ]}.

Definition onlyOne : gmap string JsValue :=
  {[ "key.one" := JsString "one item" ]}.

Definition oneAndOther : gmap string JsValue :=
  <["key.other" := JsString "%{count} items"]> onlyOne.

Definition noData : gmap string JsValue := ∅.

Definition greeting : gmap string JsValue :=
  {[ "greeting" := JsString "Hello, %{name}!" ]}.




(** The three-section accordion of the end-to-end scenario, every
    section collapsed in the markup, with the default configuration. *)
Definition sectionMarkup (expanded : bool) (title : string) (line : option string)
    : SectionMarkup :=
  {| markupExpanded := expanded;
     header := Some
       {| span := Some
            {| spanAttributes :=
                 <["class" := "govuk-accordion__section-button"]>
                 (<["id" := "accordion-default-heading"]> ∅);
               spanText := title |};
          heading := true;
          spanInHeading := true;
          headerSummary := line |};
     markupContent := Some None |}.

Definition threeSections : Markup :=
  {| supported := true;
     moduleId := "accordion-default";
     markupSections :=
       [ sectionMarkup false "Writing well for the web" None;
         sectionMarkup false "Writing well for specialists"
           (Some "Understand your audience");
         sectionMarkup false "Know your audience" None ] |}.

(** Two sections, the second without its content wrapper. *)
Definition secondWithoutContent : Markup :=
  {| supported := true;
     moduleId := "accordion-default";
     markupSections :=
       [ sectionMarkup false "Writing well for the web" None;
         {| markupExpanded := false;
            header := header (sectionMarkup false "Know your audience" None);
            markupContent := None |} ] |}.

(** Two sections; in the second the button span stands beside the
    heading, not in it. *)
Definition spanOutsideHeading : Markup :=
  {| supported := true;
     moduleId := "accordion-default";
     markupSections :=
       [ sectionMarkup false "Writing well for the web" None;
         {| markupExpanded := false;
            header := Some
              {| span := Some
                   {| spanAttributes :=
                        <["class" := "govuk-accordion__section-button"]> ∅;
                      spanText := "Know your audience" |};
                 heading := true;
                 spanInHeading := false;
                 headerSummary := None |};
            markupContent := Some None |} ] |}.

(** One section whose button span carries an [aria-controls] attribute
    of its own, which the button takes over. *)
Definition controlling (contentId : string) : Markup :=
  {| supported := true;
     moduleId := "accordion-default";
     markupSections :=
       [ {| markupExpanded := false;
            header := Some
              {| span := Some
                   {| spanAttributes :=
                        <["aria-controls" := contentId]>
                        (<["class" := "govuk-accordion__section-button"]> ∅);
                      spanText := "Writing well for the web" |};
                 heading := true;
                 spanInHeading := true;
                 headerSummary := None |};
            markupContent := Some None |} ] |}.

(** A storage that other data of the page has filled: no room is left
    for a section's entry. *)
Definition fullStorage : Storage :=
  {| items := {[ "basket" := "0123456789012345678901234567890123456789012345678901234567890123456789" ]};
     quota := 80 |}.

Definition emptyStorage (quota : nat) : Storage :=
  {| items := ∅; quota := quota |}.

(** The state [new] returns, or the inert instance over no section when
    it returns none. *)
Definition inert (rt : Runtime) (cfg : AccordionConfig) : Accordion :=
  {| config := cfg;
     i18n := I18n.construct rt (Some (i18nConfig cfg)) None;
     sections := [];
     browserSupportsSessionStorage := false;
     showAllAriaExpanded := EmptyString;
     showAllText := EmptyString;
     showAllIconDown := false |}.

Definition start (rt : Runtime) (cfg : AccordionConfig) (markup : Markup)
    (st : Storage) : Accordion * Storage :=
  match new rt cfg markup st with
  | (st', Ok (Some a)) => (a, st')
  | (st', _) => (inert rt cfg, st')
  end.

(** The state after the events, whether the handlers return or throw. *)
Definition after (rt : Runtime) (events : list Event) (w : Accordion * Storage)
    : Accordion * Storage :=
  foldl (fun w ev => fst (handle rt ev w)) w events.

End Scenario.

(** ** Markers and their source text *)
Module Markers.
Import I18n.

(** The text a token was read from. *)
Definition tokenText (tk : Token) : string :=
  match tk with
  | Lit c => String c EmptyString
  | Placeholder key => placeholderWithBraces key
  end.

Fixpoint sourceText (tokens : list Token) : string :=
  match tokens with
  | [] => EmptyString
  | tk :: rest => tokenText tk +:+ sourceText rest
  end.

Fixpoint allChars (p : ascii -> bool) (s : string) : bool :=
  match s with
  | EmptyString => true
  | String c r => p c && allChars p r
  end.

Definition notWhiteSpace (c : ascii) : bool := negb (isWhiteSpace c).
Definition notClosingBrace (c : ascii) : bool := negb (Ascii.eqb c "}").
Definition notDot (c : ascii) : bool := negb (Ascii.eqb c ".").

End Markers.

(** ** Configuration: [mergeConfigs], [extractConfigByNamespace],
    [normaliseString], [normaliseDataset] *)
Module Config.
Import I18n Accordion Markers.

(** The values [flattenLoop] copies: those whose [typeof] is not
    ['object'].  (Functions, symbols and big integers do not occur in a
    configuration.) *)
Inductive Scalar : Type :=
  | ScalarUndefined
  | ScalarBoolean (b : bool)
  | ScalarNumber (n : JsNumber)
  | ScalarString (s : string).

Definition valueOf (value : Scalar) : JsValue :=
  match value with
  | ScalarUndefined => JsUndefined
  | ScalarBoolean b => JsBoolean b
  | ScalarNumber n => JsNum n
  | ScalarString s => JsString s
  end.

(** A configuration value.  The own enumerable properties of an object are
    listed in the order [for ... in] visits them; an array is the object of
    its indices. *)
#[local] Set Warnings "-register-all".
Inductive ConfigValue : Type :=
  | ConfigNull
  | ConfigScalar (value : Scalar)
  | ConfigObject (properties : list (string * ConfigValue)).

(** [prefix ? `${prefix}.${key}` : key]: an undefined and an empty prefix
    are both falsy. *)
Definition prefixedKey (prefix key : string) : string :=
  if String.eqb prefix "" then key else prefix +:+ "." +:+ key.

(** [flattenLoop(obj, prefix)], writing into [flattenedObject].  [typeof
    null] is ['object'] too: the loop is entered for [null] and visits
    nothing. *)
Fixpoint flattenLoop (obj : ConfigValue) (prefix : string)
    (flattenedObject : gmap string Scalar) : gmap string Scalar :=
  match obj with
  | ConfigObject properties =>
      (fix loop (properties : list (string * ConfigValue))
           (flattenedObject : gmap string Scalar) : gmap string Scalar :=
         match properties with
         | [] => flattenedObject
         | (key, value) :: rest =>
             loop rest
               match value with
               | ConfigScalar v => <[prefixedKey prefix key := v]> flattenedObject
               | _ => flattenLoop value (prefixedKey prefix key) flattenedObject
               end
         end) properties flattenedObject
  | _ => flattenedObject
  end.

Definition flattenObject (configObject : list (string * ConfigValue))
    : gmap string Scalar :=
  flattenLoop (ConfigObject configObject) "" ∅.

(** [mergeConfigs(...arguments)]: every key of each flattened argument is
    assigned in turn. *)
Definition mergeConfigs (configObjects : list (list (string * ConfigValue)))
    : gmap string Scalar :=
  fold_left (fun formattedConfigObject obj => flattenObject obj ∪ formattedConfigObject)
            configObjects ∅.

(** [key.split('.')] *)
Fixpoint split (s : string) : list string :=
  match s with
  | EmptyString => [EmptyString]
  | String c r =>
      if Ascii.eqb c "." then EmptyString :: split r
      else match split r with
           | [] => [String c EmptyString]
           | part :: parts => String c part :: parts
           end
  end.

Inductive ConfigError : Type :=
  | ConfigObjectRequired
  | NamespaceRequired.

(** One round of the loop of [extractConfigByNamespace]. *)
Definition extractEntry (namespace : string) (newObject : gmap string Scalar)
    (entry : string * Scalar) : gmap string Scalar :=
  let keyParts := split entry.1 in
  if decide (head keyParts = Some namespace) then
    let keyParts := if decide (1 < length keyParts)%nat then tail keyParts else keyParts in
    <[join "." keyParts := entry.2]> newObject
  else newObject.

(** [extractConfigByNamespace(configObject, namespace)].  [configObject] is
    [None] when it is falsy or no object, and else the entries of the
    flattened object in the order [for ... in] visits them. *)
Definition extractConfigByNamespace (configObject : option (list (string * Scalar)))
    (namespace : string) : ConfigError + gmap string Scalar :=
  match configObject with
  | None => inl ConfigObjectRequired
  | Some entries =>
      if String.eqb namespace "" then inl NamespaceRequired
      else inr (fold_left (extractEntry namespace) entries ∅)
  end.

(** [normaliseString(value)]; [toNumber] is [Number] on strings. *)
Definition normaliseString (toNumber : string -> JsNumber) (value : Scalar) : Scalar :=
  match value with
  | ScalarString s =>
      let trimmedValue := trim s in
      if String.eqb trimmedValue "true" then ScalarBoolean true
      else if String.eqb trimmedValue "false" then ScalarBoolean false
      else if (0 <? String.length trimmedValue)%nat && isFinite (toNumber trimmedValue)
           then ScalarNumber (toNumber trimmedValue)
           else value
  | _ => value
  end.

(** [normaliseDataset(dataset)]: a [DOMStringMap] holds strings. *)
Definition normaliseDataset (toNumber : string -> JsNumber) (dataset : gmap string string)
    : gmap string Scalar :=
  (fun s => normaliseString toNumber (ScalarString s)) <$> dataset.

(** [entries] lists the properties of the object [m], in whichever order
    [for ... in] visits them. *)
Definition enumerates (entries : list (string * Scalar)) (m : gmap string Scalar) : Prop :=
  NoDup entries.*1 /\ forall key v, (key, v) ∈ entries <-> m !! key = Some v.

(** An object of scalars as a configuration object. *)
Definition objectOf (entries : list (string * Scalar)) : list (string * ConfigValue) :=
  prod_map id ConfigScalar <$> entries.

(** [Accordion.defaults] as the object literal of the source. *)
Definition defaultsObject : list (string * ConfigValue) :=
  [("i18n", ConfigObject
      [("hideAllSections", ConfigScalar (ScalarString "Hide all sections"));
       ("hideSection", ConfigScalar (ScalarString "Hide"));
       ("hideSectionAriaLabel", ConfigScalar (ScalarString "Hide this section"));
       ("showAllSections", ConfigScalar (ScalarString "Show all sections"));
       ("showSection", ConfigScalar (ScalarString "Show"));
       ("showSectionAriaLabel", ConfigScalar (ScalarString "Show this section"))]);
   ("rememberExpanded", ConfigScalar (ScalarBoolean true))].

(** [this.config], as the constructor computes it:
    [mergeConfigs(Accordion.defaults, config || {}, normaliseDataset($module.dataset))];
    [dataset] lists the normalised dataset. *)
Definition resolvedConfig (config : option (list (string * ConfigValue)))
    (dataset : list (string * Scalar)) : gmap string Scalar :=
  mergeConfigs [defaultsObject; default [] config; objectOf dataset].

(** A leaf of a configuration value and the keys that lead to it. *)
Inductive leafAt : ConfigValue -> list string -> Scalar -> Prop :=
  | leaf_here (properties : list (string * ConfigValue)) (key : string) (v : Scalar) :
      (key, ConfigScalar v) ∈ properties ->
      leafAt (ConfigObject properties) [key] v
  | leaf_below (properties : list (string * ConfigValue)) (key : string)
      (value : ConfigValue) (path : list string) (v : Scalar) :
      (key, value) ∈ properties ->
      leafAt value path v ->
      leafAt (ConfigObject properties) (key :: path) v.

(** Every object has distinct keys, none empty and none with a dot. *)
Inductive plainKeys : ConfigValue -> Prop :=
  | plain_null : plainKeys ConfigNull
  | plain_scalar (v : Scalar) : plainKeys (ConfigScalar v)
  | plain_object (properties : list (string * ConfigValue)) :
      NoDup properties.*1 ->
      Forall (fun entry => entry.1 <> "" /\ allChars notDot entry.1 = true /\ plainKeys entry.2)
             properties ->
      plainKeys (ConfigObject properties).

End Config.

(** ** Observations on the component

    Predicates on the component's state used to state what the handlers
    keep. *)
Module Behaviour.
Import I18n Storage Accordion.

(** The six messages the component asks the engine for. *)
Definition messageKeys : list string :=
  [ "hideAllSections"; "hideSection"; "hideSectionAriaLabel";
    "showAllSections"; "showSection"; "showSectionAriaLabel" ].

(** The header of the section is one at which [constructHeaderMarkup]
    throws. *)
Definition headerThrows (m : SectionMarkup) : bool :=
  from_option removeChildThrows false (header m).

(** Every message of the component resolves without an error. *)
Definition messagesResolve (rt : Runtime) (i : Engine) : Prop :=
  forall key, key ∈ messageKeys -> isOk (t rt i key None) = true.

(** [$button.getAttribute('aria-expanded')] *)
Definition ariaExpanded (s : Section) : option string :=
  button s ≫= (fun btn : gmap string string => btn !! "aria-expanded").

(** The attributes [setExpanded] writes agree with the expanded class:
    the button's [aria-expanded], the content's [hidden] attribute, the
    icon's [--down] class and the toggle text. *)
Definition coherent (rt : Runtime) (i : Engine) (s : Section) : Prop :=
  ariaExpanded s = Some (boolString (isExpanded s))
  /\ content s = Some (if isExpanded s then None else Some "until-found")
  /\ showHideIcon s = Some (negb (isExpanded s))
  /\ Ok <$> showHideText s
     = Some (t rt i (if isExpanded s then "hideSection" else "showSection") None).

(** The show-all control shows what [checkIfAllSectionsOpen] computes. *)
Definition showAllAgrees (rt : Runtime) (a : Accordion) : Prop :=
  showAllAriaExpanded a = boolString (checkIfAllSectionsOpen a)
  /\ showAllIconDown a = negb (checkIfAllSectionsOpen a)
  /\ t rt (i18n a)
       (if checkIfAllSectionsOpen a then "hideAllSections" else "showAllSections") None
     = Ok (showAllText a).

End Behaviour.

(** * Properties *)

Import I18n Storage Accordion.

(** ** Plural rules *)

Lemma rem_nonneg_mod (n m : Z) : 0 <= n -> 0 < m -> Z.rem n m = n mod m.
Proof. intros Hn Hm. apply Z.rem_mod_nonneg; lia. Qed.

Lemma last_digit_of_last_two (n : Z) : (n mod 100) mod 10 = n mod 10.
Proof. Z.div_mod_to_equations. lia. Qed.

(** C3: on every non-negative integer each built-in fallback rule
    function returns the category the glossary's rule family gives, and
    the fallback selection applies that family to [abs(floor(count))]. *)
Theorem pluralRules_agree_with_glossary (ruleset : RuleSet) (n : Z) :
  0 <= n ->
  pluralRules ruleset n = Glossary.category (Glossary.family ruleset) n
  /\ (forall (i : Engine) (count : Q),
        getPluralRulesForLocale i = Some ruleset ->
        Z.abs (Qfloor count) = n ->
        selectPluralFormUsingFallbackRules i count
        = Glossary.category (Glossary.family ruleset) n).
Proof.
  intros Hn.
  assert (Hrule : pluralRules ruleset n
                  = Glossary.category (Glossary.family ruleset) n).
  { destruct ruleset; cbn [pluralRules Glossary.family Glossary.category];
      unfold Glossary.within, Glossary.lastDigit, Glossary.lastTwo, Glossary.equals;
      rewrite ?(rem_nonneg_mod n 100), ?(rem_nonneg_mod n 1000000),
              ?(rem_nonneg_mod (n mod 100) 10), ?last_digit_of_last_two
        by (try apply Z.mod_pos_bound; lia);
      rewrite ?Z.geb_leb; reflexivity. }
  split; [exact Hrule|].
  intros i count Hset Hcount.
  unfold selectPluralFormUsingFallbackRules. rewrite Hset, Hcount. exact Hrule.
Qed.

Lemma pluralRules_agree_with_glossary_witness :
  pluralRules russian 21 = Glossary.category (Glossary.family russian) 21
  /\ pluralRules russian 21 = one.
Proof.
  split; [|reflexivity].
  apply (pluralRules_agree_with_glossary russian 21); lia.
Defined.

(** ** Pluralised lookups *)

Lemma t_with_count (rt : Runtime) (i : Engine) (lookupKey : string)
    (count : JsNumber) (o : gmap string JsValue) :
  lookupKey <> "" ->
  o !! "count" = Some (JsNum count) ->
  t rt i lookupKey (Some o)
  = suffix ← getPluralSuffix rt i lookupKey count;
    lookupAndInterpolate rt i (lookupKey +:+ "." +:+ pluralRuleName suffix) (Some o).
Proof.
  intros Hkey Hcount. unfold t, resolveLookupKey.
  destruct (String.eqb_spec lookupKey "") as [->|_]; [congruence|].
  rewrite Hcount. cbn. destruct (getPluralSuffix rt i lookupKey count); reflexivity.
Qed.

Lemma hasKey_false (i : Engine) (key : string) :
  hasKey i key = false <-> translations i !! key = None.
Proof.
  unfold hasKey. rewrite bool_decide_eq_false, <- eq_None_not_Some. reflexivity.
Qed.

Lemma hasKey_true (i : Engine) (key : string) :
  hasKey i key = true <-> is_Some (translations i !! key).
Proof. unfold hasKey. apply bool_decide_eq_true. Qed.

Lemma lookupAndInterpolate_text (rt : Runtime) (i : Engine) (key text : string)
    (o : gmap string JsValue) :
  translations i !! key = Some (JsString text) ->
  lookupAndInterpolate rt i key (Some o)
  = if hasPlaceholders text then replacePlaceholders rt i text o else Ok text.
Proof. intros H. unfold lookupAndInterpolate. rewrite H. reflexivity. Qed.

(** C2: for a finite count whose preferred plural form has no entry, [t]
    resolves the [other] form when the key has one (the text itself, with
    its placeholders replaced when it has any) and throws the
    "other is required" error when it has none. *)
Theorem plural_form_falls_back_to_other (rt : Runtime) (i : Engine)
    (lookupKey : string) (count : Q) (o : gmap string JsValue) :
  lookupKey <> "" ->
  o !! "count" = Some (JsNum (Finite count)) ->
  hasKey i (lookupKey +:+ "." +:+ pluralRuleName (preferredForm rt i count)) = false ->
  (forall text, translations i !! (lookupKey +:+ ".other") = Some (JsString text) ->
     getPluralSuffix rt i lookupKey (Finite count) = Ok other
     /\ t rt i lookupKey (Some o)
        = if hasPlaceholders text then replacePlaceholders rt i text o else Ok text)
  /\ (translations i !! (lookupKey +:+ ".other") = None ->
      t rt i lookupKey (Some o) = Throw (PluralOtherRequired (locale i))).
Proof.
  intros Hkey Hcount Hpreferred. split.
  - intros text Hother.
    assert (Hsuffix : getPluralSuffix rt i lookupKey (Finite count) = Ok other).
    { unfold getPluralSuffix. rewrite Hpreferred.
      assert (Hhas : hasKey i (lookupKey +:+ ".other") = true)
        by (apply hasKey_true; eauto).
      rewrite Hhas. reflexivity. }
    split; [exact Hsuffix|].
    rewrite (t_with_count rt i lookupKey (Finite count) o Hkey Hcount), Hsuffix.
    cbn. apply lookupAndInterpolate_text. exact Hother.
  - intros Hnone.
    rewrite (t_with_count rt i lookupKey (Finite count) o Hkey Hcount).
    unfold getPluralSuffix. rewrite Hpreferred.
    apply hasKey_false in Hnone. rewrite Hnone. reflexivity.
Qed.

Lemma plural_form_falls_back_to_other_witness :
  t (Scenario.noIntl "ru") (I18n.construct (Scenario.noIntl "ru") (Some Scenario.oneAndOther) None)
    "key" (Some (Scenario.count 5)) = Ok "5 items"
  /\ t (Scenario.noIntl "") (I18n.construct (Scenario.noIntl "") (Some Scenario.onlyOne) None)
       "key" (Some (Scenario.count 5)) = Throw (PluralOtherRequired "en").
Proof.
  split.
  - apply (proj1 (plural_form_falls_back_to_other (Scenario.noIntl "ru")
             (I18n.construct (Scenario.noIntl "ru") (Some Scenario.oneAndOther) None)
             "key" (inject_Z 5) (Scenario.count 5)
             ltac:(discriminate) eq_refl eq_refl) "%{count} items" eq_refl).
  - apply (proj2 (plural_form_falls_back_to_other (Scenario.noIntl "")
             (I18n.construct (Scenario.noIntl "") (Some Scenario.onlyOne) None)
             "key" (inject_Z 5) (Scenario.count 5)
             ltac:(discriminate) eq_refl eq_refl) eq_refl).
Defined.

Lemma replaceTokens_no_plural_error (rt : Runtime) (i : Engine)
    (o : gmap string JsValue) (tokens : list Token) (l : string) :
  replaceTokens rt i o tokens <> Throw (PluralOtherRequired l).
Proof.
  induction tokens as [|[c|key] rest IH]; cbn.
  - discriminate.
  - destruct (replaceTokens rt i o rest); cbn; congruence.
  - unfold replacePlaceholder.
    destruct (o !! key) as [[| |[]| | |]|]; cbn; try discriminate;
      destruct (replaceTokens rt i o rest); cbn; congruence.
Qed.

Lemma lookupAndInterpolate_no_plural_error (rt : Runtime) (i : Engine)
    (key : string) (options : option (gmap string JsValue)) (l : string) :
  lookupAndInterpolate rt i key options <> Throw (PluralOtherRequired l).
Proof.
  unfold lookupAndInterpolate.
  destruct (translations i !! key) as [[| | | |text|]|]; try discriminate.
  destruct (hasPlaceholders text); [|discriminate].
  destruct options; [|discriminate].
  apply replaceTokens_no_plural_error.
Qed.

(** C9: a count that is a number but not finite takes the [other] form
    without any check of the translations, so [t] never throws the
    "other is required" error: it resolves [key.other], giving its text
    when it is one and the literal [key.other] when the key has no such
    form. *)
Theorem non_finite_count_skips_other_check (rt : Runtime) (i : Engine)
    (lookupKey : string) (count : JsNumber) (o : gmap string JsValue) :
  isFinite count = false ->
  o !! "count" = Some (JsNum count) ->
  getPluralSuffix rt i lookupKey count = Ok other
  /\ (forall l, t rt i lookupKey (Some o) <> Throw (PluralOtherRequired l))
  /\ (lookupKey <> "" ->
      t rt i lookupKey (Some o)
      = lookupAndInterpolate rt i (lookupKey +:+ ".other") (Some o)
      /\ (forall text,
            translations i !! (lookupKey +:+ ".other") = Some (JsString text) ->
            t rt i lookupKey (Some o)
            = if hasPlaceholders text then replacePlaceholders rt i text o else Ok text)
      /\ (translations i !! (lookupKey +:+ ".other") = None ->
          t rt i lookupKey (Some o) = Ok (lookupKey +:+ ".other"))).
Proof.
  intros Hinf Hcount.
  assert (Hsuffix : getPluralSuffix rt i lookupKey count = Ok other)
    by (destruct count; [reflexivity..|discriminate]).
  assert (Hresolved : lookupKey <> "" ->
            t rt i lookupKey (Some o)
            = lookupAndInterpolate rt i (lookupKey +:+ ".other") (Some o)).
  { intros Hkey. rewrite (t_with_count rt i lookupKey count o Hkey Hcount), Hsuffix.
    reflexivity. }
  split; [exact Hsuffix|]. split.
  - intros l. destruct (String.eqb_spec lookupKey "") as [->|Hkey].
    + unfold t, resolveLookupKey. cbn. discriminate.
    + rewrite (Hresolved Hkey). apply lookupAndInterpolate_no_plural_error.
  - intros Hkey. split; [exact (Hresolved Hkey)|]. split.
    + intros text Htext. rewrite (Hresolved Hkey).
      apply lookupAndInterpolate_text. exact Htext.
    + intros Hnone. rewrite (Hresolved Hkey).
      unfold lookupAndInterpolate. rewrite Hnone. reflexivity.
Qed.

Lemma non_finite_count_skips_other_check_witness :
  t (Scenario.noIntl "") (I18n.construct (Scenario.noIntl "") (Some Scenario.onlyOne) None)
    "key" (Some Scenario.countNaN) = Ok "key.other".
Proof.
  apply (non_finite_count_skips_other_check (Scenario.noIntl "")
           (I18n.construct (Scenario.noIntl "") (Some Scenario.onlyOne) None)
           "key" NaN Scenario.countNaN eq_refl eq_refl);
    [discriminate | reflexivity].
Defined.

(** ** Placeholder substitution *)








(** ** The accordion: frame and shape of [setExpanded] *)

Lemma updateShowAllButton_frame (rt : Runtime) (e : bool) (a a' : Accordion)
    (r : Result unit) :
  updateShowAllButton rt e a = (a', r) ->
  sections a' = sections a /\ config a' = config a /\ i18n a' = i18n a
  /\ browserSupportsSessionStorage a' = browserSupportsSessionStorage a.
Proof.
  unfold updateShowAllButton. destruct (t rt (i18n a) _ None); intros [= <- <-]; done.
Qed.

Lemma updateShowAllButton_ok (rt : Runtime) (e : bool) (a a' : Accordion) (u : unit) :
  updateShowAllButton rt e a = (a', Ok u) ->
  showAllAriaExpanded a' = boolString e /\ showAllIconDown a' = negb e
  /\ t rt (i18n a) (if e then "hideAllSections" else "showAllSections") None
     = Ok (showAllText a').
Proof.
  unfold updateShowAllButton. destruct (t rt (i18n a) _ None); intros [= <-]; done.
Qed.

Lemma checkIfAllSectionsOpen_sections (a a' : Accordion) :
  sections a' = sections a -> checkIfAllSectionsOpen a' = checkIfAllSectionsOpen a.
Proof. unfold checkIfAllSectionsOpen. by intros ->. Qed.

Lemma setExpanded_missing (rt : Runtime) (e : bool) (idx : nat) (a : Accordion) :
  sections a !! idx = None -> setExpanded rt e idx a = (a, Ok ()).
Proof. intros H. unfold setExpanded. by rewrite H. Qed.

Lemma setExpanded_malformed (rt : Runtime) (e : bool) (idx : nat) (a : Accordion)
    (s : Section) :
  sections a !! idx = Some s -> wellFormed s = false ->
  setExpanded rt e idx a = (a, Ok ()).
Proof.
  intros H Hwf. unfold setExpanded, wellFormed in *. rewrite H.
  destruct (showHideIcon s), (showHideText s), (button s), (content s);
    done.
Qed.

Lemma wellFormed_button (s : Section) :
  wellFormed s = true -> exists btn, button s = Some btn.
Proof.
  unfold wellFormed.
  destruct (showHideIcon s), (showHideText s), (button s) as [btn|], (content s);
    try discriminate. by exists btn.
Qed.

Lemma setExpanded_wellFormed (rt : Runtime) (e : bool) (idx : nat) (a : Accordion)
    (s : Section) (btn : gmap string string) :
  sections a !! idx = Some s -> wellFormed s = true -> button s = Some btn ->
  setExpanded rt e idx a =
    match t rt (i18n a) (if e then "hideSection" else "showSection") None with
    | Throw err => (a, Throw err)
    | Ok newButtonText =>
        match t rt (i18n a) (if e then "hideSectionAriaLabel" else "showSectionAriaLabel")
                None with
        | Throw err =>
            (withSections a (<[idx := withToggleText s btn e newButtonText]> (sections a)),
             Throw err)
        | Ok ariaLabelMessage =>
            let a' := withSections a
              (<[idx := withExpanded s btn e newButtonText ariaLabelMessage]> (sections a)) in
            updateShowAllButton rt (checkIfAllSectionsOpen a') a'
        end
    end.
Proof.
  intros H Hwf Hbtn. unfold setExpanded, wellFormed in *. rewrite H, Hbtn in *.
  destruct (showHideIcon s), (showHideText s), (content s); done.
Qed.

Lemma wellFormed_withToggleText (s : Section) (btn : gmap string string) (e : bool)
    (txt : string) :
  wellFormed s = true -> wellFormed (withToggleText s btn e txt) = true.
Proof.
  unfold wellFormed, withToggleText. cbn.
  destruct (showHideIcon s), (showHideText s), (button s), (content s); done.
Qed.

Lemma wellFormed_withExpanded (s : Section) (btn : gmap string string) (e : bool)
    (txt msg : string) :
  wellFormed (withExpanded s btn e txt msg) = true.
Proof. reflexivity. Qed.

(** The sections other than the one [setExpanded] is called on, the
    number of sections, and the configuration are left as they were; the
    section itself keeps its well-formedness and its storage key. *)
Lemma setExpanded_frame (rt : Runtime) (e : bool) (idx : nat) (a a' : Accordion)
    (r : Result unit) :
  setExpanded rt e idx a = (a', r) ->
  config a' = config a /\ i18n a' = i18n a
  /\ browserSupportsSessionStorage a' = browserSupportsSessionStorage a
  /\ length (sections a') = length (sections a)
  /\ (forall j, j <> idx -> sections a' !! j = sections a !! j)
  /\ wellFormed <$> sections a' !! idx = wellFormed <$> sections a !! idx
  /\ ariaControls <$> sections a' !! idx = ariaControls <$> sections a !! idx.
Proof.
  destruct (sections a !! idx) as [s|] eqn:Hs.
  2:{ rewrite (setExpanded_missing rt e idx a Hs). intros [= <- <-]. by rewrite Hs. }
  destruct (wellFormed s) eqn:Hwf.
  2:{ rewrite (setExpanded_malformed rt e idx a s Hs Hwf). intros [= <- <-].
      by rewrite Hs. }
  destruct (wellFormed_button s Hwf) as [btn Hbtn].
  rewrite (setExpanded_wellFormed rt e idx a s btn Hs Hwf Hbtn).
  assert (Hlt : (idx < length (sections a))%nat) by (by eapply lookup_lt_Some).
  assert (Hkey : ariaControls s = btn !! "aria-controls")
    by (unfold ariaControls; by rewrite Hbtn).
  destruct (t rt (i18n a) _ None) as [txt|err].
  2:{ intros [= <- <-]. by rewrite Hs. }
  destruct (t rt (i18n a) _ None) as [msg|err].
  - cbn zeta. intros Hupd.
    apply updateShowAllButton_frame in Hupd as (-> & -> & -> & ->). cbn.
    rewrite length_insert, list_lookup_insert_eq by done. cbn.
    split_and!; try done.
    + intros j Hj. by rewrite list_lookup_insert_ne.
    + by rewrite Hwf.
    + f_equal. rewrite Hkey. unfold ariaControls. cbn.
      by rewrite !lookup_insert_ne.
  - intros [= <- <-]. cbn.
    rewrite length_insert, list_lookup_insert_eq by done. cbn.
    split_and!; try done.
    + intros j Hj. by rewrite list_lookup_insert_ne.
    + by rewrite wellFormed_withToggleText, Hwf.
    + f_equal. rewrite Hkey. unfold ariaControls. cbn.
      by rewrite lookup_insert_ne.
Qed.

(** Whether [setExpanded] returns or throws, a well-formed section ends
    in the requested state exactly when both of its messages resolve. *)
Lemma setExpanded_expanded (rt : Runtime) (e : bool) (idx : nat) (a a' : Accordion)
    (s : Section) (r : Result unit) :
  sections a !! idx = Some s -> wellFormed s = true ->
  setExpanded rt e idx a = (a', r) ->
  isExpanded <$> sections a' !! idx
  = Some (if labelsResolve rt (i18n a) e then e else isExpanded s).
Proof.
  intros Hs Hwf. destruct (wellFormed_button s Hwf) as [btn Hbtn].
  rewrite (setExpanded_wellFormed rt e idx a s btn Hs Hwf Hbtn).
  assert (Hlt : (idx < length (sections a))%nat) by (by eapply lookup_lt_Some).
  unfold labelsResolve.
  destruct (t rt (i18n a) (if e then "hideSection" else "showSection") None)
    as [txt|err]; cbn.
  2:{ intros [= <- <-]. by rewrite Hs. }
  destruct (t rt (i18n a) _ None) as [msg|err]; cbn.
  - intros Hupd. apply updateShowAllButton_frame in Hupd as (-> & _). cbn.
    by rewrite list_lookup_insert_eq.
  - intros [= <- <-]. cbn. by rewrite list_lookup_insert_eq.
Qed.

(** When [setExpanded] returns on a well-formed section, the section is
    in the requested state with its label, and the show-all control has
    been recomputed from the sections. *)
Lemma setExpanded_ok (rt : Runtime) (e : bool) (idx : nat) (a a' : Accordion)
    (s : Section) (u : unit) :
  sections a !! idx = Some s -> wellFormed s = true ->
  setExpanded rt e idx a = (a', Ok u) ->
  exists btn txt msg,
    button s = Some btn
    /\ t rt (i18n a) (if e then "hideSection" else "showSection") None = Ok txt
    /\ t rt (i18n a) (if e then "hideSectionAriaLabel" else "showSectionAriaLabel") None
       = Ok msg
    /\ sections a' = <[idx := withExpanded s btn e txt msg]> (sections a)
    /\ showAllAriaExpanded a' = boolString (checkIfAllSectionsOpen a')
    /\ showAllIconDown a' = negb (checkIfAllSectionsOpen a')
    /\ t rt (i18n a)
         (if checkIfAllSectionsOpen a' then "hideAllSections" else "showAllSections")
         None = Ok (showAllText a').
Proof.
  intros Hs Hwf. destruct (wellFormed_button s Hwf) as [btn Hbtn].
  rewrite (setExpanded_wellFormed rt e idx a s btn Hs Hwf Hbtn).
  destruct (t rt (i18n a) (if e then "hideSection" else "showSection") None)
    as [txt|err]; [|discriminate].
  destruct (t rt (i18n a) _ None) as [msg|err] eqn:Hmsg; [|discriminate].
  cbn zeta. intros Hupd. exists btn, txt, msg.
  pose proof (updateShowAllButton_frame _ _ _ _ _ Hupd) as (Hsec & _).
  pose proof (updateShowAllButton_ok _ _ _ _ _ Hupd) as (Haria & Hicon & Htext).
  rewrite <- (checkIfAllSectionsOpen_sections _ a' Hsec) in Haria, Hicon, Htext.
  split_and!; done.
Qed.

(** *** The messages of every well-formed section resolve *)

Lemma setExpanded_labelled (rt : Runtime) (e : bool) (idx : nat) (a a' : Accordion)
    (r : Result unit) :
  labelled rt a -> setExpanded rt e idx a = (a', r) -> labelled rt a'.
Proof.
  intros Hinv Hset j s' Hj Hwf'.
  pose proof (setExpanded_frame rt e idx a a' r Hset)
    as (_ & Hi18n & _ & _ & Hother & Hwfs & _).
  rewrite Hi18n. destruct (decide (j = idx)) as [->|Hne].
  - rewrite Hj in Hwfs. cbn in Hwfs.
    destruct (sections a !! idx) as [s|] eqn:Hs; [|discriminate].
    injection Hwfs as Hwfs. rewrite Hwf' in Hwfs. symmetry in Hwfs.
    pose proof (setExpanded_expanded rt e idx a a' s r Hs Hwfs Hset) as Hexp.
    rewrite Hj in Hexp. injection Hexp as ->.
    destruct (labelsResolve rt (i18n a) e) eqn:Hl; [exact Hl|].
    by apply (Hinv idx s).
  - rewrite (Hother j Hne) in Hj. by apply (Hinv j s').
Qed.

(** *** Properties kept by every handler

    A property of the component that [setExpanded] and
    [updateShowAllButton] keep, whether they return or throw, is kept by
    every event handler. *)
Section Stable.
Variable rt : Runtime.
Variable P : Accordion -> Prop.
Hypothesis setExpanded_keeps :
  forall e idx a a' r, P a -> setExpanded rt e idx a = (a', r) -> P a'.
Hypothesis updateShowAllButton_keeps :
  forall e a a' r, P a -> updateShowAllButton rt e a = (a', r) -> P a'.

Lemma onSectionToggle_keeps idx w w' r :
  P (fst w) -> onSectionToggle rt idx w = (w', r) -> P (fst w').
Proof.
  destruct w as [a st]. unfold onSectionToggle. cbn [fst].
  destruct (setExpanded rt _ idx a) as [a1 [u|err]] eqn:Hset; intros HP.
  - destruct (storeState idx a1 st) as [st1 r1]. intros [= <- <-]. cbn.
    eapply setExpanded_keeps; eauto.
  - intros [= <- <-]. cbn. eapply setExpanded_keeps; eauto.
Qed.

Lemma showOrHideAll_keeps e idxs w w' r :
  P (fst w) -> showOrHideAll rt e idxs w = (w', r) -> P (fst w').
Proof.
  revert w. induction idxs as [|idx rest IH]; intros [a st] HP; cbn in *.
  - by intros [= <- <-].
  - destruct (setExpanded rt e idx a) as [a1 [u|err]] eqn:Hset.
    + destruct (storeState idx a1 st) as [st1 [u1|err]].
      * apply IH. cbn. eapply setExpanded_keeps; eauto.
      * intros [= <- <-]. cbn. eapply setExpanded_keeps; eauto.
    + intros [= <- <-]. cbn. eapply setExpanded_keeps; eauto.
Qed.

Lemma onShowOrHideAllToggle_keeps w w' r :
  P (fst w) -> onShowOrHideAllToggle rt w = (w', r) -> P (fst w').
Proof.
  unfold onShowOrHideAllToggle. intros HP.
  destruct (showOrHideAll rt _ _ w) as [[a1 st1] [u|err]] eqn:Hall.
  - destruct (updateShowAllButton rt _ a1) as [a2 r2] eqn:Hupd.
    intros [= <- <-]. cbn.
    eapply updateShowAllButton_keeps; [|exact Hupd].
    exact (showOrHideAll_keeps _ _ _ _ _ HP Hall).
  - intros [= <- <-]. exact (showOrHideAll_keeps _ _ _ _ _ HP Hall).
Qed.

Lemma handle_keeps ev w w' r :
  P (fst w) -> handle rt ev w = (w', r) -> P (fst w').
Proof.
  destruct ev as [idx| |target]; cbn.
  - apply onSectionToggle_keeps.
  - apply onShowOrHideAllToggle_keeps.
  - intros HP. unfold onBeforeMatch. destruct target as [idx|].
    + destruct (setExpanded rt true idx (fst w)) as [a' r'] eqn:Hset.
      intros [= <- <-]. cbn. eapply setExpanded_keeps; eauto.
    + by intros [= <- <-].
Qed.
End Stable.

Lemma updateShowAllButton_labelled (rt : Runtime) (e : bool) (a a' : Accordion)
    (r : Result unit) :
  labelled rt a -> updateShowAllButton rt e a = (a', r) -> labelled rt a'.
Proof.
  intros Hinv Hupd idx s.
  apply updateShowAllButton_frame in Hupd as (-> & _ & -> & _). apply Hinv.
Qed.

Lemma setExpanded_builtOver (rt : Runtime) (cfg : AccordionConfig) (markup : Markup)
    (e : bool) (idx : nat) (a a' : Accordion) (r : Result unit) :
  builtOver rt cfg markup a -> setExpanded rt e idx a = (a', r) ->
  builtOver rt cfg markup a'.
Proof.
  intros (Hcfg & Hi18n & Hlen & Hsec) Hset.
  pose proof (setExpanded_frame rt e idx a a' r Hset)
    as (Hc & Hi & _ & Hl & Hother & Hwfs & Hkeys).
  split_and!; [congruence..|].
  intros j m Hm. destruct (Hsec j m Hm) as (s & Hs & Hwf & Hkey).
  destruct (decide (j = idx)) as [->|Hne].
  - rewrite Hs in Hwfs, Hkeys. cbn in *.
    destruct (sections a' !! idx) as [s'|]; [|discriminate].
    cbn in Hwfs, Hkeys. injection Hwfs as Hwfs. injection Hkeys as Hkeys.
    exists s'. split; [done|]. split; congruence.
  - exists s. by rewrite (Hother j Hne).
Qed.

Lemma updateShowAllButton_builtOver (rt : Runtime) (cfg : AccordionConfig)
    (markup : Markup) (e : bool) (a a' : Accordion) (r : Result unit) :
  builtOver rt cfg markup a -> updateShowAllButton rt e a = (a', r) ->
  builtOver rt cfg markup a'.
Proof.
  intros H Hupd. unfold builtOver.
  apply updateShowAllButton_frame in Hupd as (-> & -> & -> & _). exact H.
Qed.

(** *** The constructor *)

Lemma setExpanded_ok_section (rt : Runtime) (e : bool) (k : nat) (a a' : Accordion)
    (s : Section) (u : unit) :
  sections a !! k = Some s -> setExpanded rt e k a = (a', Ok u) ->
  exists s', sections a' !! k = Some s'
    /\ wellFormed s' = wellFormed s
    /\ ariaControls s' = ariaControls s
    /\ isExpanded s' = (if wellFormed s then e else isExpanded s)
    /\ (wellFormed s = true -> labelsResolve rt (i18n a) e = true).
Proof.
  intros Hs Hset.
  pose proof (setExpanded_frame rt e k a a' _ Hset) as (_ & _ & _ & _ & _ & Hwfs & Hkeys).
  rewrite Hs in Hwfs, Hkeys.
  destruct (sections a' !! k) as [s'|] eqn:Hs'; [|discriminate].
  cbn in Hwfs, Hkeys. injection Hwfs as Hwfs. injection Hkeys as Hkeys.
  exists s'. split_and!; try done.
  - destruct (wellFormed s) eqn:Hwf.
    + pose proof (setExpanded_expanded rt e k a a' s _ Hs Hwf Hset) as Hexp.
      destruct (setExpanded_ok rt e k a a' s u Hs Hwf Hset)
        as (btn & txt & msg & _ & Htxt & Hmsg & _).
      unfold labelsResolve in Hexp. rewrite Htxt, Hmsg, Hs' in Hexp. cbn in Hexp.
      by injection Hexp.
    + rewrite (setExpanded_malformed rt e k a s Hs Hwf) in Hset.
      injection Hset as <-. rewrite Hs in Hs'. by injection Hs' as <-.
  - intros Hwf.
    destruct (setExpanded_ok rt e k a a' s u Hs Hwf Hset)
      as (btn & txt & msg & _ & Htxt & Hmsg & _).
    unfold labelsResolve. by rewrite Htxt, Hmsg.
Qed.

Lemma setInitialState_spec (rt : Runtime) (k : nat) (a : Accordion) (st : Storage)
    (s : Section) :
  sections a !! k = Some s ->
  setInitialState rt k a st =
    match storedState (browserSupportsSessionStorage a) (rememberExpanded (config a)) st s with
    | Some state => setExpanded rt (String.eqb state "true") k a
    | None => (a, Ok ())
    end.
Proof.
  intros Hs. unfold setInitialState, storedState, ariaControls. rewrite Hs. cbn.
  destruct (browserSupportsSessionStorage a && rememberExpanded (config a)); [|done].
  destruct (button s) as [btn|]; [|done]. cbn.
  destruct (btn !! "aria-controls") as [contentId|]; [|done].
  by destruct (String.eqb contentId "").
Qed.

Lemma storedState_key (available remember : bool) (st : Storage) (s s' : Section) :
  ariaControls s' = ariaControls s ->
  storedState available remember st s' = storedState available remember st s.
Proof. unfold storedState. by intros ->. Qed.

Lemma constructedHeader_expanded (moduleId : string) (h : Header) (k : nat)
    (s : Section) :
  isExpanded (constructedHeader moduleId h k s) = isExpanded s.
Proof. unfold constructedHeader. by destruct (span h), (heading h). Qed.

Lemma enhanced_expanded (moduleId : string) (k : nat) (m : SectionMarkup) :
  isExpanded (enhanced moduleId k m) = markupExpanded m.
Proof.
  unfold enhanced. destruct (header m); [|done].
  by rewrite constructedHeader_expanded.
Qed.

Lemma sectionOfMarkup_malformed (m : SectionMarkup) :
  wellFormed (sectionOfMarkup m) = false.
Proof. reflexivity. Qed.

(** The step of [initSectionHeaders] for the section at [k], when it
    returns. *)
Lemma initSectionHeader_ok (rt : Runtime) (moduleId : string) (st : Storage)
    (k : nat) (m : SectionMarkup) (a a' : Accordion) (u : unit) :
  sections a !! k = Some (sectionOfMarkup m) ->
  initSectionHeader rt moduleId st k m a = (a', Ok u) ->
  config a' = config a /\ i18n a' = i18n a
  /\ browserSupportsSessionStorage a' = browserSupportsSessionStorage a
  /\ length (sections a') = length (sections a)
  /\ (forall j, j <> k -> sections a' !! j = sections a !! j)
  /\ exists s', sections a' !! k = Some s'
       /\ wellFormed s' = wellFormed (enhanced moduleId k m)
       /\ ariaControls s' = ariaControls (enhanced moduleId k m)
       /\ isExpanded s'
          = initialState (browserSupportsSessionStorage a) (rememberExpanded (config a))
              st (enhanced moduleId k m) m
       /\ (wellFormed s' = true -> labelsResolve rt (i18n a) (isExpanded s') = true).
Proof.
  intros Hraw. unfold initSectionHeader, initialState, enhanced.
  destruct (header m) as [h|] eqn:Hh.
  2:{ intros H. injection H as <-. split_and!; try done.
      exists (sectionOfMarkup m). by rewrite sectionOfMarkup_malformed. }
  unfold constructHeaderMarkup. destruct (removeChildThrows h); [intros [=]|].
  set (enh := constructedHeader moduleId h k (sectionOfMarkup m)).
  set (a1 := withSections a (alter _ k (sections a))).
  assert (Hlt : (k < length (sections a))%nat) by (by eapply lookup_lt_Some).
  assert (H1 : sections a1 !! k = Some enh).
  { subst a1. cbn. rewrite list_lookup_alter_eq, Hraw. done. }
  assert (H1other : forall j, j <> k -> sections a1 !! j = sections a !! j).
  { intros j Hj. subst a1. cbn. by rewrite list_lookup_alter_ne. }
  assert (H1len : length (sections a1) = length (sections a)).
  { subst a1. cbn. by rewrite length_alter. }
  rewrite H1. change (default false (isExpanded <$> Some enh)) with (isExpanded enh).
  assert (Henh : isExpanded enh = markupExpanded m)
    by (subst enh; by rewrite constructedHeader_expanded).
  rewrite Henh.
  destruct (setExpanded rt (markupExpanded m) k a1) as [a2 [u2|err]] eqn:Hset;
    [|intros [=]].
  pose proof (setExpanded_frame rt _ k a1 a2 _ Hset)
    as (Hc2 & Hi2 & Hb2 & Hl2 & Ho2 & _ & _).
  destruct (setExpanded_ok_section rt _ k a1 a2 enh u2 H1 Hset)
    as (s2 & Hs2 & Hwf2 & Hkey2 & Hexp2 & Hlab2).
  rewrite (setInitialState_spec rt k a2 st s2 Hs2), Hb2, Hc2.
  rewrite (storedState_key _ _ st enh s2 Hkey2).
  change (browserSupportsSessionStorage a1) with (browserSupportsSessionStorage a) in *.
  change (config a1) with (config a) in *. change (i18n a1) with (i18n a) in *.
  destruct (storedState _ _ st enh) as [state|] eqn:Hstored.
  - intros Hset'.
    pose proof (setExpanded_frame rt _ k a2 a' _ Hset')
      as (Hc3 & Hi3 & Hb3 & Hl3 & Ho3 & _ & _).
    destruct (setExpanded_ok_section rt _ k a2 a' s2 u Hs2 Hset')
      as (s3 & Hs3 & Hwf3 & Hkey3 & Hexp3 & Hlab3).
    split; [congruence|]. split; [congruence|]. split; [congruence|].
    split; [congruence|]. split.
    { intros j Hj. rewrite Ho3 by done. rewrite Ho2 by done. by apply H1other. }
    exists s3. split; [done|]. split; [congruence|]. split; [congruence|]. split.
    + rewrite Hexp3, Hwf2, Hexp2. destruct (wellFormed enh); congruence.
    + intros Hwf. rewrite Hwf3, Hwf2 in Hwf. rewrite Hexp3, Hwf2, Hwf.
      rewrite <- Hi2. apply Hlab3. congruence.
  - intros H. injection H as <-.
    split; [congruence|]. split; [congruence|]. split; [congruence|].
    split; [congruence|]. split.
    { intros j Hj. rewrite Ho2 by done. by apply H1other. }
    exists s2. split; [done|]. split; [congruence|]. split; [congruence|]. split.
    + rewrite Hexp2. destruct (wellFormed enh); congruence.
    + intros Hwf. rewrite Hwf2 in Hwf. rewrite Hexp2, Hwf. by apply Hlab2.
Qed.

Lemma initSectionHeaders_ok (rt : Runtime) (moduleId : string) (st : Storage)
    (ms : list SectionMarkup) :
  forall (k : nat) (a a' : Accordion) (u : unit),
  (forall j m, ms !! j = Some m -> sections a !! (k + j)%nat = Some (sectionOfMarkup m)) ->
  initSectionHeaders rt moduleId st k ms a = (a', Ok u) ->
  config a' = config a /\ i18n a' = i18n a
  /\ browserSupportsSessionStorage a' = browserSupportsSessionStorage a
  /\ length (sections a') = length (sections a)
  /\ (forall j, (j < k)%nat -> sections a' !! j = sections a !! j)
  /\ (forall j m, ms !! j = Some m ->
        exists s', sections a' !! (k + j)%nat = Some s'
          /\ wellFormed s' = wellFormed (enhanced moduleId (k + j) m)
          /\ ariaControls s' = ariaControls (enhanced moduleId (k + j) m)
          /\ isExpanded s'
             = initialState (browserSupportsSessionStorage a)
                 (rememberExpanded (config a)) st (enhanced moduleId (k + j) m) m
          /\ (wellFormed s' = true -> labelsResolve rt (i18n a) (isExpanded s') = true)).
Proof.
  induction ms as [|m rest IH]; intros k a a' u Hraw; cbn.
  - intros H. injection H as <-. split_and!; try done.
  - destruct (initSectionHeader rt moduleId st k m a) as [a1 [u1|err]] eqn:Hstep;
      [|intros [=]].
    intros Hrest.
    assert (Hk : sections a !! k = Some (sectionOfMarkup m)).
    { specialize (Hraw 0%nat m eq_refl). by rewrite Nat.add_0_r in Hraw. }
    destruct (initSectionHeader_ok rt moduleId st k m a a1 u1 Hk Hstep)
      as (Hc1 & Hi1 & Hb1 & Hl1 & Ho1 & s1 & Hs1 & Hwf1 & Hkey1 & Hexp1 & Hlab1).
    destruct (IH (S k) a1 a' u) as (Hc & Hi & Hb & Hl & Hbefore & Hafter).
    { intros j m' Hm'. rewrite Ho1 by lia.
      specialize (Hraw (S j) m' Hm'). by rewrite Nat.add_succ_r in Hraw. }
    { exact Hrest. }
    split; [congruence|]. split; [congruence|]. split; [congruence|].
    split; [congruence|]. split.
    { intros j Hj. rewrite Hbefore by lia. apply Ho1. lia. }
    intros [|j] m' Hm'.
    + injection Hm' as <-. rewrite Nat.add_0_r. exists s1.
      rewrite Hbefore by lia. done.
    + cbn in Hm'. destruct (Hafter j m' Hm') as (s' & Hs' & Hwf & Hkey & Hexp & Hlab).
      rewrite Nat.add_succ_r. exists s'. rewrite <- Hb1, <- Hc1, <- Hi1. done.
Qed.

Lemma checkForSessionStorage_other (st : Storage) (key : string) :
  key <> testString ->
  getItem key (snd (checkForSessionStorage st)) = getItem key st.
Proof.
  intros Hne. unfold checkForSessionStorage, setItem.
  destruct (_ <=? _)%nat; [|done]. cbn. unfold getItem, removeItem. cbn.
  rewrite lookup_delete_ne, lookup_insert_ne; done.
Qed.

(** What [new] returns when it returns an instance. *)
Lemma new_ok (rt : Runtime) (cfg : AccordionConfig) (markup : Markup)
    (st st' : Storage) (b : Accordion) :
  new rt cfg markup st = (st', Ok (Some b)) ->
  st' = snd (checkForSessionStorage st)
  /\ config b = cfg
  /\ i18n b = I18n.construct rt (Some (i18nConfig cfg)) None
  /\ browserSupportsSessionStorage b = fst (checkForSessionStorage st)
  /\ length (sections b) = length (markupSections markup)
  /\ (forall idx m, markupSections markup !! idx = Some m ->
        exists s, sections b !! idx = Some s
          /\ wellFormed s = wellFormed (enhanced (moduleId markup) idx m)
          /\ ariaControls s = ariaControls (enhanced (moduleId markup) idx m)
          /\ isExpanded s
             = initialState (browserSupportsSessionStorage b) (rememberExpanded cfg)
                 st' (enhanced (moduleId markup) idx m) m
          /\ (wellFormed s = true -> labelsResolve rt (i18n b) (isExpanded s) = true))
  /\ showAllAriaExpanded b = boolString (checkIfAllSectionsOpen b).
Proof.
  unfold new. destruct (supported markup); cbn [negb]; [|intros [=]].
  destruct (markupSections markup) as [|m0 ms0] eqn:Hms; [intros [=]|].
  rewrite <- Hms. clear m0 ms0 Hms.
  destruct (checkForSessionStorage st) as [available st1] eqn:Hprobe.
  set (a0 := {| config := cfg; sections := sectionOfMarkup <$> markupSections markup |}).
  destruct (initSectionHeaders rt (moduleId markup) st1 0 (markupSections markup) a0)
    as [a1 [u1|err]] eqn:Hinit; [|intros [=]].
  destruct (updateShowAllButton rt (checkIfAllSectionsOpen a1) a1)
    as [a2 [u2|err]] eqn:Hupd; [|intros [=]].
  intros H. injection H as <- <-.
  destruct (initSectionHeaders_ok rt (moduleId markup) st1 (markupSections markup)
              0%nat a0 a1 u1) as (Hc & Hi & Hb & Hl & _ & Hsec).
  { intros j m Hm. subst a0. cbn. by rewrite list_lookup_fmap, Hm. }
  { exact Hinit. }
  pose proof (updateShowAllButton_frame _ _ _ _ _ Hupd) as (Hs2 & Hc2 & Hi2 & Hb2).
  pose proof (updateShowAllButton_ok _ _ _ _ _ Hupd) as (Haria & _).
  cbn [fst snd]. split; [done|]. split; [by rewrite Hc2, Hc|].
  split; [by rewrite Hi2, Hi|]. split; [by rewrite Hb2, Hb|].
  split; [by rewrite Hs2, Hl; subst a0; cbn; rewrite length_fmap|].
  split.
  - intros idx m Hm. destruct (Hsec idx m Hm) as (s & Hs & Hrest).
    exists s. rewrite Hs2, Hb2, Hb, Hi2, Hi. done.
  - by rewrite Haria, (checkIfAllSectionsOpen_sections a1 a2 Hs2).
Qed.

(** *** Reachable states *)

Lemma new_builtOver (rt : Runtime) (cfg : AccordionConfig) (markup : Markup)
    (st st' : Storage) (a : Accordion) :
  new rt cfg markup st = (st', Ok (Some a)) ->
  builtOver rt cfg markup a /\ labelled rt a.
Proof.
  intros Hnew.
  destruct (new_ok rt cfg markup st st' a Hnew) as (_ & Hc & Hi & _ & Hl & Hsec & _).
  split.
  - split_and!; try done. intros idx m Hm.
    destruct (Hsec idx m Hm) as (s & Hs & Hwf & Hkey & _). by exists s.
  - intros idx s Hs Hwf.
    assert (Hlt : (idx < length (markupSections markup))%nat).
    { rewrite <- Hl. by eapply lookup_lt_Some. }
    destruct (lookup_lt_is_Some_2 _ _ Hlt) as [m Hm].
    destruct (Hsec idx m Hm) as (s' & Hs' & _ & _ & _ & Hlab).
    rewrite Hs in Hs'. injection Hs' as <-. by apply Hlab.
Qed.

Lemma reachable_invariants (rt : Runtime) (cfg : AccordionConfig) (markup : Markup)
    (w : Accordion * Storage) :
  reachable rt cfg markup w -> builtOver rt cfg markup (fst w) /\ labelled rt (fst w).
Proof.
  induction 1 as [st st' a Hnew|w ev w' r _ [IHb IHl] Hev|a st st' _ IH].
  - exact (new_builtOver rt cfg markup st st' a Hnew).
  - split.
    + eapply (handle_keeps rt (builtOver rt cfg markup)); eauto.
      * intros e idx a a' r'. apply setExpanded_builtOver.
      * intros e a a' r'. apply updateShowAllButton_builtOver.
    + eapply (handle_keeps rt (labelled rt)); eauto.
      * intros e idx a a' r'. apply setExpanded_labelled.
      * intros e a a' r'. apply updateShowAllButton_labelled.
  - exact IH.
Qed.

(** ** Toggling a section *)

Lemma onSectionToggle_accordion (rt : Runtime) (idx : nat) (a : Accordion)
    (st : Storage) :
  fst (fst (onSectionToggle rt idx (a, st)))
  = fst (setExpanded rt (negb (default false (isExpanded <$> sections a !! idx))) idx a).
Proof.
  unfold onSectionToggle.
  destruct (setExpanded rt _ idx a) as [a' [u|err]]; [|done].
  by destruct (storeState idx a' st).
Qed.

(** C7: in every state of an initialised accordion, toggling a
    well-formed section twice in succession brings it back to the
    expanded value it had and leaves every other section as it was. *)
Theorem toggle_twice_restores_section (rt : Runtime) (cfg : AccordionConfig)
    (markup : Markup) (a : Accordion) (st : Storage) (idx : nat) (s : Section) :
  reachable rt cfg markup (a, st) ->
  sections a !! idx = Some s ->
  wellFormed s = true ->
  let once := fst (onSectionToggle rt idx (a, st)) in
  let twice := fst (onSectionToggle rt idx once) in
  isExpanded <$> sections (fst twice) !! idx = Some (isExpanded s)
  /\ (forall j, j <> idx -> sections (fst twice) !! j = sections a !! j).
Proof.
  intros Hreach Hs Hwf once twice.
  destruct (reachable_invariants rt cfg markup _ Hreach) as [_ Hlab]. cbn in Hlab.
  destruct once as [a1 st1] eqn:Honce.
  assert (Ha1 : a1 = fst (setExpanded rt (negb (isExpanded s)) idx a)).
  { pose proof (onSectionToggle_accordion rt idx a st) as H.
    fold once in H. rewrite Honce, Hs in H. exact H. }
  destruct (setExpanded rt (negb (isExpanded s)) idx a) as [a1' r1] eqn:Hset1.
  cbn in Ha1. subst a1'.
  pose proof (setExpanded_frame rt _ idx a a1 r1 Hset1)
    as (_ & Hi1 & _ & _ & Hother1 & Hwfs1 & _).
  pose proof (setExpanded_expanded rt _ idx a a1 s r1 Hs Hwf Hset1) as Hexp1.
  destruct (sections a1 !! idx) as [s1|] eqn:Hs1; [|discriminate].
  cbn in Hexp1. injection Hexp1 as Hexp1.
  rewrite Hs in Hwfs1. cbn in Hwfs1. injection Hwfs1 as Hwf1. rewrite Hwf in Hwf1.
  assert (Ha2 : fst twice = fst (setExpanded rt (negb (isExpanded s1)) idx a1)).
  { subst twice. rewrite onSectionToggle_accordion, Hs1. done. }
  destruct (setExpanded rt (negb (isExpanded s1)) idx a1) as [a2 r2] eqn:Hset2.
  cbn in Ha2. rewrite Ha2.
  pose proof (setExpanded_frame rt _ idx a1 a2 r2 Hset2)
    as (_ & _ & _ & _ & Hother2 & _ & _).
  split.
  - rewrite (setExpanded_expanded rt _ idx a1 a2 s1 r2 Hs1 Hwf1 Hset2). f_equal.
    rewrite Hi1, Hexp1.
    destruct (labelsResolve rt (i18n a) (negb (isExpanded s))) eqn:Hl.
    + rewrite negb_involutive. by rewrite (Hlab idx s Hs Hwf).
    + by rewrite Hl.
  - intros j Hj. rewrite Hother2, Hother1; done.
Qed.

Lemma toggle_twice_restores_section_witness :
  let rt := Scenario.noIntl "en" in
  let w := Scenario.start rt defaults Scenario.threeSections (Scenario.emptyStorage 1000) in
  let once := fst (onSectionToggle rt 1 w) in
  let twice := fst (onSectionToggle rt 1 once) in
  isExpanded <$> sections (fst once) !! 1%nat = Some true
  /\ isExpanded <$> sections (fst twice) !! 1%nat = Some false
  /\ sections (fst twice) !! 0%nat = sections (fst w) !! 0%nat.
Proof.
  intros rt w once twice.
  assert (Hs : exists s, sections (fst w) !! 1%nat = Some s /\ wellFormed s = true
                         /\ isExpanded s = false).
  { vm_compute. eexists. split_and!; reflexivity. }
  destruct Hs as (s & Hs & Hwf & Hexp).
  assert (Hreach : reachable rt defaults Scenario.threeSections (fst w, snd w)).
  { apply (reachable_new rt defaults Scenario.threeSections
             (Scenario.emptyStorage 1000)). vm_compute. reflexivity. }
  destruct (toggle_twice_restores_section rt defaults Scenario.threeSections
              (fst w) (snd w) 1 s Hreach Hs Hwf) as [Hback Hother].
  split; [vm_compute; reflexivity|]. split.
  - rewrite <- Hexp. exact Hback.
  - exact (Hother 0%nat ltac:(discriminate)).
Defined.

(** ** The accessible label *)

(** C8 (amended): [setExpanded] sets the button's [aria-label] of a
    well-formed section to the trimmed heading text, the trimmed summary
    text when there is a summary, and the action message
    ([hideSectionAriaLabel] when expanding, [showSectionAriaLabel] when
    collapsing), joined by a comma with a space on each side. *)
Theorem aria_label_joined_by_spaced_comma (rt : Runtime) (e : bool) (idx : nat)
    (a a' : Accordion) (s : Section) (h : string) (u : unit) :
  sections a !! idx = Some s ->
  wellFormed s = true ->
  headingText s = Some h ->
  setExpanded rt e idx a = (a', Ok u) ->
  exists action,
    t rt (i18n a) (if e then "hideSectionAriaLabel" else "showSectionAriaLabel") None
    = Ok action
    /\ ariaLabel <$> sections a' !! idx
       = Some (Some match summary s with
                    | Some line => trim h +:+ " , " +:+ trim line +:+ " , " +:+ action
                    | None => trim h +:+ " , " +:+ action
                    end).
Proof.
  intros Hs Hwf Hh Hset.
  destruct (setExpanded_ok rt e idx a a' s u Hs Hwf Hset)
    as (btn & txt & msg & Hbtn & _ & Hmsg & Hsec & _).
  exists msg. split; [exact Hmsg|].
  rewrite Hsec, list_lookup_insert_eq by (by eapply lookup_lt_Some).
  cbn. unfold ariaLabel, ariaLabelParts. cbn. rewrite lookup_insert_eq, Hh.
  by destruct (summary s).
Qed.

Lemma aria_label_joined_by_spaced_comma_witness :
  let rt := Scenario.noIntl "en" in
  let w := Scenario.start rt defaults Scenario.threeSections (Scenario.emptyStorage 1000) in
  exists a' action,
    setExpanded rt true 1 (fst w) = (a', Ok ())
    /\ t rt (i18n (fst w)) "hideSectionAriaLabel" None = Ok action
    /\ ariaLabel <$> sections a' !! 1%nat
       = Some (Some (trim "Writing well for specialists" +:+ " , "
                     +:+ trim "Understand your audience" +:+ " , " +:+ action)).
Proof.
  intros rt w.
  assert (Hs : exists s, sections (fst w) !! 1%nat = Some s /\ wellFormed s = true
             /\ headingText s = Some "Writing well for specialists"
             /\ summary s = Some "Understand your audience").
  { vm_compute. eexists. split_and!; reflexivity. }
  assert (Hset : exists a', setExpanded rt true 1 (fst w) = (a', Ok ())).
  { vm_compute. eexists. reflexivity. }
  clearbody w rt.
  destruct Hs as (s & Hs & Hwf & Hh & Hsum).
  destruct Hset as [a' Hset].
  destruct (aria_label_joined_by_spaced_comma rt true 1 (fst w) a' s _ () Hs Hwf Hh Hset)
    as (action & Hact & Hlabel).
  exists a', action. rewrite Hsum in Hlabel.
  split; [exact Hset|]. split; [exact Hact|exact Hlabel].
Defined.

(** C8, as stated, fails: in the three-section scenario the label of
    section 2 after it is expanded has a space before each comma. *)
Lemma aria_label_has_space_before_comma :
  let rt := Scenario.noIntl "en" in
  let w := Scenario.start rt defaults Scenario.threeSections (Scenario.emptyStorage 1000) in
  let w' := Scenario.after rt [ClickSection 1] w in
  ariaLabel <$> sections (fst w') !! 1%nat
  = Some (Some "Writing well for specialists , Understand your audience , Hide this section")
  /\ ariaLabel <$> sections (fst w') !! 1%nat
     <> Some (Some "Writing well for specialists, Understand your audience, Hide this section").
Proof.
  vm_compute. split; [reflexivity|discriminate].
Qed.

(** ** The show-all control *)

Lemma filter_length_le {A} (f : A -> bool) (l : list A) :
  (length (List.filter f l) <= length l)%nat.
Proof. induction l as [|x l IH]; cbn; [lia|]. destruct (f x); cbn; lia. Qed.

Lemma filter_length_all {A} (f : A -> bool) (l : list A) :
  length (List.filter f l) = length l <-> forall x, x ∈ l -> f x = true.
Proof.
  induction l as [|x l IH]; cbn.
  - split; [|done]. intros _ y Hy. by apply elem_of_nil in Hy.
  - pose proof (filter_length_le f l) as Hle. destruct (f x) eqn:Hx; cbn.
    + split.
      * intros Hlen y Hy. apply elem_of_cons in Hy as [->|Hy]; [done|].
        apply IH; [lia|done].
      * intros Hall. f_equal. apply IH. intros y Hy. apply Hall. by right.
    + split; [lia|]. intros Hall. specialize (Hall x ltac:(by left)). congruence.
Qed.

(** [checkIfAllSectionsOpen] holds exactly when every section is
    expanded. *)
Lemma checkIfAllSectionsOpen_true (a : Accordion) :
  checkIfAllSectionsOpen a = true <-> forall s, s ∈ sections a -> isExpanded s = true.
Proof.
  unfold checkIfAllSectionsOpen. rewrite Nat.eqb_eq, <- filter_length_all.
  split; congruence.
Qed.

Lemma checkIfAllSectionsOpen_none (a : Accordion) :
  sections a <> [] ->
  (forall s, s ∈ sections a -> isExpanded s = false) ->
  checkIfAllSectionsOpen a = false.
Proof.
  intros Hne Hall. apply not_true_is_false. intros Htrue.
  rewrite checkIfAllSectionsOpen_true in Htrue.
  destruct (sections a) as [|s rest]; [done|].
  specialize (Hall s ltac:(by left)). specialize (Htrue s ltac:(by left)). congruence.
Qed.

Lemma setExpanded_allWellFormed (rt : Runtime) (e : bool) (idx : nat) (a a' : Accordion)
    (r : Result unit) :
  allWellFormed a -> setExpanded rt e idx a = (a', r) -> allWellFormed a'.
Proof.
  intros Hall Hset j s' Hj.
  pose proof (setExpanded_frame rt e idx a a' r Hset)
    as (_ & _ & _ & _ & Hother & Hwfs & _).
  destruct (decide (j = idx)) as [->|Hne].
  - rewrite Hj in Hwfs. destruct (sections a !! idx) as [s|] eqn:Hs; [|discriminate].
    cbn in Hwfs. injection Hwfs as ->. by apply (Hall idx s).
  - rewrite (Hother j Hne) in Hj. by apply (Hall j s').
Qed.

(** When the loop of the show-all toggle returns over well-formed
    sections, every section it visited, and every section that already
    was in the new state, is in the new state. *)
Lemma showOrHideAll_ok (rt : Runtime) (e : bool) (idxs : list nat) :
  forall (a : Accordion) (st : Storage) (a' : Accordion) (st' : Storage) (u : unit),
  allWellFormed a ->
  showOrHideAll rt e idxs (a, st) = ((a', st'), Ok u) ->
  allWellFormed a'
  /\ length (sections a') = length (sections a)
  /\ forall j s', sections a' !! j = Some s' ->
       j ∈ idxs \/ (exists s, sections a !! j = Some s /\ isExpanded s = e) ->
       isExpanded s' = e.
Proof.
  induction idxs as [|idx rest IH]; intros a st a' st' u Hall; cbn.
  - intros H. injection H as <- <-. split_and!; try done.
    intros j s' Hj [Hin|(s & Hs & He)]; [by apply elem_of_nil in Hin|congruence].
  - destruct (setExpanded rt e idx a) as [a1 [u1|err]] eqn:Hset; [|intros [=]].
    destruct (storeState idx a1 st) as [st1 [u2|err]]; [|intros [=]].
    intros Hrest.
    pose proof (setExpanded_allWellFormed rt e idx a a1 _ Hall Hset) as Hall1.
    pose proof (setExpanded_frame rt e idx a a1 _ Hset)
      as (_ & _ & _ & Hl1 & Hother1 & _ & _).
    destruct (IH a1 st1 a' st' u Hall1 Hrest) as (Hall' & Hl' & Hexp').
    split; [done|]. split; [congruence|].
    intros j s' Hj Hcase. apply (Hexp' j s' Hj).
    destruct (decide (j = idx)) as [->|Hne].
    + right.
      assert (Hlt : (idx < length (sections a))%nat).
      { rewrite <- Hl1, <- Hl'. by eapply lookup_lt_Some. }
      destruct (lookup_lt_is_Some_2 _ _ Hlt) as [s Hs].
      destruct (setExpanded_ok_section rt e idx a a1 s u1 Hs Hset)
        as (s1 & Hs1 & _ & _ & Hexp1 & _).
      exists s1. split; [done|]. by rewrite Hexp1, (Hall idx s Hs).
    + destruct Hcase as [Hin|(s & Hs & He)].
      * left. apply elem_of_cons in Hin as [->|Hin]; done.
      * right. exists s. by rewrite Hother1.
Qed.

(** C1 (amended): when [setExpanded] returns on a well-formed section,
    the show-all control's expanded state is the one recomputed from the
    sections, which is whether every section is expanded; on a section
    that fails its guard nothing changes; and when the show-all toggle
    returns over sections that are all well-formed, every section is in
    the new state and the control's state again equals the recomputed
    one. *)
Theorem show_all_state_is_recomputed (rt : Runtime) (a : Accordion) :
  (forall e idx s a' u,
     sections a !! idx = Some s -> wellFormed s = true ->
     setExpanded rt e idx a = (a', Ok u) ->
     showAllAriaExpanded a' = boolString (checkIfAllSectionsOpen a'))
  /\ (forall e idx s,
        sections a !! idx = Some s -> wellFormed s = false ->
        setExpanded rt e idx a = (a, Ok ()))
  /\ (forall st a' st' u,
        sections a <> [] -> allWellFormed a ->
        onShowOrHideAllToggle rt (a, st) = ((a', st'), Ok u) ->
        (forall s, s ∈ sections a' -> isExpanded s = negb (checkIfAllSectionsOpen a))
        /\ showAllAriaExpanded a' = boolString (checkIfAllSectionsOpen a'))
  /\ (forall a', checkIfAllSectionsOpen a' = true <->
                 forall s, s ∈ sections a' -> isExpanded s = true).
Proof.
  split; [|split; [|split]].
  - intros e idx s a' u Hs Hwf Hset.
    by destruct (setExpanded_ok rt e idx a a' s u Hs Hwf Hset)
      as (_ & _ & _ & _ & _ & _ & _ & H & _).
  - intros e idx s. apply setExpanded_malformed.
  - intros st a' st' u Hne Hall. unfold onShowOrHideAllToggle. cbn [fst].
    set (e := negb (checkIfAllSectionsOpen a)).
    destruct (showOrHideAll rt e _ (a, st)) as [[a1 st1] [u1|err]] eqn:Hloop;
      [|intros [=]].
    destruct (updateShowAllButton rt e a1) as [a2 r2] eqn:Hupd.
    intros H. injection H as -> -> ->.
    destruct (showOrHideAll_ok rt e _ a st a1 st' u1 Hall Hloop) as (_ & Hlen & Hexp).
    pose proof (updateShowAllButton_frame _ _ _ _ _ Hupd) as (Hsec & _).
    pose proof (updateShowAllButton_ok _ _ _ _ _ Hupd) as (Haria & _).
    assert (Hall' : forall s, s ∈ sections a' -> isExpanded s = e).
    { intros s Hin. rewrite Hsec in Hin.
      apply list_elem_of_lookup in Hin as [j Hj]. apply (Hexp j s Hj). left.
      apply elem_of_seq. split; [lia|]. cbn. rewrite <- Hlen. by eapply lookup_lt_Some. }
    split; [exact Hall'|]. rewrite Haria. f_equal. symmetry.
    destruct e.
    + by apply checkIfAllSectionsOpen_true.
    + apply checkIfAllSectionsOpen_none; [|done].
      rewrite Hsec. intros Hnil. rewrite Hnil in Hlen. cbn in Hlen.
      destruct (sections a); [done|discriminate].
  - intros a'. apply checkIfAllSectionsOpen_true.
Qed.

Lemma allWellFormed_forallb (a : Accordion) :
  forallb wellFormed (sections a) = true -> allWellFormed a.
Proof.
  intros H idx s Hs. rewrite forallb_forall in H. apply H.
  apply list_elem_of_In. by eapply list_elem_of_lookup_2.
Qed.

Lemma show_all_state_is_recomputed_witness :
  let rt := Scenario.noIntl "en" in
  let w := Scenario.start rt defaults Scenario.threeSections (Scenario.emptyStorage 1000) in
  exists a' st',
    onShowOrHideAllToggle rt (fst w, snd w) = ((a', st'), Ok ())
    /\ (forall s, s ∈ sections a' ->
          isExpanded s = negb (checkIfAllSectionsOpen (fst w)))
    /\ showAllAriaExpanded a' = boolString (checkIfAllSectionsOpen a').
Proof.
  intros rt w.
  assert (Htoggle : exists a' st',
            onShowOrHideAllToggle rt (fst w, snd w) = ((a', st'), Ok ())).
  { vm_compute. do 2 eexists. reflexivity. }
  assert (Hwf : forallb wellFormed (sections (fst w)) = true)
    by (vm_compute; reflexivity).
  assert (Hlen : length (sections (fst w)) = 3%nat) by (vm_compute; reflexivity).
  clearbody w rt.
  destruct Htoggle as (a' & st' & Htoggle). exists a', st'.
  split; [exact Htoggle|].
  apply (proj1 (proj2 (proj2 (show_all_state_is_recomputed rt (fst w))))
           (snd w) a' st' ()).
  - intros Hnil. rewrite Hnil in Hlen. discriminate.
  - by apply allWellFormed_forallb.
  - exact Htoggle.
Defined.

(** C1, as stated, fails: over an accordion whose second section lacks
    its content wrapper, the show-all toggle leaves that section
    collapsed and yet sets the control to expanded. *)
Lemma show_all_state_stale_after_toggle_all :
  let rt := Scenario.noIntl "en" in
  let markup := Scenario.secondWithoutContent in
  let st := Scenario.emptyStorage 1000 in
  let w := Scenario.start rt defaults markup st in
  let after := onShowOrHideAllToggle rt w in
  new rt defaults markup st = (snd w, Ok (Some (fst w)))
  /\ snd after = Ok ()
  /\ isExpanded <$> sections (fst (fst after)) = [true; false]
  /\ checkIfAllSectionsOpen (fst (fst after)) = false
  /\ showAllAriaExpanded (fst (fst after)) = "true"
  /\ showAllAriaExpanded (fst (fst after))
     <> boolString (checkIfAllSectionsOpen (fst (fst after))).
Proof.
  vm_compute. split_and!; try reflexivity. discriminate.
Qed.

(** ** Persistence *)

Lemma setItem_ok (key value : string) (st st' : Storage) :
  setItem key value st = Ok st' ->
  getItem key st' = Some value
  /\ (forall other, other <> key -> getItem other st' = getItem other st).
Proof.
  unfold setItem, getItem. destruct (_ <=? _)%nat; [|discriminate].
  intros [= <-]. cbn. split; [apply lookup_insert_eq|].
  intros other Hne. by apply lookup_insert_ne.
Qed.

Lemma setItem_throw (key value : string) (st : Storage) (e : JsError) :
  setItem key value st = Throw e -> e = QuotaExceededError.
Proof. unfold setItem. destruct (_ <=? _)%nat; [discriminate|]. by intros [= <-]. Qed.

(** [storeState] on a component that remembers states over a working
    storage, for a section whose button has both attributes. *)
Lemma storeState_write (idx : nat) (a : Accordion) (st : Storage) (s : Section)
    (btn : gmap string string) (contentId contentState : string) :
  browserSupportsSessionStorage a = true -> rememberExpanded (config a) = true ->
  sections a !! idx = Some s -> button s = Some btn ->
  btn !! "aria-controls" = Some contentId -> btn !! "aria-expanded" = Some contentState ->
  contentId <> "" -> contentState <> "" ->
  storeState idx a st =
    match setItem contentId contentState st with
    | Ok st' => (st', Ok ())
    | Throw e => (st, Throw e)
    end.
Proof.
  intros Hb Hr Hs Hbtn Hid Hstate Hne1 Hne2. unfold storeState.
  rewrite Hb, Hr, Hs. cbn. rewrite Hbtn, Hid, Hstate.
  destruct (String.eqb_spec contentId ""); [done|].
  destruct (String.eqb_spec contentState ""); [done|]. done.
Qed.

Lemma storeState_off (idx : nat) (a : Accordion) (st : Storage) :
  browserSupportsSessionStorage a && rememberExpanded (config a) = false ->
  storeState idx a st = (st, Ok ()).
Proof. intros H. unfold storeState. by rewrite H. Qed.

(** The loop of the show-all toggle over two runs of positions. *)
Lemma showOrHideAll_app (rt : Runtime) (nowExpanded : bool) (before rest : list nat) :
  forall w,
    showOrHideAll rt nowExpanded (before ++ rest) w
    = match showOrHideAll rt nowExpanded before w with
      | (w', Throw e) => (w', Throw e)
      | (w', Ok _) => showOrHideAll rt nowExpanded rest w'
      end.
Proof.
  induction before as [|idx before IH]; intros [a st]; [done|].
  cbn. destruct (setExpanded rt nowExpanded idx a) as [a' [u|e]]; [|done].
  destruct (storeState idx a' st) as [st' [u'|e]]; [|done].
  apply IH.
Qed.

(** C6 (amended): the only storage exception that is caught is the one
    of the availability probe, after which [storeState] never touches
    the storage. When the probe succeeded and a later write throws,
    [storeState] has no handler: the exception leaves the section toggle,
    whose transition of the section has completed, and it leaves the
    show-all toggle, whose loop ends at the section being stored: the
    component is as [setExpanded] left it at that section, and the
    storage is as the writes for the sections before it left it. *)
Theorem storage_write_exception_propagates (rt : Runtime) (a : Accordion)
    (st : Storage) (idx : nat) :
  (forall e, setItem testString testString st = Throw e ->
     checkForSessionStorage st = (false, st))
  /\ (browserSupportsSessionStorage a && rememberExpanded (config a) = false ->
      storeState idx a st = (st, Ok ()))
  /\ fst (fst (onSectionToggle rt idx (a, st)))
     = fst (setExpanded rt (negb (default false (isExpanded <$> sections a !! idx))) idx a)
  /\ (forall a1 u st' e,
        setExpanded rt (negb (default false (isExpanded <$> sections a !! idx))) idx a
        = (a1, Ok u) ->
        storeState idx a1 st = (st', Throw e) ->
        onSectionToggle rt idx (a, st) = ((a1, st'), Throw e))
  /\ (forall nowExpanded rest a1 u st' e,
        setExpanded rt nowExpanded idx a = (a1, Ok u) ->
        storeState idx a1 st = (st', Throw e) ->
        showOrHideAll rt nowExpanded (idx :: rest) (a, st) = ((a1, st'), Throw e))
  /\ (forall s btn contentId contentState e,
        browserSupportsSessionStorage a = true -> rememberExpanded (config a) = true ->
        sections a !! idx = Some s -> button s = Some btn ->
        btn !! "aria-controls" = Some contentId ->
        btn !! "aria-expanded" = Some contentState ->
        contentId <> "" -> contentState <> "" ->
        setItem contentId contentState st = Throw e ->
        storeState idx a st = (st, Throw e))
  /\ (forall a0 st0 u0 a1 u st' e,
        (idx < length (sections a))%nat ->
        showOrHideAll rt (negb (checkIfAllSectionsOpen a)) (seq 0 idx) (a, st)
        = ((a0, st0), Ok u0) ->
        setExpanded rt (negb (checkIfAllSectionsOpen a)) idx a0 = (a1, Ok u) ->
        storeState idx a1 st0 = (st', Throw e) ->
        onShowOrHideAllToggle rt (a, st) = ((a1, st'), Throw e)
        /\ e = QuotaExceededError /\ st' = st0).
Proof.
  split_and!.
  - intros e He. unfold checkForSessionStorage. by rewrite He.
  - apply storeState_off.
  - apply onSectionToggle_accordion.
  - intros a1 u st' e Hset Hstore. unfold onSectionToggle. by rewrite Hset, Hstore.
  - intros nowExpanded rest a1 u st' e Hset Hstore. cbn. by rewrite Hset, Hstore.
  - intros s btn contentId contentState e Hb Hr Hs Hbtn Hid Hstate Hne1 Hne2 Hthrow.
    rewrite (storeState_write idx a st s btn contentId contentState); try done.
    by rewrite Hthrow.
  - intros a0 st0 u0 a1 u st' e Hlt Hbefore Hset Hstore.
    split.
    + unfold onShowOrHideAllToggle. cbn [fst].
      assert (Hseq : seq 0 (length (sections a))
                     = seq 0 idx ++ idx :: seq (S idx) (length (sections a) - S idx)).
      { replace (length (sections a)) with (idx + S (length (sections a) - S idx))%nat
          at 1 by lia.
        by rewrite seq_app. }
      rewrite Hseq, showOrHideAll_app, Hbefore. cbn. by rewrite Hset, Hstore.
    + unfold storeState in Hstore.
      destruct (_ && _); [|discriminate].
      destruct (sections a1 !! idx ≫= button) as [btn|]; [|discriminate].
      destruct (btn !! "aria-controls") as [contentId|]; [|discriminate].
      destruct (btn !! "aria-expanded") as [contentState|]; [|discriminate].
      destruct (_ && _); [|discriminate].
      destruct (setItem contentId contentState st0) as [st1|e1] eqn:Hwrite; [discriminate|].
      injection Hstore as <- <-. split; [|done]. by apply setItem_throw in Hwrite.
Qed.

Lemma storage_write_exception_propagates_witness :
  let rt := Scenario.noIntl "en" in
  let w := Scenario.start rt defaults Scenario.threeSections (Scenario.emptyStorage 80) in
  let a1 := fst (setExpanded rt true 1 (fst w)) in
  let room := Scenario.emptyStorage 40 in
  let first := fst (showOrHideAll rt true [0%nat] (fst w, room)) in
  let a2 := fst (setExpanded rt true 1 (fst first)) in
  (setExpanded rt true 1 (fst w) = (a1, Ok ())
   /\ onSectionToggle rt 1 (fst w, Scenario.fullStorage)
      = ((a1, Scenario.fullStorage), Throw QuotaExceededError))
  /\ (getItem "accordion-default-content-1" (snd first) = Some "true"
      /\ onShowOrHideAllToggle rt (fst w, room) = ((a2, snd first), Throw QuotaExceededError)
      /\ isExpanded <$> sections a2 = [true; true; false]).
Proof.
  intros rt w a1 room first a2.
  assert (Hset : setExpanded rt
                   (negb (default false (isExpanded <$> sections (fst w) !! 1%nat)))
                   1 (fst w) = (a1, Ok ())) by (vm_compute; reflexivity).
  assert (Hset' : setExpanded rt true 1 (fst w) = (a1, Ok ()))
    by (vm_compute; reflexivity).
  assert (Hstore : storeState 1 a1 Scenario.fullStorage
                   = (Scenario.fullStorage, Throw QuotaExceededError))
    by (vm_compute; reflexivity).
  assert (Hlen : (1 < length (sections (fst w)))%nat) by (vm_compute; lia).
  assert (Hnone : negb (checkIfAllSectionsOpen (fst w)) = true) by (vm_compute; reflexivity).
  assert (Hfirst : showOrHideAll rt true (seq 0 1) (fst w, room)
                   = ((fst first, snd first), Ok ())) by (vm_compute; reflexivity).
  assert (Hset2 : setExpanded rt true 1 (fst first) = (a2, Ok ()))
    by (vm_compute; reflexivity).
  assert (Hstore2 : storeState 1 a2 (snd first) = (snd first, Throw QuotaExceededError))
    by (vm_compute; reflexivity).
  assert (Hstored : getItem "accordion-default-content-1" (snd first) = Some "true")
    by (vm_compute; reflexivity).
  assert (Hsections : isExpanded <$> sections a2 = [true; true; false])
    by (vm_compute; reflexivity).
  clearbody a2 first a1 w rt.
  split.
  - split; [exact Hset'|].
    exact (proj1 (proj2 (proj2 (proj2
             (storage_write_exception_propagates rt (fst w) Scenario.fullStorage 1))))
             a1 () _ _ Hset Hstore).
  - split; [exact Hstored|]. split; [|exact Hsections].
    rewrite <- Hnone in Hfirst, Hset2.
    exact (proj1 (proj2 (proj2 (proj2 (proj2 (proj2 (proj2
             (storage_write_exception_propagates rt (fst w) room 1))))))
             (fst first) (snd first) () a2 () (snd first) QuotaExceededError
             Hlen Hfirst Hset2 Hstore2)).
Defined.

(** C6, as stated, fails: the probe succeeds at construction; with the
    storage full when section 2 is clicked, the toggle throws the
    storage's exception once the section has been expanded; and with room
    for one entry when the show-all button is clicked, the toggle throws
    at the second section, leaving the third collapsed and the control
    at "false". *)
Lemma section_toggle_throws_when_storage_full :
  let rt := Scenario.noIntl "en" in
  let w := Scenario.start rt defaults Scenario.threeSections (Scenario.emptyStorage 80) in
  let after := onSectionToggle rt 1 (fst w, Scenario.fullStorage) in
  let afterAll := onShowOrHideAllToggle rt (fst w, Scenario.emptyStorage 40) in
  new rt defaults Scenario.threeSections (Scenario.emptyStorage 80)
  = (snd w, Ok (Some (fst w)))
  /\ browserSupportsSessionStorage (fst w) = true
  /\ rememberExpanded (config (fst w)) = true
  /\ snd after = Throw QuotaExceededError
  /\ isExpanded <$> sections (fst (fst after)) !! 1%nat = Some true
  /\ isOk (snd after) = false
  /\ snd afterAll = Throw QuotaExceededError
  /\ isExpanded <$> sections (fst (fst afterAll)) = [true; true; false]
  /\ showAllAriaExpanded (fst (fst afterAll)) = "false"
  /\ isOk (snd afterAll) = false.
Proof.
  vm_compute. split_and!; reflexivity.
Qed.

Lemma checkForSessionStorage_probe_removed (st : Storage) :
  fst (checkForSessionStorage st) = true ->
  getItem testString (snd (checkForSessionStorage st)) = None.
Proof.
  unfold checkForSessionStorage, setItem.
  destruct (_ <=? _)%nat; [|discriminate]. cbn. intros _.
  unfold getItem, removeItem. cbn. apply lookup_delete_eq.
Qed.

Lemma storedState_off (available : bool) (st : Storage) (s : Section) :
  storedState available false st s = None.
Proof. unfold storedState. by rewrite andb_false_r. Qed.

(** C5 (amended): for a well-formed section of an initialised accordion
    whose key is not empty and is not the probe's test string; with
    [rememberExpanded] and a working storage, expanding the section and
    storing its state, then constructing a new instance over the same
    markup with the storage still working, gives the section expanded;
    without [rememberExpanded] a new instance has the section as the
    markup has it, whatever the storage holds; and when the storage holds
    nothing for a section, [setInitialState] leaves the component as it
    is. *)
Theorem persistence_round_trip (rt : Runtime) (cfg : AccordionConfig)
    (markup : Markup) (a : Accordion) (st : Storage) (idx : nat)
    (m : SectionMarkup) (s : Section) (contentId : string) :
  reachable rt cfg markup (a, st) ->
  markupSections markup !! idx = Some m ->
  sections a !! idx = Some s ->
  wellFormed s = true ->
  ariaControls s = Some contentId ->
  contentId <> "" ->
  contentId <> testString ->
  (rememberExpanded cfg = true -> browserSupportsSessionStorage a = true ->
   forall a1 u st2 u2 st3 b,
     setExpanded rt true idx a = (a1, Ok u) ->
     storeState idx a1 st = (st2, Ok u2) ->
     new rt cfg markup st2 = (st3, Ok (Some b)) ->
     browserSupportsSessionStorage b = true ->
     getItem contentId st2 = Some "true"
     /\ isExpanded <$> sections b !! idx = Some true)
  /\ (rememberExpanded cfg = false ->
      forall st0 st3 b,
        new rt cfg markup st0 = (st3, Ok (Some b)) ->
        isExpanded <$> sections b !! idx = Some (markupExpanded m))
  /\ (forall a0 st0 s0,
        sections a0 !! idx = Some s0 ->
        (forall key, ariaControls s0 = Some key -> getItem key st0 = None) ->
        setInitialState rt idx a0 st0 = (a0, Ok ())).
Proof.
  intros Hreach Hm Hs Hwf Hkey Hne Hprobe.
  destruct (reachable_invariants rt cfg markup _ Hreach) as [(Hcfg & _ & _ & Hbuilt) _].
  cbn in Hcfg, Hbuilt.
  destruct (Hbuilt idx m Hm) as (s' & Hs' & Hwfm & Hkeym).
  rewrite Hs in Hs'. injection Hs' as <-. rewrite Hwf in Hwfm. rewrite Hkey in Hkeym.
  split; [|split].
  - intros Hremember Hworks a1 u st2 u2 st3 b Hset Hstore Hnew Hworks'.
    destruct (setExpanded_ok rt true idx a a1 s u Hs Hwf Hset)
      as (btn & txt & msg & Hbtn & _ & _ & Hsec & _).
    pose proof (setExpanded_frame rt true idx a a1 _ Hset) as (Hc1 & _ & Hb1 & _).
    assert (Hid : btn !! "aria-controls" = Some contentId).
    { unfold ariaControls in Hkey. by rewrite Hbtn in Hkey. }
    assert (Hstored : getItem contentId st2 = Some "true").
    { rewrite (storeState_write idx a1 st (withExpanded s btn true txt msg)
                 (<["aria-label" := join " , " (ariaLabelParts s ++ [msg])]>
                    (<["aria-expanded" := "true"]> btn))
                 contentId "true") in Hstore.
      - destruct (setItem contentId "true" st) as [st2'|e] eqn:Hwrite; [|discriminate].
        injection Hstore as <-. by apply (setItem_ok _ _ _ _ Hwrite).
      - congruence.
      - congruence.
      - rewrite Hsec. apply list_lookup_insert_eq. by eapply lookup_lt_Some.
      - reflexivity.
      - by rewrite !lookup_insert_ne.
      - rewrite lookup_insert_ne by done. apply lookup_insert_eq.
      - done.
      - done. }
    split; [exact Hstored|].
    destruct (new_ok rt cfg markup st2 st3 b Hnew) as (Hst3 & _ & _ & _ & _ & Hsecb & _).
    destruct (Hsecb idx m Hm) as (sb & Hsb & _ & _ & Hexp & _).
    rewrite Hsb. cbn. f_equal. rewrite Hexp. unfold initialState, storedState.
    rewrite <- Hwfm, <- Hkeym, Hworks', Hremember. cbn.
    destruct (String.eqb_spec contentId ""); [done|].
    rewrite Hst3, (checkForSessionStorage_other st2 contentId Hprobe), Hstored.
    reflexivity.
  - intros Hremember st0 st3 b Hnew.
    destruct (new_ok rt cfg markup st0 st3 b Hnew) as (_ & _ & _ & _ & _ & Hsecb & _).
    destruct (Hsecb idx m Hm) as (sb & Hsb & _ & _ & Hexp & _).
    rewrite Hsb. cbn. f_equal. rewrite Hexp. unfold initialState.
    rewrite Hremember, storedState_off. by rewrite <- Hwfm.
  - intros a0 st0 s0 Hs0 Habsent.
    rewrite (setInitialState_spec rt idx a0 st0 s0 Hs0). unfold storedState.
    destruct (_ && _); [|done].
    destruct (ariaControls s0) as [key|]; [|done].
    destruct (String.eqb key ""); [done|]. by rewrite (Habsent key).
Qed.

Lemma persistence_round_trip_witness :
  let rt := Scenario.noIntl "en" in
  let markup := Scenario.threeSections in
  let w := Scenario.start rt defaults markup (Scenario.emptyStorage 1000) in
  let a1 := fst (setExpanded rt true 1 (fst w)) in
  let st2 := fst (storeState 1 a1 (snd w)) in
  let again := Scenario.start rt defaults markup st2 in
  getItem "accordion-default-content-2" st2 = Some "true"
  /\ isExpanded <$> sections (fst again) !! 1%nat = Some true.
Proof.
  intros rt markup w a1 st2 again.
  assert (Hreach : reachable rt defaults markup (fst w, snd w)).
  { apply (reachable_new rt defaults markup (Scenario.emptyStorage 1000)).
    vm_compute. reflexivity. }
  assert (Hm : markupSections markup !! 1%nat
               = Some (Scenario.sectionMarkup false "Writing well for specialists"
                         (Some "Understand your audience"))) by reflexivity.
  assert (Hs : exists s, sections (fst w) !! 1%nat = Some s /\ wellFormed s = true
                 /\ ariaControls s = Some "accordion-default-content-2").
  { vm_compute. eexists. split_and!; reflexivity. }
  assert (Hworks : browserSupportsSessionStorage (fst w) = true)
    by (vm_compute; reflexivity).
  assert (Hset : setExpanded rt true 1 (fst w) = (a1, Ok ())) by (vm_compute; reflexivity).
  assert (Hstore : storeState 1 a1 (snd w) = (st2, Ok ())) by (vm_compute; reflexivity).
  assert (Hnew : new rt defaults markup st2 = (snd again, Ok (Some (fst again))))
    by (vm_compute; reflexivity).
  assert (Hworks' : browserSupportsSessionStorage (fst again) = true)
    by (vm_compute; reflexivity).
  clearbody again st2 a1 w rt.
  destruct Hs as (s & Hs & Hwf & Hkey).
  exact (proj1 (persistence_round_trip rt defaults markup (fst w) (snd w) 1 _ s
                  "accordion-default-content-2" Hreach Hm Hs Hwf Hkey
                  ltac:(discriminate) ltac:(discriminate))
           eq_refl Hworks a1 () st2 () (snd again) (fst again) Hset Hstore Hnew Hworks').
Defined.

(** C5, as stated, fails: on the section without its content wrapper
    [setExpanded] returns at its guard, nothing is stored and the new
    instance has the section collapsed; and on a section whose key is the
    test string of the probe the state is stored, the probe of the new
    instance removes it, and the section is collapsed again. *)
Lemma round_trip_fails_outside_the_guard_and_on_the_probe_key :
  let rt := Scenario.noIntl "en" in
  let st := Scenario.emptyStorage 1000 in
  let markup := Scenario.secondWithoutContent in
  let w := Scenario.start rt defaults markup st in
  let a1 := fst (setExpanded rt true 1 (fst w)) in
  let st2 := fst (storeState 1 a1 (snd w)) in
  let again := Scenario.start rt defaults markup st2 in
  let markup' := Scenario.controlling testString in
  let w' := Scenario.start rt defaults markup' st in
  let a1' := fst (setExpanded rt true 0 (fst w')) in
  let st2' := fst (storeState 0 a1' (snd w')) in
  let again' := Scenario.start rt defaults markup' st2' in
  (rememberExpanded defaults = true
   /\ new rt defaults markup st = (snd w, Ok (Some (fst w)))
   /\ browserSupportsSessionStorage (fst w) = true
   /\ setExpanded rt true 1 (fst w) = (a1, Ok ())
   /\ storeState 1 a1 (snd w) = (st2, Ok ())
   /\ new rt defaults markup st2 = (snd again, Ok (Some (fst again)))
   /\ browserSupportsSessionStorage (fst again) = true
   /\ isExpanded <$> sections (fst again) !! 1%nat = Some false)
  /\ (new rt defaults markup' st = (snd w', Ok (Some (fst w')))
      /\ browserSupportsSessionStorage (fst w') = true
      /\ wellFormed <$> sections (fst w') !! 0%nat = Some true
      /\ setExpanded rt true 0 (fst w') = (a1', Ok ())
      /\ isExpanded <$> sections a1' !! 0%nat = Some true
      /\ storeState 0 a1' (snd w') = (st2', Ok ())
      /\ getItem testString st2' = Some "true"
      /\ new rt defaults markup' st2' = (snd again', Ok (Some (fst again')))
      /\ browserSupportsSessionStorage (fst again') = true
      /\ isExpanded <$> sections (fst again') !! 0%nat = Some false).
Proof.
  intros. split_and!; vm_compute; reflexivity.
Qed.

(** ** The beforematch event *)

(** C10: the beforematch handler calls [setExpanded(true, section)],
    which on a well-formed section expands it and recomputes the
    show-all control, and leaves the storage as it is; so a new instance
    over the same markup is the one the storage and the markup gave
    before the event, and a section that is collapsed in the markup and
    has no "true" stored is collapsed in it. *)
Theorem beforematch_is_not_persisted (rt : Runtime) (cfg : AccordionConfig)
    (markup : Markup) (a : Accordion) (st : Storage) (target : option nat)
    (w' : Accordion * Storage) (r : Result unit) :
  handle rt (BeforeMatch target) (a, st) = (w', r) ->
  snd w' = st
  /\ (forall idx, target = Some idx -> (fst w', r) = setExpanded rt true idx a)
  /\ (forall idx s u,
        target = Some idx -> sections a !! idx = Some s -> wellFormed s = true ->
        r = Ok u ->
        isExpanded <$> sections (fst w') !! idx = Some true
        /\ showAllAriaExpanded (fst w') = boolString (checkIfAllSectionsOpen (fst w')))
  /\ new rt cfg markup (snd w') = new rt cfg markup st
  /\ (forall idx m st3 b,
        target = Some idx ->
        markupSections markup !! idx = Some m ->
        markupExpanded m = false ->
        (forall key, ariaControls (enhanced (moduleId markup) idx m) = Some key ->
                     getItem key st <> Some "true") ->
        new rt cfg markup (snd w') = (st3, Ok (Some b)) ->
        isExpanded <$> sections b !! idx = Some false).
Proof.
  cbn. unfold onBeforeMatch. intros Hev.
  assert (Hst : snd w' = st).
  { destruct target as [idx|].
    - destruct (setExpanded rt true idx a). by injection Hev as <- _.
    - by injection Hev as <- _. }
  split; [exact Hst|]. split; [|split; [|split]].
  - intros idx ->. destruct (setExpanded rt true idx a). by injection Hev as <- <-.
  - intros idx s u -> Hs Hwf ->.
    destruct (setExpanded rt true idx a) as [a' r'] eqn:Hset.
    injection Hev as <- ->. cbn.
    destruct (setExpanded_ok_section rt true idx a a' s u Hs Hset)
      as (s' & Hs' & _ & _ & Hexp & _).
    destruct (setExpanded_ok rt true idx a a' s u Hs Hwf Hset)
      as (_ & _ & _ & _ & _ & _ & _ & Haria & _).
    split; [|exact Haria]. rewrite Hs'. cbn. by rewrite Hexp, Hwf.
  - by rewrite Hst.
  - intros idx m st3 b _ Hm Hcollapsed Hnot Hnew. rewrite Hst in Hnew.
    destruct (new_ok rt cfg markup st st3 b Hnew) as (Hst3 & _ & _ & Hb & _ & Hsecb & _).
    destruct (Hsecb idx m Hm) as (sb & Hsb & _ & _ & Hexp & _).
    rewrite Hsb. cbn. f_equal. rewrite Hexp. unfold initialState, storedState.
    destruct (wellFormed _); [|done].
    destruct (browserSupportsSessionStorage b) eqn:Hworks; [|done].
    destruct (rememberExpanded cfg); [|done]. cbn.
    destruct (ariaControls _) as [key|] eqn:Hkey; [|done].
    destruct (String.eqb key ""); [done|].
    destruct (decide (key = testString)) as [->|Hne].
    + rewrite Hst3, checkForSessionStorage_probe_removed by congruence. done.
    + rewrite Hst3, (checkForSessionStorage_other st key Hne).
      specialize (Hnot key eq_refl).
      destruct (getItem key st) as [state|]; [|done].
      destruct (String.eqb_spec state "true"); congruence.
Qed.

Lemma beforematch_is_not_persisted_witness :
  let rt := Scenario.noIntl "en" in
  let markup := Scenario.threeSections in
  let w := Scenario.start rt defaults markup (Scenario.emptyStorage 1000) in
  let ev := handle rt (BeforeMatch (Some 1%nat)) (fst w, snd w) in
  let again := Scenario.start rt defaults markup (snd (fst ev)) in
  snd (fst ev) = snd w
  /\ isExpanded <$> sections (fst (fst ev)) !! 1%nat = Some true
  /\ isExpanded <$> sections (fst again) !! 1%nat = Some false.
Proof.
  intros rt markup w ev again.
  assert (Hev : handle rt (BeforeMatch (Some 1%nat)) (fst w, snd w) = (fst ev, snd ev))
    by (vm_compute; reflexivity).
  assert (Hr : snd ev = Ok ()) by (vm_compute; reflexivity).
  assert (Hs : exists s, sections (fst w) !! 1%nat = Some s /\ wellFormed s = true).
  { vm_compute. eexists. split; reflexivity. }
  assert (Hm : markupSections markup !! 1%nat
               = Some (Scenario.sectionMarkup false "Writing well for specialists"
                         (Some "Understand your audience"))) by reflexivity.
  assert (Hnot : forall key,
            ariaControls (enhanced (moduleId markup) 1
              (Scenario.sectionMarkup false "Writing well for specialists"
                 (Some "Understand your audience"))) = Some key ->
            getItem key (snd w) <> Some "true").
  { intros key Hkey. vm_compute in Hkey. injection Hkey as <-. vm_compute. discriminate. }
  assert (Hnew : new rt defaults markup (snd (fst ev))
                 = (snd again, Ok (Some (fst again)))) by (vm_compute; reflexivity).
  clearbody again ev w rt.
  destruct Hs as (s & Hs & Hwf).
  destruct (beforematch_is_not_persisted rt defaults markup (fst w) (snd w)
              (Some 1%nat) (fst ev) (snd ev) Hev)
    as (Hst & _ & Hopen & _ & Hagain).
  split; [exact Hst|]. split.
  - exact (proj1 (Hopen 1%nat s () eq_refl Hs Hwf Hr)).
  - exact (Hagain 1%nat _ (snd again) (fst again) eq_refl Hm eq_refl Hnot Hnew).
Defined.

Lemma testString_has_no_dash (prefix rest : string) :
  prefix +:+ String "-" rest <> testString.
Proof.
  unfold testString. intros H.
  do 23 (destruct prefix as [|c prefix]; cbn in H;
         [discriminate|injection H as Hc H; clear Hc c]).
  destruct prefix; discriminate.
Qed.

(** The key [constructHeaderMarkup] gives a section whose span has no
    [aria-controls] attribute of its own is neither empty nor the probe's
    test string. *)
Lemma constructed_key (moduleId : string) (index : nat) (m : SectionMarkup)
    (h : Header) (sp : Span) :
  header m = Some h -> span h = Some sp -> heading h = true ->
  spanAttributes sp !! "aria-controls" = None ->
  let key := moduleId +:+ "-content-" +:+ pretty (index + 1)%nat in
  ariaControls (enhanced moduleId index m) = Some key
  /\ key <> "" /\ key <> testString.
Proof.
  intros Hh Hsp Hheading Hnone key. split; [|split].
  - unfold ariaControls, enhanced, constructedHeader.
    rewrite Hh, Hsp, Hheading. cbn.
    rewrite lookup_union_r by (by rewrite lookup_delete_ne).
    apply lookup_insert_eq.
  - subst key. destruct moduleId; discriminate.
  - subst key. apply testString_has_no_dash.
Qed.

(** * Further properties of the code *)

Import Markers Config Behaviour.

(** ** Messages that resolve *)

Lemma default_messages_resolve (rt : Runtime) :
  messagesResolve rt (I18n.construct rt (Some (i18nConfig defaults)) None).
Proof.
  intros key Hkey. unfold messageKeys in Hkey.
  repeat (apply elem_of_cons in Hkey as [->|Hkey]; [reflexivity|]).
  by apply elem_of_nil in Hkey.
Qed.

Lemma messagesResolve_ok (rt : Runtime) (i : Engine) (key : string) :
  messagesResolve rt i -> key ∈ messageKeys -> exists text, t rt i key None = Ok text.
Proof.
  intros Hres Hkey. specialize (Hres key Hkey).
  destruct (t rt i key None) as [text|e]; [by exists text|discriminate].
Qed.

Lemma messagesResolve_section (rt : Runtime) (i : Engine) (e : bool) :
  messagesResolve rt i ->
  exists txt msg,
    t rt i (if e then "hideSection" else "showSection") None = Ok txt
    /\ t rt i (if e then "hideSectionAriaLabel" else "showSectionAriaLabel") None = Ok msg.
Proof.
  intros Hres.
  destruct (messagesResolve_ok rt i (if e then "hideSection" else "showSection") Hres)
    as [txt Htxt]; [destruct e; unfold messageKeys; set_solver|].
  destruct (messagesResolve_ok rt i
              (if e then "hideSectionAriaLabel" else "showSectionAriaLabel") Hres)
    as [msg Hmsg]; [destruct e; unfold messageKeys; set_solver|].
  by exists txt, msg.
Qed.

Lemma messagesResolve_showAll (rt : Runtime) (i : Engine) (e : bool) :
  messagesResolve rt i ->
  exists text, t rt i (if e then "hideAllSections" else "showAllSections") None = Ok text.
Proof.
  intros Hres. apply messagesResolve_ok; [done|].
  destruct e; unfold messageKeys; set_solver.
Qed.

Lemma updateShowAllButton_resolves (rt : Runtime) (e : bool) (a : Accordion) :
  messagesResolve rt (i18n a) ->
  exists a', updateShowAllButton rt e a = (a', Ok ()).
Proof.
  intros Hres. destruct (messagesResolve_showAll rt (i18n a) e Hres) as [text Htext].
  unfold updateShowAllButton. rewrite Htext. by eexists.
Qed.

(** When the messages resolve, [setExpanded] returns. *)
Lemma setExpanded_resolves (rt : Runtime) (e : bool) (idx : nat) (a : Accordion) :
  messagesResolve rt (i18n a) ->
  exists a', setExpanded rt e idx a = (a', Ok ()).
Proof.
  intros Hres. destruct (sections a !! idx) as [s|] eqn:Hs.
  2:{ exists a. by apply setExpanded_missing. }
  destruct (wellFormed s) eqn:Hwf.
  2:{ exists a. by apply (setExpanded_malformed rt e idx a s). }
  destruct (wellFormed_button s Hwf) as [btn Hbtn].
  rewrite (setExpanded_wellFormed rt e idx a s btn Hs Hwf Hbtn).
  destruct (messagesResolve_section rt (i18n a) e Hres) as (txt & msg & -> & ->).
  cbn zeta. apply updateShowAllButton_resolves. exact Hres.
Qed.

Lemma setInitialState_resolves (rt : Runtime) (k : nat) (a : Accordion) (st : Storage) :
  messagesResolve rt (i18n a) ->
  exists a', setInitialState rt k a st = (a', Ok ()).
Proof.
  intros Hres. unfold setInitialState.
  destruct (_ && _); [|by eexists].
  destruct (sections a !! k ≫= button) as [btn|]; [|by eexists].
  destruct (btn !! "aria-controls") as [contentId|]; [|by eexists].
  destruct (String.eqb contentId ""); [by eexists|].
  destruct (getItem contentId st); [|by eexists].
  by apply setExpanded_resolves.
Qed.

Lemma initSectionHeader_resolves (rt : Runtime) (moduleId : string) (st : Storage)
    (k : nat) (m : SectionMarkup) (a : Accordion) :
  messagesResolve rt (i18n a) ->
  headerThrows m = false ->
  exists a', initSectionHeader rt moduleId st k m a = (a', Ok ()) /\ i18n a' = i18n a.
Proof.
  intros Hres Hfine. unfold initSectionHeader, headerThrows in *.
  destruct (header m) as [h|]; [|by eexists].
  cbn in Hfine. unfold constructHeaderMarkup. rewrite Hfine.
  set (a1 := withSections a _).
  destruct (setExpanded_resolves rt (default false (isExpanded <$> sections a1 !! k)) k a1)
    as [a2 Hset]; [exact Hres|].
  rewrite Hset.
  pose proof (setExpanded_frame rt _ k a1 a2 _ Hset) as (_ & Hi2 & _).
  change (i18n a1) with (i18n a) in Hi2.
  destruct (setInitialState_resolves rt k a2 st) as [a3 Hinit]; [by rewrite Hi2|].
  exists a3. split; [exact Hinit|].
  unfold setInitialState in Hinit.
  destruct (_ && _); [|injection Hinit as <-; exact Hi2].
  destruct (sections a2 !! k ≫= button) as [btn|]; [|injection Hinit as <-; exact Hi2].
  destruct (match btn !! "aria-controls" with Some _ => _ | None => _ end);
    [|injection Hinit as <-; exact Hi2].
  pose proof (setExpanded_frame rt _ k a2 a3 _ Hinit) as (_ & Hi3 & _). congruence.
Qed.

Lemma initSectionHeader_not_found (rt : Runtime) (moduleId : string) (st : Storage)
    (k : nat) (m : SectionMarkup) (a : Accordion) :
  headerThrows m = true ->
  initSectionHeader rt moduleId st k m a = (a, Throw NotFoundError).
Proof.
  unfold initSectionHeader, headerThrows. destruct (header m) as [h|]; [|discriminate].
  cbn. intros Hthrows. unfold constructHeaderMarkup. by rewrite Hthrows.
Qed.

Lemma initSectionHeaders_resolves (rt : Runtime) (moduleId : string) (st : Storage)
    (ms : list SectionMarkup) :
  forall (k : nat) (a : Accordion),
  messagesResolve rt (i18n a) ->
  if existsb headerThrows ms
  then exists a', initSectionHeaders rt moduleId st k ms a = (a', Throw NotFoundError)
  else exists a', initSectionHeaders rt moduleId st k ms a = (a', Ok ()) /\ i18n a' = i18n a.
Proof.
  induction ms as [|m rest IH]; intros k a Hres; cbn [existsb initSectionHeaders].
  - by exists a.
  - destruct (headerThrows m) eqn:Hm; cbn [orb].
    + rewrite (initSectionHeader_not_found rt moduleId st k m a Hm). by exists a.
    + destruct (initSectionHeader_resolves rt moduleId st k m a Hres Hm) as (a1 & -> & Hi1).
      specialize (IH (S k) a1). rewrite Hi1 in IH. specialize (IH Hres).
      destruct (existsb headerThrows rest); [exact IH|].
      destruct IH as (a' & -> & Hi'). by exists a'.
Qed.

(** X1: when the six messages of the component resolve, the constructor
    throws exactly when the page is marked as supported and the module has
    a section whose header has its button span and its heading, the span
    not being a child of the heading: then [removeChild] throws a
    [NotFoundError]. Otherwise the constructor returns: before the storage
    is probed and before any control or section is initialised when the
    page is not marked as supported or the module has no section, and
    with the component initialised in every other case. *)
Theorem constructor_returns_when_messages_resolve (rt : Runtime)
    (cfg : AccordionConfig) (markup : Markup) (st : Storage) :
  messagesResolve rt (I18n.construct rt (Some (i18nConfig cfg)) None) ->
  if negb (supported markup) || bool_decide (markupSections markup = [])
  then new rt cfg markup st = (st, Ok None)
  else if existsb headerThrows (markupSections markup)
  then new rt cfg markup st = (snd (checkForSessionStorage st), Throw NotFoundError)
  else exists a, new rt cfg markup st = (snd (checkForSessionStorage st), Ok (Some a)).
Proof.
  intros Hres. unfold new.
  destruct (supported markup); cbn [negb orb]; [|done].
  destruct (markupSections markup) as [|m0 ms0] eqn:Hms; [done|].
  rewrite bool_decide_eq_false_2 by done. rewrite <- Hms.
  destruct (checkForSessionStorage st) as [available st1]. cbn [snd].
  set (a0 := {| config := cfg; sections := sectionOfMarkup <$> markupSections markup |}).
  pose proof (initSectionHeaders_resolves rt (moduleId markup) st1 (markupSections markup)
                0%nat a0 Hres) as Hheaders.
  destruct (existsb headerThrows (markupSections markup)).
  - destruct Hheaders as [a1 ->]. done.
  - destruct Hheaders as (a1 & -> & Hi1).
    destruct (updateShowAllButton_resolves rt (checkIfAllSectionsOpen a1) a1)
      as [a2 ->]; [by rewrite Hi1|].
    by exists a2.
Qed.

Lemma storeState_throw (idx : nat) (a : Accordion) (st st' : Storage) (e : JsError) :
  storeState idx a st = (st', Throw e) ->
  e = QuotaExceededError /\ st' = st
  /\ browserSupportsSessionStorage a = true /\ rememberExpanded (config a) = true.
Proof.
  unfold storeState.
  destruct (browserSupportsSessionStorage a), (rememberExpanded (config a));
    cbn; try discriminate.
  destruct (sections a !! idx ≫= button) as [btn|]; [|discriminate].
  destruct (btn !! "aria-controls") as [contentId|]; [|discriminate].
  destruct (btn !! "aria-expanded") as [contentState|]; [|discriminate].
  destruct (_ && _); [|discriminate].
  destruct (setItem contentId contentState st) as [st1|e1] eqn:Hset; [discriminate|].
  intros [= <- <-]. by rewrite (setItem_throw _ _ _ _ Hset).
Qed.

Lemma showOrHideAll_throw (rt : Runtime) (e : bool) (idxs : list nat) :
  forall (a : Accordion) (st : Storage) (w' : Accordion * Storage) (err : JsError),
  messagesResolve rt (i18n a) ->
  showOrHideAll rt e idxs (a, st) = (w', Throw err) ->
  err = QuotaExceededError
  /\ browserSupportsSessionStorage a = true /\ rememberExpanded (config a) = true.
Proof.
  induction idxs as [|idx rest IH]; intros a st w' err Hres; cbn; [discriminate|].
  destruct (setExpanded_resolves rt e idx a Hres) as [a1 Hset]. rewrite Hset.
  pose proof (setExpanded_frame rt e idx a a1 _ Hset) as (Hc & Hi & Hb & _).
  destruct (storeState idx a1 st) as [st1 [u|err1]] eqn:Hstore.
  - intros Hrest. rewrite <- Hc, <- Hb. apply (IH a1 st1 w' err); [by rewrite Hi|done].
  - intros [= <- <-]. rewrite <- Hc, <- Hb.
    by destruct (storeState_throw idx a1 st st1 err1 Hstore) as (-> & _ & -> & ->).
Qed.

(** X2: when the messages resolve, an event handler throws nothing but
    the exception of the storage, and that only in a component that found
    the storage working and is configured to remember. *)
Theorem handlers_throw_only_storage_exceptions (rt : Runtime) (ev : Event)
    (w w' : Accordion * Storage) (e : JsError) :
  messagesResolve rt (i18n (fst w)) ->
  handle rt ev w = (w', Throw e) ->
  e = QuotaExceededError
  /\ browserSupportsSessionStorage (fst w) = true
  /\ rememberExpanded (config (fst w)) = true.
Proof.
  destruct w as [a st]. cbn [fst]. intros Hres. destruct ev as [idx| |target]; cbn.
  - unfold onSectionToggle.
    destruct (setExpanded_resolves rt
                (negb (default false (isExpanded <$> sections a !! idx))) idx a Hres)
      as [a1 Hset]. rewrite Hset.
    pose proof (setExpanded_frame rt _ idx a a1 _ Hset) as (Hc & _ & Hb & _).
    destruct (storeState idx a1 st) as [st1 r1] eqn:Hstore. intros [= <- ->].
    rewrite <- Hc, <- Hb.
    by destruct (storeState_throw idx a1 st st1 e Hstore) as (-> & _ & -> & ->).
  - unfold onShowOrHideAllToggle. cbn [fst].
    destruct (showOrHideAll rt _ _ (a, st)) as [[a1 st1] [u|err]] eqn:Hloop.
    + assert (Hi1 : i18n a1 = i18n a).
      { refine (showOrHideAll_keeps rt (fun x => i18n x = i18n a) _
                  _ _ (a, st) (a1, st1) _ eq_refl Hloop).
        intros e0 idx x x' r0 Hx Hset.
        pose proof (setExpanded_frame rt e0 idx x x' r0 Hset) as (_ & Hi & _).
        congruence. }
      destruct (updateShowAllButton_resolves rt
                  (negb (checkIfAllSectionsOpen a)) a1) as [a2 Hupd];
        [by rewrite Hi1|].
      rewrite Hupd. discriminate.
    + intros [= <- <-]. exact (showOrHideAll_throw rt _ _ a st _ err Hres Hloop).
  - unfold onBeforeMatch. destruct target as [idx|]; [|discriminate].
    destruct (setExpanded_resolves rt true idx a Hres) as [a1 ->]. discriminate.
Qed.

(** *** A property of each section the constructor establishes *)
Section Constructed.
Variable rt : Runtime.
Variable moduleId : string.
Variable st : Storage.
Variable i : Engine.
Variable Q : nat -> SectionMarkup -> Section -> Prop.
Hypothesis step_establishes :
  forall k m a a' u,
    i18n a = i ->
    sections a !! k = Some (sectionOfMarkup m) ->
    initSectionHeader rt moduleId st k m a = (a', Ok u) ->
    exists s', sections a' !! k = Some s' /\ Q k m s'.

Lemma initSectionHeaders_establishes (ms : list SectionMarkup) :
  forall (k : nat) (a a' : Accordion) (u : unit),
  i18n a = i ->
  (forall j m, ms !! j = Some m -> sections a !! (k + j)%nat = Some (sectionOfMarkup m)) ->
  initSectionHeaders rt moduleId st k ms a = (a', Ok u) ->
  forall j m, ms !! j = Some m ->
    exists s', sections a' !! (k + j)%nat = Some s' /\ Q (k + j) m s'.
Proof.
  induction ms as [|m rest IH]; intros k a a' u Hi Hraw; cbn.
  - intros _ j m Hm. by rewrite lookup_nil in Hm.
  - destruct (initSectionHeader rt moduleId st k m a) as [a1 [u1|err]] eqn:Hstep;
      [|intros [=]].
    intros Hrest.
    assert (Hk : sections a !! k = Some (sectionOfMarkup m)).
    { specialize (Hraw 0%nat m eq_refl). by rewrite Nat.add_0_r in Hraw. }
    destruct (initSectionHeader_ok rt moduleId st k m a a1 u1 Hk Hstep)
      as (_ & Hi1 & _ & _ & Ho1 & _).
    destruct (step_establishes k m a a1 u1 Hi Hk Hstep) as (s1 & Hs1 & HQ1).
    assert (Hraw1 : forall j m', rest !! j = Some m' ->
              sections a1 !! (S k + j)%nat = Some (sectionOfMarkup m')).
    { intros j m' Hm'. rewrite Ho1 by lia.
      specialize (Hraw (S j) m' Hm'). by rewrite Nat.add_succ_r in Hraw. }
    destruct (initSectionHeaders_ok rt moduleId st rest (S k) a1 a' u Hraw1 Hrest)
      as (_ & _ & _ & _ & Hbefore & _).
    intros [|j] m' Hm'.
    + injection Hm' as <-. rewrite Nat.add_0_r. exists s1.
      rewrite Hbefore by lia. done.
    + cbn in Hm'. rewrite Nat.add_succ_r.
      apply (IH (S k) a1 a' u); [congruence|exact Hraw1|exact Hrest|exact Hm'].
Qed.
End Constructed.

(** What [new] returns has, for every section of the markup, the
    property each step of [initSectionHeaders] establishes. *)
Lemma new_establishes (rt : Runtime) (cfg : AccordionConfig) (markup : Markup)
    (Q : nat -> SectionMarkup -> Section -> Prop) (st st' : Storage) (b : Accordion) :
  (forall k m a a' u,
     i18n a = I18n.construct rt (Some (i18nConfig cfg)) None ->
     sections a !! k = Some (sectionOfMarkup m) ->
     initSectionHeader rt (moduleId markup) (snd (checkForSessionStorage st)) k m a
     = (a', Ok u) ->
     exists s', sections a' !! k = Some s' /\ Q k m s') ->
  new rt cfg markup st = (st', Ok (Some b)) ->
  forall idx m, markupSections markup !! idx = Some m ->
    exists s, sections b !! idx = Some s /\ Q idx m s.
Proof.
  intros Hstep. unfold new. destruct (supported markup); cbn [negb]; [|intros [=]].
  destruct (markupSections markup) as [|m0 ms0] eqn:Hms; [intros [=]|].
  rewrite <- Hms. clear m0 ms0 Hms.
  destruct (checkForSessionStorage st) as [available st1] eqn:Hprobe.
  set (a0 := {| config := cfg; sections := sectionOfMarkup <$> markupSections markup |}).
  destruct (initSectionHeaders rt (moduleId markup) st1 0 (markupSections markup) a0)
    as [a1 [u1|err]] eqn:Hinit; [|intros [=]].
  destruct (updateShowAllButton rt (checkIfAllSectionsOpen a1) a1)
    as [a2 [u2|err]] eqn:Hupd; [|intros [=]].
  intros H. injection H as <- <-. intros idx m Hm.
  pose proof (updateShowAllButton_frame _ _ _ _ _ Hupd) as (-> & _).
  refine (initSectionHeaders_establishes rt (moduleId markup) st1 _ Q Hstep
            (markupSections markup) 0%nat a0 a1 u1 eq_refl _ Hinit idx m Hm).
  intros j m' Hm'. subst a0. cbn. by rewrite list_lookup_fmap, Hm'.
Qed.

Lemma new_showAllAgrees (rt : Runtime) (cfg : AccordionConfig) (markup : Markup)
    (st st' : Storage) (b : Accordion) :
  new rt cfg markup st = (st', Ok (Some b)) ->
  showAllAgrees rt b /\ markupSections markup <> [].
Proof.
  unfold new. destruct (supported markup); cbn [negb]; [|intros [=]].
  destruct (markupSections markup) as [|m0 ms0] eqn:Hms; [intros [=]|].
  rewrite <- Hms.
  destruct (checkForSessionStorage st) as [available st1] eqn:Hprobe.
  destruct (initSectionHeaders rt (moduleId markup) st1 0 (markupSections markup) _)
    as [a1 [u1|err]] eqn:Hinit; [|intros [=]].
  destruct (updateShowAllButton rt (checkIfAllSectionsOpen a1) a1)
    as [a2 [u2|err]] eqn:Hupd; [|intros [=]].
  intros H. injection H as <- <-. split; [|by rewrite Hms].
  pose proof (updateShowAllButton_frame _ _ _ _ _ Hupd) as (Hsec & _ & Hi & _).
  pose proof (updateShowAllButton_ok _ _ _ _ _ Hupd) as (H1 & H2 & H3).
  unfold showAllAgrees.
  rewrite (checkIfAllSectionsOpen_sections a1 a2 Hsec), Hi. done.
Qed.

(** ** Coherence of the attributes [setExpanded] writes *)

Lemma withExpanded_coherent (rt : Runtime) (i : Engine) (s : Section)
    (btn : gmap string string) (e : bool) (txt msg : string) :
  t rt i (if e then "hideSection" else "showSection") None = Ok txt ->
  coherent rt i (withExpanded s btn e txt msg).
Proof.
  intros Htxt. unfold coherent, ariaExpanded, isExpanded. cbn.
  rewrite lookup_insert_ne by done. rewrite lookup_insert_eq, Htxt. done.
Qed.

(** When [setExpanded] returns, the section it was called on is
    coherent if it is well-formed. *)
Lemma setExpanded_ok_coherent (rt : Runtime) (e : bool) (idx : nat) (a a' : Accordion)
    (s : Section) (u : unit) :
  sections a !! idx = Some s ->
  setExpanded rt e idx a = (a', Ok u) ->
  exists s', sections a' !! idx = Some s'
    /\ (wellFormed s' = true -> coherent rt (i18n a) s').
Proof.
  intros Hs Hset. destruct (wellFormed s) eqn:Hwf.
  - destruct (setExpanded_ok rt e idx a a' s u Hs Hwf Hset)
      as (btn & txt & msg & _ & Htxt & _ & Hsec & _).
    exists (withExpanded s btn e txt msg). split.
    + rewrite Hsec. apply list_lookup_insert_eq. by eapply lookup_lt_Some.
    + intros _. by apply withExpanded_coherent.
  - rewrite (setExpanded_malformed rt e idx a s Hs Hwf) in Hset. injection Hset as <-.
    exists s. split; [done|congruence].
Qed.

Lemma setExpanded_keeps_coherent (rt : Runtime) (e : bool) (idx : nat)
    (a a' : Accordion) (r : Result unit) :
  messagesResolve rt (i18n a)
  /\ (forall j s, sections a !! j = Some s -> wellFormed s = true ->
        coherent rt (i18n a) s) ->
  setExpanded rt e idx a = (a', r) ->
  messagesResolve rt (i18n a')
  /\ (forall j s, sections a' !! j = Some s -> wellFormed s = true ->
        coherent rt (i18n a') s).
Proof.
  intros [Hres Hcoh] Hset.
  pose proof (setExpanded_frame rt e idx a a' r Hset) as (_ & Hi & _ & _ & Hother & _).
  rewrite Hi. split; [exact Hres|]. intros j s' Hj Hwf'.
  destruct (decide (j = idx)) as [->|Hne].
  - destruct (setExpanded_resolves rt e idx a Hres) as [a'' Hok].
    rewrite Hok in Hset. injection Hset as -> <-.
    destruct (sections a !! idx) as [s|] eqn:Hs.
    + destruct (setExpanded_ok_coherent rt e idx a a' s () Hs Hok) as (s'' & Hs'' & Hc).
      rewrite Hj in Hs''. injection Hs'' as <-. by apply Hc.
    + rewrite (setExpanded_missing rt e idx a Hs) in Hok. injection Hok as <-.
      congruence.
  - rewrite (Hother j Hne) in Hj. by apply (Hcoh j).
Qed.

Lemma initSectionHeader_coherent (rt : Runtime) (moduleId : string) (st : Storage)
    (k : nat) (m : SectionMarkup) (a a' : Accordion) (u : unit) :
  sections a !! k = Some (sectionOfMarkup m) ->
  initSectionHeader rt moduleId st k m a = (a', Ok u) ->
  exists s', sections a' !! k = Some s'
    /\ (wellFormed s' = true -> coherent rt (i18n a) s').
Proof.
  intros Hraw. unfold initSectionHeader. destruct (header m) as [h|].
  2:{ intros H. injection H as <-. exists (sectionOfMarkup m). split; [done|].
      by rewrite sectionOfMarkup_malformed. }
  unfold constructHeaderMarkup. destruct (removeChildThrows h); [intros [=]|].
  set (a1 := withSections a _).
  assert (H1 : exists s1, sections a1 !! k = Some s1).
  { subst a1. cbn. rewrite list_lookup_alter_eq, Hraw. by eexists. }
  destruct H1 as [s1 H1].
  destruct (setExpanded rt _ k a1) as [a2 [u2|err]] eqn:Hset; [|intros [=]].
  destruct (setExpanded_ok_coherent rt _ k a1 a2 s1 u2 H1 Hset) as (s2 & Hs2 & Hc2).
  pose proof (setExpanded_frame rt _ k a1 a2 _ Hset) as (_ & Hi2 & _).
  change (i18n a1) with (i18n a) in *.
  unfold setInitialState.
  destruct (_ && _); [|intros H; injection H as <-; by exists s2].
  destruct (sections a2 !! k ≫= button) as [btn|];
    [|intros H; injection H as <-; by exists s2].
  destruct (match btn !! "aria-controls" with Some _ => _ | None => _ end) as [state|];
    [|intros H; injection H as <-; by exists s2].
  intros Hset'.
  destruct (setExpanded_ok_coherent rt _ k a2 a' s2 u Hs2 Hset') as (s3 & Hs3 & Hc3).
  exists s3. split; [done|]. by rewrite <- Hi2.
Qed.

(** X3: when the six messages of the component resolve, in every state
    the component reaches a section that passes the guard of
    [setExpanded] (its icon, its toggle text, its button and its content
    wrapper are all found) shows one state everywhere: [aria-expanded],
    the [hidden] attribute of the content, the direction of the chevron
    and the text of the toggle all follow the expanded class of the
    section. *)
Theorem well_formed_sections_stay_coherent (rt : Runtime) (cfg : AccordionConfig)
    (markup : Markup) (w : Accordion * Storage) :
  messagesResolve rt (I18n.construct rt (Some (i18nConfig cfg)) None) ->
  reachable rt cfg markup w ->
  forall idx s, sections (fst w) !! idx = Some s -> wellFormed s = true ->
    coherent rt (i18n (fst w)) s.
Proof.
  intros Hres Hreach.
  enough (H : messagesResolve rt (i18n (fst w))
              /\ (forall j s, sections (fst w) !! j = Some s -> wellFormed s = true ->
                    coherent rt (i18n (fst w)) s)) by apply H.
  induction Hreach as [st st' a Hnew|w ev w' r _ IH Hev|a st st' _ IH].
  - destruct (new_ok rt cfg markup st st' a Hnew) as (_ & _ & Hi & _ & Hl & _).
    cbn. rewrite Hi. split; [exact Hres|]. intros j s Hj Hwf.
    assert (Hlt : (j < length (markupSections markup))%nat).
    { rewrite <- Hl. by eapply lookup_lt_Some. }
    destruct (lookup_lt_is_Some_2 _ _ Hlt) as [m Hm].
    destruct (new_establishes rt cfg markup
                (fun _ _ s' => wellFormed s' = true ->
                   coherent rt (I18n.construct rt (Some (i18nConfig cfg)) None) s')
                st st' a) with (idx := j) (m := m) as (s' & Hs' & Hc); try done.
    + intros k m' x x' u Hix Hraw Hstep. rewrite <- Hix.
      by apply (initSectionHeader_coherent rt _ _ k m' x x' u Hraw Hstep).
    + rewrite Hj in Hs'. injection Hs' as <-. by apply Hc.
  - refine (handle_keeps rt
              (fun x => messagesResolve rt (i18n x)
                 /\ (forall j s, sections x !! j = Some s -> wellFormed s = true ->
                       coherent rt (i18n x) s)) _ _ ev w w' r IH Hev).
    + intros e idx a a' r'. apply setExpanded_keeps_coherent.
    + intros e a a' r' [Hr Hc] Hupd.
      apply updateShowAllButton_frame in Hupd as (-> & _ & -> & _). done.
  - exact IH.
Qed.

(** ** The show-all control in the reachable states *)

Lemma setExpanded_keeps_showAll (rt : Runtime) (e : bool) (idx : nat)
    (a a' : Accordion) (r : Result unit) :
  messagesResolve rt (i18n a) /\ showAllAgrees rt a ->
  setExpanded rt e idx a = (a', r) ->
  messagesResolve rt (i18n a') /\ showAllAgrees rt a'.
Proof.
  intros [Hres Hagree] Hset.
  pose proof (setExpanded_frame rt e idx a a' r Hset) as (_ & Hi & _).
  rewrite Hi. split; [exact Hres|].
  destruct (setExpanded_resolves rt e idx a Hres) as [a'' Hok].
  rewrite Hok in Hset. injection Hset as -> <-.
  destruct (sections a !! idx) as [s|] eqn:Hs.
  2:{ rewrite (setExpanded_missing rt e idx a Hs) in Hok. by injection Hok as <-. }
  destruct (wellFormed s) eqn:Hwf.
  2:{ rewrite (setExpanded_malformed rt e idx a s Hs Hwf) in Hok. by injection Hok as <-. }
  destruct (setExpanded_ok rt e idx a a' s () Hs Hwf Hok)
    as (_ & _ & _ & _ & _ & _ & _ & H1 & H2 & H3).
  unfold showAllAgrees. by rewrite Hi.
Qed.

Lemma reachable_markup_nonempty (rt : Runtime) (cfg : AccordionConfig)
    (markup : Markup) (w : Accordion * Storage) :
  reachable rt cfg markup w -> markupSections markup <> [].
Proof.
  induction 1 as [st st' a Hnew| |]; [|done..].
  by destruct (new_showAllAgrees rt cfg markup st st' a Hnew).
Qed.

Lemma builtOver_allWellFormed (rt : Runtime) (cfg : AccordionConfig) (markup : Markup)
    (a a' : Accordion) :
  builtOver rt cfg markup a -> builtOver rt cfg markup a' ->
  allWellFormed a' -> allWellFormed a.
Proof.
  intros (_ & _ & Hl & Hsec) (_ & _ & _ & Hsec') Hall idx s Hs.
  assert (Hlt : (idx < length (markupSections markup))%nat).
  { rewrite <- Hl. by eapply lookup_lt_Some. }
  destruct (lookup_lt_is_Some_2 _ _ Hlt) as [m Hm].
  destruct (Hsec idx m Hm) as (s0 & Hs0 & Hwf0 & _).
  destruct (Hsec' idx m Hm) as (s1 & Hs1 & Hwf1 & _).
  rewrite Hs in Hs0. injection Hs0 as <-.
  rewrite Hwf0, <- Hwf1. by apply (Hall idx s1).
Qed.

(** X4: when the six messages of the component resolve, in every state
    the component reaches in which every section passes the guard of
    [setExpanded], the show-all control says whether all sections are
    open: its [aria-expanded], its chevron and its text. *)
Theorem show_all_agrees_in_reachable_states (rt : Runtime) (cfg : AccordionConfig)
    (markup : Markup) (w : Accordion * Storage) :
  messagesResolve rt (I18n.construct rt (Some (i18nConfig cfg)) None) ->
  reachable rt cfg markup w ->
  allWellFormed (fst w) ->
  showAllAgrees rt (fst w).
Proof.
  intros Hres Hreach.
  enough (H : messagesResolve rt (i18n (fst w))
              /\ (allWellFormed (fst w) -> showAllAgrees rt (fst w))) by apply H.
  induction Hreach as [st st' a Hnew|w ev w' r Hreach IH Hev|a st st' _ IH].
  - destruct (new_ok rt cfg markup st st' a Hnew) as (_ & _ & Hi & _).
    cbn. rewrite Hi. split; [exact Hres|]. intros _.
    by destruct (new_showAllAgrees rt cfg markup st st' a Hnew).
  - destruct IH as [Hresw IH].
    pose proof (reachable_invariants rt cfg markup w Hreach) as [Hbuilt _].
    pose proof (reachable_invariants rt cfg markup w'
                  (reachable_handle rt cfg markup w ev w' r Hreach Hev)) as [Hbuilt' _].
    assert (Hi' : i18n (fst w') = i18n (fst w)).
    { destruct Hbuilt as (_ & -> & _), Hbuilt' as (_ & -> & _). done. }
    rewrite Hi'. split; [exact Hresw|]. intros Hall'.
    pose proof (builtOver_allWellFormed rt cfg markup _ _ Hbuilt Hbuilt' Hall') as Hall.
    specialize (IH Hall).
    destruct ev as [idx| |target].
    + exact (proj2 (onSectionToggle_keeps rt
               (fun x => messagesResolve rt (i18n x) /\ showAllAgrees rt x)
               (setExpanded_keeps_showAll rt) idx w w' r (conj Hresw IH) Hev)).
    + destruct w as [a st]. cbn in Hev, Hresw, IH, Hall, Hbuilt.
      unfold onShowOrHideAllToggle in Hev. cbn [fst] in Hev.
      set (e := negb (checkIfAllSectionsOpen a)) in Hev.
      destruct (showOrHideAll rt e _ (a, st)) as [[a1 st1] [u|err]] eqn:Hloop.
      * pose proof (showOrHideAll_keeps rt
               (fun x => messagesResolve rt (i18n x) /\ showAllAgrees rt x)
               (setExpanded_keeps_showAll rt) e _ (a, st) (a1, st1) _
               (conj Hresw IH) Hloop) as [Hres1 _]. cbn in Hres1.
        destruct (showOrHideAll_ok rt e _ a st a1 st1 u Hall Hloop) as (_ & Hlen & Hexp).
        destruct (updateShowAllButton rt e a1) as [a2 r2] eqn:Hupd.
        injection Hev as <- <-. cbn.
        destruct (updateShowAllButton_resolves rt e a1 Hres1) as [a2' Hok].
        rewrite Hok in Hupd. injection Hupd as <- <-.
        pose proof (updateShowAllButton_frame _ _ _ _ _ Hok) as (Hsec & _ & Hi2 & _).
        pose proof (updateShowAllButton_ok _ _ _ _ _ Hok) as (H1 & H2 & H3).
        assert (Hcheck : checkIfAllSectionsOpen a2' = e).
        { assert (Hall2 : forall s, s ∈ sections a2' -> isExpanded s = e).
          { intros s Hin. rewrite Hsec in Hin.
            apply list_elem_of_lookup in Hin as [j Hj]. apply (Hexp j s Hj). left.
            apply elem_of_seq. split; [lia|]. cbn. rewrite <- Hlen.
            by eapply lookup_lt_Some. }
          destruct e.
          - by apply checkIfAllSectionsOpen_true.
          - apply checkIfAllSectionsOpen_none; [|done].
            rewrite Hsec. intros Hnil.
            destruct Hbuilt as (_ & _ & Hl & _).
            rewrite <- Hlen, Hnil in Hl.
            pose proof (reachable_markup_nonempty rt cfg markup _ Hreach) as Hne.
            destruct (markupSections markup); [done|discriminate]. }
        unfold showAllAgrees. rewrite Hcheck, Hi2. done.
      * injection Hev as <- <-.
        exact (proj2 (showOrHideAll_keeps rt
               (fun x => messagesResolve rt (i18n x) /\ showAllAgrees rt x)
               (setExpanded_keeps_showAll rt) e _ (a, st) (a1, st1) _
               (conj Hresw IH) Hloop)).
    + cbn in Hev. unfold onBeforeMatch in Hev. destruct target as [idx|].
      * destruct (setExpanded rt true idx (fst w)) as [a' r'] eqn:Hset.
        injection Hev as <- <-. cbn.
        exact (proj2 (setExpanded_keeps_showAll rt true idx _ a' r' (conj Hresw IH) Hset)).
      * by injection Hev as <- <-.
  - exact IH.
Qed.

(** ** Sections that fail the guard *)

Lemma initSectionHeader_malformed (rt : Runtime) (moduleId : string) (st : Storage)
    (k : nat) (m : SectionMarkup) (a a' : Accordion) (u : unit) :
  sections a !! k = Some (sectionOfMarkup m) ->
  initSectionHeader rt moduleId st k m a = (a', Ok u) ->
  exists s', sections a' !! k = Some s'
    /\ (wellFormed (enhanced moduleId k m) = false -> s' = enhanced moduleId k m).
Proof.
  intros Hraw Hstep.
  destruct (initSectionHeader_ok rt moduleId st k m a a' u Hraw Hstep)
    as (_ & _ & _ & _ & _ & s' & Hs' & _).
  exists s'. split; [exact Hs'|]. intros Hwf.
  revert Hstep. unfold initSectionHeader, enhanced in *.
  destruct (header m) as [h|].
  2:{ intros H. injection H as <-. congruence. }
  unfold constructHeaderMarkup. destruct (removeChildThrows h); [intros [=]|].
  set (enh := constructedHeader moduleId h k (sectionOfMarkup m)) in *.
  set (a1 := withSections a _).
  assert (H1 : sections a1 !! k = Some enh).
  { subst a1. cbn. by rewrite list_lookup_alter_eq, Hraw. }
  rewrite (setExpanded_malformed rt _ k a1 enh H1 Hwf).
  rewrite (setInitialState_spec rt k a1 st enh H1).
  destruct (storedState _ _ st enh) as [state|].
  - rewrite (setExpanded_malformed rt _ k a1 enh H1 Hwf).
    intros H. injection H as <-. congruence.
  - intros H. injection H as <-. congruence.
Qed.

(** X5: a section that lacks its button or its content after the
    constructor's pass stays as that pass left it in every state the
    component reaches: [setExpanded] returns without a change, and a click
    on it leaves the whole component as it is. *)
Theorem malformed_section_is_never_modified (rt : Runtime) (cfg : AccordionConfig)
    (markup : Markup) (w : Accordion * Storage) (idx : nat) (m : SectionMarkup) :
  reachable rt cfg markup w ->
  markupSections markup !! idx = Some m ->
  wellFormed (enhanced (moduleId markup) idx m) = false ->
  sections (fst w) !! idx = Some (enhanced (moduleId markup) idx m)
  /\ (forall e, setExpanded rt e idx (fst w) = (fst w, Ok ()))
  /\ (forall w' r, onSectionToggle rt idx w = (w', r) -> fst w' = fst w).
Proof.
  intros Hreach Hm Hwf.
  assert (Hsame : sections (fst w) !! idx = Some (enhanced (moduleId markup) idx m)).
  { induction Hreach as [st st' a Hnew|w ev w' r _ IH Hev|a st st' _ IH].
    - destruct (new_establishes rt cfg markup
                  (fun k m' s' => wellFormed (enhanced (moduleId markup) k m') = false ->
                     s' = enhanced (moduleId markup) k m')
                  st st' a) with (idx := idx) (m := m) as (s' & Hs' & Heq); try done.
      + intros k m' x x' u _ Hraw Hstep.
        exact (initSectionHeader_malformed rt _ _ k m' x x' u Hraw Hstep).
      + cbn. by rewrite Hs', (Heq Hwf).
    - refine (handle_keeps rt
                (fun x => sections x !! idx = Some (enhanced (moduleId markup) idx m))
                _ _ ev w w' r IH Hev).
      + intros e j a a' r' Ha Hset. destruct (decide (idx = j)) as [<-|Hne].
        * rewrite (setExpanded_malformed rt e idx a _ Ha Hwf) in Hset.
          by injection Hset as <-.
        * pose proof (setExpanded_frame rt e j a a' r' Hset) as (_ & _ & _ & _ & Ho & _).
          by rewrite Ho.
      + intros e a a' r' Ha Hupd.
        by apply updateShowAllButton_frame in Hupd as (-> & _).
    - exact IH. }
  split; [exact Hsame|]. split.
  - intros e. by apply (setExpanded_malformed rt e idx (fst w) _ Hsame).
  - intros w' r Htoggle.
    pose proof (onSectionToggle_accordion rt idx (fst w) (snd w)) as Hacc.
    rewrite <- surjective_pairing, Htoggle in Hacc. cbn in Hacc. rewrite Hacc.
    by rewrite (setExpanded_malformed rt _ idx (fst w) _ Hsame Hwf).
Qed.

(** ** Storage keys and what the handlers store *)

(** X6: the content ids the constructor builds from the module id and the
    position, which are the storage keys, differ between two sections of
    one module. *)
Theorem constructed_keys_are_distinct (moduleId : string) (idx idx' : nat)
    (m m' : SectionMarkup) (h h' : Header) (sp sp' : Span) :
  header m = Some h -> span h = Some sp -> heading h = true ->
  spanAttributes sp !! "aria-controls" = None ->
  header m' = Some h' -> span h' = Some sp' -> heading h' = true ->
  spanAttributes sp' !! "aria-controls" = None ->
  idx <> idx' ->
  ariaControls (enhanced moduleId idx m) <> ariaControls (enhanced moduleId idx' m').
Proof.
  intros Hh Hsp Hhe Hnone Hh' Hsp' Hhe' Hnone' Hne.
  destruct (constructed_key moduleId idx m h sp Hh Hsp Hhe Hnone) as (-> & _).
  destruct (constructed_key moduleId idx' m' h' sp' Hh' Hsp' Hhe' Hnone') as (-> & _).
  intros Heq. injection Heq as Heq.
  apply String.app_inj in Heq. apply (String.app_inj "-content-") in Heq.
  apply pretty_nat_inj in Heq. lia.
Qed.

Lemma storeState_frame (idx : nat) (a : Accordion) (st st' : Storage) (r : Result unit) :
  storeState idx a st = (st', r) ->
  quota st' = quota st
  /\ (forall key, ariaControls <$> sections a !! idx <> Some (Some key) ->
        getItem key st' = getItem key st).
Proof.
  unfold storeState, ariaControls.
  destruct (_ && _); [|by intros [= <- <-]].
  destruct (sections a !! idx) as [s|]; [|by intros [= <- <-]]. cbn.
  destruct (button s) as [btn|]; [|by intros [= <- <-]]. cbn.
  destruct (btn !! "aria-controls") as [contentId|]; [|by intros [= <- <-]].
  destruct (btn !! "aria-expanded") as [contentState|]; [|by intros [= <- <-]].
  destruct (_ && _); [|by intros [= <- <-]].
  unfold setItem. destruct (_ <=? _)%nat; intros [= <- <-]; [|done].
  split; [done|]. intros key Hkey. unfold getItem. cbn.
  apply lookup_insert_ne. congruence.
Qed.

(** X7: a click on a section changes no entry of the storage but the one
    under the content id of that section, and not the quota. *)
Theorem section_toggle_writes_only_its_key (rt : Runtime) (idx : nat) (a : Accordion)
    (st : Storage) (w' : Accordion * Storage) (r : Result unit) :
  onSectionToggle rt idx (a, st) = (w', r) ->
  quota (snd w') = quota st
  /\ (forall key, ariaControls <$> sections a !! idx <> Some (Some key) ->
        getItem key (snd w') = getItem key st).
Proof.
  unfold onSectionToggle.
  destruct (setExpanded rt _ idx a) as [a1 [u|err]] eqn:Hset.
  - destruct (storeState idx a1 st) as [st1 r1] eqn:Hstore. intros [= <- <-]. cbn.
    pose proof (setExpanded_frame rt _ idx a a1 _ Hset) as (_ & _ & _ & _ & _ & _ & Hkey).
    destruct (storeState_frame idx a1 st st1 r1 Hstore) as [Hq Hother].
    split; [exact Hq|]. intros key Hne. apply Hother. by rewrite Hkey.
  - intros [= <- <-]. done.
Qed.

Lemma storeState_after_setExpanded (rt : Runtime) (e : bool) (idx : nat)
    (a a1 : Accordion) (st : Storage) (s : Section) (key : string) (u : unit) :
  sections a !! idx = Some s -> wellFormed s = true ->
  ariaControls s = Some key -> key <> "" ->
  browserSupportsSessionStorage a = true -> rememberExpanded (config a) = true ->
  setExpanded rt e idx a = (a1, Ok u) ->
  storeState idx a1 st =
    match setItem key (boolString e) st with
    | Ok st' => (st', Ok ())
    | Throw err => (st, Throw err)
    end.
Proof.
  intros Hs Hwf Hkey Hne Hb Hr Hset.
  destruct (setExpanded_ok rt e idx a a1 s u Hs Hwf Hset)
    as (btn & txt & msg & Hbtn & _ & _ & Hsec & _).
  pose proof (setExpanded_frame rt e idx a a1 _ Hset) as (Hc1 & _ & Hb1 & _).
  apply (storeState_write idx a1 st (withExpanded s btn e txt msg)
           (<["aria-label" := join " , " (ariaLabelParts s ++ [msg])]>
              (<["aria-expanded" := boolString e]> btn))).
  - congruence.
  - congruence.
  - rewrite Hsec. apply list_lookup_insert_eq. by eapply lookup_lt_Some.
  - reflexivity.
  - rewrite !lookup_insert_ne by done. unfold ariaControls in Hkey.
    by rewrite Hbtn in Hkey.
  - rewrite lookup_insert_ne by done. apply lookup_insert_eq.
  - done.
  - by destruct e.
Qed.

(** X8: in a component that found the storage working and is configured
    to remember, a click that returns on a section that passes the guard
    of [setExpanded] (icon, toggle text, button and content wrapper all
    found) and whose button has a non-empty [aria-controls] flips the
    section and leaves its new state, as the text "true" or "false", in
    the storage under that [aria-controls]. *)
Theorem section_toggle_stores_the_new_state (rt : Runtime) (idx : nat) (a a' : Accordion)
    (st st' : Storage) (s : Section) (key : string) (u : unit) :
  sections a !! idx = Some s -> wellFormed s = true ->
  ariaControls s = Some key -> key <> "" ->
  browserSupportsSessionStorage a = true -> rememberExpanded (config a) = true ->
  onSectionToggle rt idx (a, st) = ((a', st'), Ok u) ->
  isExpanded <$> sections a' !! idx = Some (negb (isExpanded s))
  /\ getItem key st' = Some (boolString (negb (isExpanded s))).
Proof.
  intros Hs Hwf Hkey Hne Hb Hr. unfold onSectionToggle. rewrite Hs. cbn.
  destruct (setExpanded rt (negb (isExpanded s)) idx a) as [a1 [u1|err]] eqn:Hset;
    [|intros [=]].
  rewrite (storeState_after_setExpanded rt _ idx a a1 st s key u1
             Hs Hwf Hkey Hne Hb Hr Hset).
  destruct (setItem key _ st) as [st1|err] eqn:Hwrite; [|intros [=]].
  intros [= <- <-].
  destruct (setExpanded_ok_section rt _ idx a a1 s u1 Hs Hset)
    as (s1 & Hs1 & _ & _ & Hexp & _).
  split.
  - rewrite Hs1. cbn. by rewrite Hexp, Hwf.
  - by apply (setItem_ok _ _ _ _ Hwrite).
Qed.

(** ** The show-all toggle and the storage *)

Lemma showOrHideAll_stores (rt : Runtime) (e : bool) (idxs : list nat) :
  forall (a : Accordion) (st : Storage) (a' : Accordion) (st' : Storage) (u : unit),
  allWellFormed a ->
  browserSupportsSessionStorage a = true -> rememberExpanded (config a) = true ->
  (forall j s, sections a !! j = Some s ->
     exists key, ariaControls s = Some key /\ key <> "") ->
  showOrHideAll rt e idxs (a, st) = ((a', st'), Ok u) ->
  (forall key, getItem key st = Some (boolString e) ->
     getItem key st' = Some (boolString e))
  /\ (forall j s key, j ∈ idxs -> sections a !! j = Some s ->
        ariaControls s = Some key -> getItem key st' = Some (boolString e)).
Proof.
  induction idxs as [|idx rest IH]; intros a st a' st' u Hall Hb Hr Hkeys; cbn.
  - intros H. injection H as <- <-. split; [done|].
    intros j s key Hin. by apply elem_of_nil in Hin.
  - destruct (setExpanded rt e idx a) as [a1 [u1|err]] eqn:Hset; [|intros [=]].
    pose proof (setExpanded_frame rt e idx a a1 _ Hset)
      as (Hc1 & _ & Hb1 & Hl1 & Ho1 & _ & Hk1).
    pose proof (setExpanded_allWellFormed rt e idx a a1 _ Hall Hset) as Hall1.
    assert (Hkeys1 : forall j s, sections a1 !! j = Some s ->
              ariaControls <$> sections a !! j = Some (ariaControls s)).
    { intros j s Hj. destruct (decide (j = idx)) as [->|Hne].
      - by rewrite <- Hk1, Hj.
      - by rewrite <- (Ho1 j Hne), Hj. }
    assert (Hstep : forall key, getItem key st = Some (boolString e) ->
              forall st1 u2, storeState idx a1 st = (st1, Ok u2) ->
              getItem key st1 = Some (boolString e)).
    { intros key Hkey st1 u2 Hstore.
      destruct (sections a !! idx) as [s|] eqn:Hs.
      - destruct (Hkeys idx s Hs) as (k & Hk & Hne).
        rewrite (storeState_after_setExpanded rt e idx a a1 st s k u1
                   Hs (Hall idx s Hs) Hk Hne Hb Hr Hset) in Hstore.
        destruct (setItem k (boolString e) st) as [st2|err] eqn:Hwrite; [|discriminate].
        injection Hstore as <-. destruct (setItem_ok _ _ _ _ Hwrite) as [Hsame Hother].
        destruct (decide (key = k)) as [->|Hkk]; [done|]. by rewrite Hother.
      - destruct (storeState_frame idx a1 st st1 _ Hstore) as [_ Hother].
        rewrite Hother; [done|].
        assert (Hnone : sections a1 !! idx = None).
        { apply lookup_ge_None. rewrite Hl1. by apply lookup_ge_None. }
        by rewrite Hnone. }
    destruct (storeState idx a1 st) as [st1 [u2|err]] eqn:Hstore; [|intros [=]].
    intros Hrest.
    destruct (IH a1 st1 a' st' u Hall1) as [Hkeep Hvisited]; try congruence.
    { intros j s Hj. pose proof (Hkeys1 j s Hj) as Hk.
      destruct (sections a !! j) as [s0|] eqn:Hs0; [|discriminate].
      injection Hk as Hk. rewrite <- Hk. by apply (Hkeys j s0). }
    split.
    + intros key Hkey. apply Hkeep. by apply (Hstep key Hkey st1 u2).
    + intros j s key Hin Hs Hkey.
      apply elem_of_cons in Hin as [->|Hin].
      * apply Hkeep.
        destruct (Hkeys idx s Hs) as (k & Hk & Hne).
        assert (k = key) as -> by congruence.
        rewrite (storeState_after_setExpanded rt e idx a a1 st s key u1
                   Hs (Hall idx s Hs) Hk Hne Hb Hr Hset) in Hstore.
        destruct (setItem key (boolString e) st) as [st2|err] eqn:Hwrite; [|discriminate].
        injection Hstore as <-. by apply (setItem_ok _ _ _ _ Hwrite).
      * assert (Hlt : (j < length (sections a1))%nat).
        { rewrite Hl1. by eapply lookup_lt_Some. }
        destruct (lookup_lt_is_Some_2 _ _ Hlt) as [s1 Hs1].
        apply (Hvisited j s1 key Hin Hs1).
        pose proof (Hkeys1 j s1 Hs1) as Hk. rewrite Hs in Hk. cbn in Hk. congruence.
Qed.

(** X9: in a component that found the storage working and is configured
    to remember, all of whose sections pass the guard of [setExpanded] and
    have a button with a non-empty [aria-controls], a click on the
    show-all button that returns sets every section to the negation of
    "all are open" and stores that state under the [aria-controls] of
    every section. *)
Theorem show_all_toggle_stores_every_section (rt : Runtime) (a a' : Accordion)
    (st st' : Storage) (u : unit) :
  allWellFormed a ->
  browserSupportsSessionStorage a = true -> rememberExpanded (config a) = true ->
  (forall j s, sections a !! j = Some s ->
     exists key, ariaControls s = Some key /\ key <> "") ->
  onShowOrHideAllToggle rt (a, st) = ((a', st'), Ok u) ->
  forall j s key, sections a !! j = Some s -> ariaControls s = Some key ->
    getItem key st' = Some (boolString (negb (checkIfAllSectionsOpen a)))
    /\ isExpanded <$> sections a' !! j = Some (negb (checkIfAllSectionsOpen a)).
Proof.
  intros Hall Hb Hr Hkeys. unfold onShowOrHideAllToggle. cbn [fst].
  set (e := negb (checkIfAllSectionsOpen a)).
  destruct (showOrHideAll rt e _ (a, st)) as [[a1 st1] [u1|err]] eqn:Hloop; [|intros [=]].
  destruct (updateShowAllButton rt e a1) as [a2 r2] eqn:Hupd.
  intros H. injection H as -> -> ->. intros j s key Hs Hkey.
  destruct (showOrHideAll_stores rt e _ a st a1 st' u1 Hall Hb Hr Hkeys Hloop)
    as [_ Hvisited].
  destruct (showOrHideAll_ok rt e _ a st a1 st' u1 Hall Hloop) as (_ & Hlen & Hexp).
  pose proof (updateShowAllButton_frame _ _ _ _ _ Hupd) as (Hsec & _).
  assert (Hin : j ∈ seq 0 (length (sections a))).
  { apply elem_of_seq. split; [lia|]. cbn. by eapply lookup_lt_Some. }
  split; [by apply (Hvisited j s key)|].
  rewrite Hsec.
  assert (Hlt : (j < length (sections a1))%nat).
  { rewrite Hlen. by eapply lookup_lt_Some. }
  destruct (lookup_lt_is_Some_2 _ _ Hlt) as [s1 Hs1].
  rewrite Hs1. cbn. f_equal. apply (Hexp j s1 Hs1). by left.
Qed.

(** X10: with [rememberExpanded] and the storage found working by both
    instances, every section passing the guard of [setExpanded], and every
    header giving its section an [aria-controls] that is not empty and is
    not the test string of the probe: after a click on the show-all button
    that returns, a component constructed anew over the same markup and
    the storage left behind has every section in the state the click gave
    it, and a show-all control that says so. *)
Theorem show_all_toggle_survives_reload (rt : Runtime) (cfg : AccordionConfig)
    (markup : Markup) (a a' b : Accordion) (st st' st3 : Storage) (u : unit) :
  reachable rt cfg markup (a, st) ->
  allWellFormed a ->
  browserSupportsSessionStorage a = true -> rememberExpanded cfg = true ->
  (forall idx m, markupSections markup !! idx = Some m ->
     exists key, ariaControls (enhanced (moduleId markup) idx m) = Some key
       /\ key <> "" /\ key <> testString) ->
  onShowOrHideAllToggle rt (a, st) = ((a', st'), Ok u) ->
  new rt cfg markup st' = (st3, Ok (Some b)) ->
  browserSupportsSessionStorage b = true ->
  (forall s, s ∈ sections b -> isExpanded s = negb (checkIfAllSectionsOpen a))
  /\ checkIfAllSectionsOpen b = negb (checkIfAllSectionsOpen a)
  /\ showAllAriaExpanded b = boolString (negb (checkIfAllSectionsOpen a)).
Proof.
  intros Hreach Hall Hb Hr Hkeys Htoggle Hnew Hb'.
  destruct (reachable_invariants rt cfg markup _ Hreach) as [(Hcfg & _ & Hl & Hbuilt) _].
  cbn in Hcfg, Hl, Hbuilt.
  set (e := negb (checkIfAllSectionsOpen a)) in *.
  assert (Hstored : forall idx m key, markupSections markup !! idx = Some m ->
            ariaControls (enhanced (moduleId markup) idx m) = Some key ->
            wellFormed (enhanced (moduleId markup) idx m) = true
            /\ getItem key st' = Some (boolString e)).
  { intros idx m key Hm Hkey. destruct (Hbuilt idx m Hm) as (s & Hs & Hwf & Hk).
    split; [by rewrite <- Hwf; apply (Hall idx s)|].
    revert Htoggle. unfold onShowOrHideAllToggle. cbn [fst]. fold e.
    destruct (showOrHideAll rt e _ (a, st)) as [[a1 st1] [u1|err]] eqn:Hloop;
      [|intros [=]].
    destruct (updateShowAllButton rt e a1) as [a2 r2]. intros H. injection H as _ <- _.
    refine (proj2 (showOrHideAll_stores rt e _ a st a1 st1 u1 Hall Hb _ _ Hloop)
              idx s key _ Hs _).
    - by rewrite Hcfg.
    - intros j s0 Hs0.
      assert (Hlt : (j < length (markupSections markup))%nat).
      { rewrite <- Hl. by eapply lookup_lt_Some. }
      destruct (lookup_lt_is_Some_2 _ _ Hlt) as [m0 Hm0].
      destruct (Hbuilt j m0 Hm0) as (s0' & Hs0' & _ & Hk0).
      rewrite Hs0 in Hs0'. injection Hs0' as <-.
      destruct (Hkeys j m0 Hm0) as (k0 & Hk0' & Hne & _).
      exists k0. split; [congruence|done].
    - apply elem_of_seq. split; [lia|]. cbn. by eapply lookup_lt_Some.
    - congruence. }
  destruct (new_ok rt cfg markup st' st3 b Hnew) as (Hst3 & _ & _ & _ & Hlb & Hsecb & Hagg).
  assert (Hallb : forall s, s ∈ sections b -> isExpanded s = e).
  { intros s Hin. apply list_elem_of_lookup in Hin as [idx Hidx].
    assert (Hlt : (idx < length (markupSections markup))%nat).
    { rewrite <- Hlb. by eapply lookup_lt_Some. }
    destruct (lookup_lt_is_Some_2 _ _ Hlt) as [m Hm].
    destruct (Hsecb idx m Hm) as (sb & Hsb & _ & _ & Hexp & _).
    rewrite Hidx in Hsb. injection Hsb as <-.
    destruct (Hkeys idx m Hm) as (key & Hkey & Hne & Hprobe).
    destruct (Hstored idx m key Hm Hkey) as [Hwf Hval].
    rewrite Hexp. unfold initialState, storedState. rewrite Hwf, Hb', Hr, Hkey. cbn.
    destruct (String.eqb_spec key ""); [done|].
    rewrite Hst3, (checkForSessionStorage_other st' key Hprobe), Hval.
    by destruct e. }
  assert (Hcheck : checkIfAllSectionsOpen b = e).
  { destruct e.
    - by apply checkIfAllSectionsOpen_true.
    - apply checkIfAllSectionsOpen_none; [|done].
      intros Hnil. rewrite Hnil in Hlb. cbn in Hlb.
      pose proof (reachable_markup_nonempty rt cfg markup _ Hreach) as Hne.
      destruct (markupSections markup); [done|discriminate]. }
  split; [exact Hallb|]. split; [exact Hcheck|]. by rewrite Hagg, Hcheck.
Qed.

(** ** The availability probe *)

(** X11: the probe of the session storage leaves every entry but the one
    under its test string as it was, removes that one when it reports the
    storage available (there was room to write it), changes nothing when it
    reports it unavailable, and gives the same answer when run again. *)
Theorem probe_cleans_up_after_itself (st st' : Storage) (available : bool) :
  checkForSessionStorage st = (available, st') ->
  quota st' = quota st
  /\ (forall key, key <> testString -> getItem key st' = getItem key st)
  /\ (available = true ->
      getItem testString st' = None /\ isOk (setItem testString testString st) = true)
  /\ (available = false -> st' = st)
  /\ checkForSessionStorage st' = (available, st').
Proof.
  unfold checkForSessionStorage, setItem.
  destruct (used (<[testString := testString]> (items st)) <=? quota st)%nat eqn:Hfits;
    cbn.
  - unfold getItem. cbn. rewrite lookup_insert_eq, bool_decide_eq_true_2 by done.
    intros [= <- <-].
    split_and!; try done.
    + intros key Hne. unfold removeItem. cbn.
      by rewrite lookup_delete_ne, lookup_insert_ne.
    + intros _. unfold removeItem. cbn. split; [apply lookup_delete_eq|done].
    + unfold removeItem. cbn.
      rewrite !insert_delete_eq, !insert_insert_eq, Hfits. cbn.
      by rewrite lookup_insert_eq, bool_decide_eq_true_2.
  - intros [= <- <-]. split_and!; try done. by rewrite Hfits.
Qed.

(** ** Plural forms *)

(** X12: for a finite count, the suffix [getPluralSuffix] returns is the
    preferred form or [other] and the translations have an entry for the
    key with it; it throws only when they have an entry for neither. *)
Theorem plural_suffix_has_a_translation (rt : Runtime) (i : Engine)
    (lookupKey : string) (count : Q) :
  match getPluralSuffix rt i lookupKey (Finite count) with
  | Ok suffix =>
      hasKey i (lookupKey +:+ "." +:+ pluralRuleName suffix) = true
      /\ (suffix = preferredForm rt i count \/ suffix = other)
  | Throw e =>
      e = PluralOtherRequired (locale i)
      /\ hasKey i (lookupKey +:+ "." +:+ pluralRuleName (preferredForm rt i count)) = false
      /\ hasKey i (lookupKey +:+ ".other") = false
  end.
Proof.
  unfold getPluralSuffix.
  destruct (hasKey i (lookupKey +:+ "." +:+ pluralRuleName (preferredForm rt i count)))
    eqn:Hpref.
  - split; [exact Hpref|by left].
  - destruct (hasKey i (lookupKey +:+ ".other")) eqn:Hother.
    + split; [exact Hother|by right].
    + done.
Qed.

(** X13: the Russian rules (also used for Ukrainian) give no whole count
    the form [other]. *)
Theorem russian_never_other (n : Z) : 0 <= n -> pluralRules russian n <> other.
Proof.
  intros Hn. cbn [pluralRules]. cbv zeta.
  rewrite (Z.rem_mod_nonneg n 100) by lia.
  pose proof (Z.mod_pos_bound n 100 ltac:(lia)) as Hb.
  rewrite (Z.rem_mod_nonneg (n mod 100) 10) by lia.
  pose proof (Z.mod_pos_bound (n mod 100) 10 ltac:(lia)) as Hb'.
  set (lastTwo := n mod 100) in *. set (last := lastTwo mod 10) in *.
  rewrite !Z.geb_leb.
  destruct (Z.eqb_spec last 1), (Z.eqb_spec lastTwo 11),
    (Z.leb_spec 2 last), (Z.leb_spec last 4),
    (Z.leb_spec 12 lastTwo), (Z.leb_spec lastTwo 14),
    (Z.eqb_spec last 0), (Z.leb_spec 5 last), (Z.leb_spec last 9),
    (Z.leb_spec 11 lastTwo); cbn; try discriminate; lia.
Qed.

Lemma Qfloor_inject_Z (z : Z) : Qfloor (inject_Z z) = z.
Proof. unfold Qfloor, inject_Z. apply Z.div_1_r. Qed.


(** X14: the fallback rules see a count through [Math.abs(Math.floor(n))]:
    a count that is not negative is rounded down, a negative one is rounded
    away from zero and loses its sign. *)
Theorem fallback_selection_rounds_counts (i : Engine) (count : Q) :
  (0 <= count)%Q ->
  selectPluralFormUsingFallbackRules i count
  = selectPluralFormUsingFallbackRules i (inject_Z (Qfloor count))
  /\ selectPluralFormUsingFallbackRules i (Qopp count)
     = selectPluralFormUsingFallbackRules i (inject_Z (Qceiling count)).
Proof.
  intros Hpos. unfold selectPluralFormUsingFallbackRules.
  rewrite !Qfloor_inject_Z.
  assert (Hfloor : 0 <= Qfloor count).
  { change 0 with (Qfloor (inject_Z 0)). by apply Qfloor_resp_le. }
  assert (Hceil : 0 <= Qceiling count).
  { change 0 with (Qceiling (inject_Z 0)). by apply Qceiling_resp_le. }
  split.
  - by rewrite (Z.abs_eq (Qfloor count)).
  - assert (Heq : Qfloor (Qopp count) = - Qceiling count).
    { unfold Qceiling. by rewrite Z.opp_involutive. }
    by rewrite Heq, Z.abs_opp.
Qed.

(** X15: a locale with a region gets the rules of its language, except
    [pt-PT] which is listed in full. *)
Theorem region_suffix_is_ignored (ruleset : RuleSet) (languages : list string)
    (language region : string) (tr : gmap string JsValue) :
  (ruleset, languages) ∈ pluralRulesMap ->
  language ∈ languages ->
  language <> "pt-PT" ->
  getPluralRulesForLocale {| translations := tr; locale := language |} = Some ruleset
  /\ getPluralRulesForLocale
       {| translations := tr; locale := language +:+ "-" +:+ region |} = Some ruleset.
Proof.
  intros Hmap Hlang Hne. unfold pluralRulesMap in Hmap.
  repeat (apply elem_of_cons in Hmap as [Hmap|Hmap];
          [injection Hmap as -> ->;
           repeat (apply elem_of_cons in Hlang as [->|Hlang];
                   [try done; split; vm_compute; reflexivity|]);
           by apply elem_of_nil in Hlang|]).
  by apply elem_of_nil in Hmap.
Qed.

(** ** Markers *)

Lemma append_String (c : ascii) (a b : string) :
  String c a +:+ b = String c (a +:+ b).
Proof. reflexivity. Qed.

Lemma append_empty (b : string) : "" +:+ b = b.
Proof. reflexivity. Qed.

Lemma append_assoc (a b c : string) : (a +:+ b) +:+ c = a +:+ (b +:+ c).
Proof. induction a as [|x a IH]; [done|]. by rewrite !append_String, IH. Qed.

Lemma append_length (a b : string) :
  String.length (a +:+ b) = (String.length a + String.length b)%nat.
Proof. induction a as [|x a IH]; [done|]. rewrite append_String. cbn. by rewrite IH. Qed.

Lemma nonSpaceRun_prefix (s : string) : exists rest, s = nonSpaceRun s +:+ rest.
Proof.
  induction s as [|c s [rest IH]]; cbn.
  - by exists "".
  - destruct (isWhiteSpace c).
    + by eexists.
    + exists rest. rewrite append_String. by f_equal.
Qed.

Lemma beforeLastBrace_split (run pre : string) :
  beforeLastBrace run = Some pre -> exists post, run = pre +:+ String "}" post.
Proof.
  revert pre. induction run as [|c run IH]; intros pre; cbn; [discriminate|].
  destruct (beforeLastBrace run) as [pre'|].
  - intros [= <-]. destruct (IH pre' eq_refl) as [post ->]. by exists post.
  - destruct (Ascii.eqb_spec c "}") as [->|]; [|discriminate].
    intros [= <-]. by exists run.
Qed.

(** A match of the pattern is the marker of its key. *)
Lemma matchAt_source (s key : string) :
  matchAt s = Some key -> exists rest, s = placeholderWithBraces key +:+ rest.
Proof.
  unfold matchAt. destruct s as [|p [|b [|c1 tail]]]; try discriminate.
  destruct (Ascii.eqb_spec p "%") as [->|]; [|discriminate].
  destruct (Ascii.eqb_spec b "{") as [->|]; [|discriminate]. cbn.
  destruct (isLineTerminator c1); [discriminate|]. cbn.
  destruct (beforeLastBrace (nonSpaceRun tail)) as [pre|] eqn:Hpre; [|discriminate].
  destruct pre as [|c2 pre]; [discriminate|]. intros [= <-].
  destruct (beforeLastBrace_split _ _ Hpre) as [post Hrun].
  destruct (nonSpaceRun_prefix tail) as [rest Htail]. rewrite Hrun in Htail.
  exists (post +:+ rest). unfold placeholderWithBraces.
  rewrite Htail, !append_String, append_empty, !append_assoc, !append_String.
  by rewrite append_assoc, append_String.
Qed.

Lemma scan_lossless_bounded (n : nat) :
  forall s, (String.length s <= n)%nat ->
    sourceText (scan s 0) = s
    /\ (forall prefix rest, s = prefix +:+ rest ->
          sourceText (scan s (String.length prefix)) = rest).
Proof.
  induction n as [|n IH]; intros s Hlen.
  - destruct s; [|cbn in Hlen; lia]. split; [done|].
    intros [|? ?] rest Hs; [by rewrite append_empty in Hs|discriminate].
  - destruct s as [|c s].
    { split; [done|].
      intros [|? ?] rest Hs; [by rewrite append_empty in Hs|discriminate]. }
    cbn in Hlen. destruct (IH s ltac:(lia)) as [IH0 IHskip].
    assert (Hzero : sourceText (scan (String c s) 0) = String c s).
    { cbn [scan]. destruct (matchAt (String c s)) as [key|] eqn:Hmatch.
      - destruct (matchAt_source _ _ Hmatch) as [rest Hsrc].
        cbn [sourceText tokenText].
        pose proof (IHskip (String "{" (key +:+ "}")) rest) as Hskip.
        cbn [String.length] in Hskip. rewrite append_length in Hskip.
        cbn [String.length] in Hskip.
        replace (S (String.length key + 1))%nat with (2 + String.length key)%nat
          in Hskip by lia.
        rewrite Hskip.
        + exact (eq_sym Hsrc).
        + unfold placeholderWithBraces in Hsrc.
          rewrite !append_String, append_empty in Hsrc. injection Hsrc as _ ->.
          by rewrite append_String, append_assoc.
      - cbn [sourceText tokenText]. by rewrite IH0. }
    split; [exact Hzero|].
    intros [|p prefix] rest Hs.
    + rewrite append_empty in Hs. subst rest. exact Hzero.
    + rewrite append_String in Hs. injection Hs as -> ->. cbn [String.length scan].
      by apply IHskip.
Qed.

Lemma scan_sourceText (s : string) : sourceText (scan s 0) = s.
Proof. exact (proj1 (scan_lossless_bounded (String.length s) s (le_n _))). Qed.

Lemma replaceTokens_literals (rt : Runtime) (i : Engine) (o : gmap string JsValue)
    (tokens : list Token) :
  existsb isPlaceholder tokens = false ->
  replaceTokens rt i o tokens = Ok (sourceText tokens).
Proof.
  induction tokens as [|[c|key] rest IH]; cbn; [done| |discriminate].
  intros H. by rewrite (IH H).
Qed.

(** X16: the text and the markers read from a message make the message
    again, character by character; and a message without a marker is
    returned by [replacePlaceholders] as it is, whatever the options. *)
Theorem text_outside_markers_is_kept (rt : Runtime) (i : Engine)
    (o : gmap string JsValue) (s : string) :
  sourceText (scan s 0) = s
  /\ (hasPlaceholders s = false -> replacePlaceholders rt i s o = Ok s).
Proof.
  split; [apply scan_sourceText|].
  intros H. unfold replacePlaceholders.
  by rewrite (replaceTokens_literals rt i o _ H), scan_sourceText.
Qed.

Lemma scan_skip (prefix rest : string) :
  scan (prefix +:+ rest) (String.length prefix) = scan rest 0.
Proof. induction prefix as [|c prefix IH]; [done|]. rewrite append_String. exact IH. Qed.

Lemma nonSpaceRun_app (pre rest : string) :
  allChars notWhiteSpace pre = true ->
  nonSpaceRun (pre +:+ rest) = pre +:+ nonSpaceRun rest.
Proof.
  induction pre as [|c pre IH]; [done|]. cbn [allChars]. unfold notWhiteSpace at 1.
  intros [Hc Hpre]%andb_true_iff. rewrite !append_String. cbn [nonSpaceRun].
  apply negb_true_iff in Hc. by rewrite Hc, IH.
Qed.

Lemma beforeLastBrace_none (run : string) :
  allChars notClosingBrace run = true -> beforeLastBrace run = None.
Proof.
  induction run as [|c run IH]; [done|]. cbn [allChars]. unfold notClosingBrace at 1.
  intros [Hc Hrun]%andb_true_iff. cbn. apply negb_true_iff in Hc.
  by rewrite (IH Hrun), Hc.
Qed.

Lemma beforeLastBrace_app (pre run p : string) :
  beforeLastBrace run = Some p -> beforeLastBrace (pre +:+ run) = Some (pre +:+ p).
Proof.
  intros H. induction pre as [|c pre IH]; [done|].
  rewrite !append_String. cbn. by rewrite IH.
Qed.

Lemma append_empty_r (a : string) : a +:+ "" = a.
Proof. induction a as [|c a IH]; [done|]. by rewrite append_String, IH. Qed.

Ltac normalise_append :=
  repeat (progress (rewrite ?append_assoc, ?append_String, ?append_empty)).

Ltac normalise_append_in H :=
  repeat (progress (rewrite ?append_assoc, ?append_String, ?append_empty in H)).

Lemma matchAt_marker (c1 : ascii) (pre rest : string) :
  isLineTerminator c1 = false ->
  pre <> "" ->
  allChars notWhiteSpace pre = true ->
  allChars notClosingBrace (nonSpaceRun rest) = true ->
  matchAt (placeholderWithBraces (String c1 pre) +:+ rest) = Some (String c1 pre).
Proof.
  intros Hc1 Hpre Hws Hbrace. unfold placeholderWithBraces. normalise_append.
  unfold matchAt. cbn [Ascii.eqb Bool.eqb andb]. rewrite Hc1. cbn [negb].
  rewrite (nonSpaceRun_app pre _ Hws). cbn [nonSpaceRun].
  change (isWhiteSpace "}") with false. cbv iota.
  rewrite (beforeLastBrace_app pre (String "}" (nonSpaceRun rest)) "").
  - destruct pre; [done|]. by rewrite append_empty_r.
  - cbn. by rewrite (beforeLastBrace_none _ Hbrace).
Qed.

(** X17: [%{key}] is read as the marker of [key] when no closing brace
    follows before the next white space; two markers with no white space
    between them are read as one, whose key runs from the first name to
    the second. *)
Theorem marker_is_read_up_to_the_last_brace (c1 : ascii) (pre rest : string) :
  isLineTerminator c1 = false ->
  pre <> "" ->
  allChars notWhiteSpace pre = true ->
  allChars notClosingBrace (nonSpaceRun rest) = true ->
  scan (placeholderWithBraces (String c1 pre) +:+ rest) 0
  = Placeholder (String c1 pre) :: scan rest 0
  /\ (forall key2,
        allChars notWhiteSpace key2 = true ->
        scan (placeholderWithBraces (String c1 pre) +:+ placeholderWithBraces key2
              +:+ rest) 0
        = Placeholder (String c1 pre +:+ "}%{" +:+ key2) :: scan rest 0).
Proof.
  intros Hc1 Hpre Hws Hbrace.
  assert (Hone : forall pre', pre' <> "" -> allChars notWhiteSpace pre' = true ->
            scan (placeholderWithBraces (String c1 pre') +:+ rest) 0
            = Placeholder (String c1 pre') :: scan rest 0).
  { intros pre' Hpre' Hws'.
    pose proof (matchAt_marker c1 pre' rest Hc1 Hpre' Hws' Hbrace) as Hmatch.
    pose proof (scan_skip (String "{" (String c1 pre' +:+ "}")) rest) as Hskip.
    unfold placeholderWithBraces in *.
    normalise_append. normalise_append_in Hmatch. normalise_append_in Hskip.
    cbn [scan]. rewrite Hmatch. f_equal.
    cbn [String.length] in Hskip. rewrite append_length in Hskip.
    cbn [String.length] in Hskip.
    replace (S (S (String.length pre' + 1)))%nat
      with (2 + S (String.length pre'))%nat in Hskip by lia.
    exact Hskip. }
  split; [by apply Hone|].
  intros key2 Hws2.
  replace (placeholderWithBraces (String c1 pre) +:+ placeholderWithBraces key2 +:+ rest)
    with (placeholderWithBraces (String c1 (pre +:+ "}%{" +:+ key2)) +:+ rest).
  - rewrite append_String. apply Hone.
    + destruct pre; [done|]. by rewrite append_String.
    + clear -Hws Hws2. induction pre as [|c pre IH]; [exact Hws2|].
      rewrite append_String. cbn [allChars] in *.
      apply andb_true_iff in Hws as [Hc Hpre]. by rewrite Hc, IH.
  - unfold placeholderWithBraces. by normalise_append.
Qed.

(** ** The errors of [t] *)

Lemma replaceTokens_throws (rt : Runtime) (i : Engine) (o : gmap string JsValue)
    (tokens : list Token) (e : JsError) :
  replaceTokens rt i o tokens = Throw e ->
  exists key, Placeholder key ∈ tokens /\ o !! key = None
    /\ e = NoDataForPlaceholder (placeholderWithBraces key).
Proof.
  induction tokens as [|[c|key] rest IH]; cbn.
  - discriminate.
  - destruct (replaceTokens rt i o rest) as [out|e'] eqn:Hrest; cbn; [discriminate|].
    intros [= <-]. destruct (IH eq_refl) as (key & Hin & Hnone & ->).
    exists key. split; [by right|done].
  - unfold replacePlaceholder. destruct (o !! key) as [v|] eqn:Hv.
    + assert (Hvalue : exists text,
                match v with
                | JsBoolean false => Ok EmptyString
                | JsNum n => Ok (formatNumber rt i n)
                | JsString s => Ok s
                | _ => Ok EmptyString
                end = Ok text).
      { destruct v as [| |[]| | |]; by eexists. }
      destruct Hvalue as [text ->]. cbn.
      destruct (replaceTokens rt i o rest) as [out|e'] eqn:Hrest; cbn; [discriminate|].
      intros [= <-]. destruct (IH eq_refl) as (key' & Hin & Hnone & ->).
      exists key'. split; [by right|done].
    + cbn. intros [= <-]. exists key. split; [by left|done].
Qed.

Lemma lookupAndInterpolate_throws (rt : Runtime) (i : Engine) (key : string)
    (options : option (gmap string JsValue)) (e : JsError) :
  lookupAndInterpolate rt i key options = Throw e ->
  exists text,
    translations i !! key = Some (JsString text) /\ hasPlaceholders text = true
    /\ match options with
       | None => e = NoOptionData
       | Some o =>
           exists name, Placeholder name ∈ scan text 0 /\ o !! name = None
             /\ e = NoDataForPlaceholder (placeholderWithBraces name)
       end.
Proof.
  unfold lookupAndInterpolate.
  destruct (translations i !! key) as [[| | | |text|]|] eqn:Htext; try discriminate.
  destruct (hasPlaceholders text) eqn:Hmarkers; [|discriminate].
  intros H. exists text. split; [done|]. split; [done|].
  destruct options as [o|]; [|by injection H as <-].
  by apply replaceTokens_throws in H.
Qed.

Lemma resolveLookupKey_throws (rt : Runtime) (i : Engine) (lookupKey : string)
    (options : option (gmap string JsValue)) (e : JsError) :
  resolveLookupKey rt i lookupKey options = Throw e ->
  (lookupKey = "" /\ e = LookupKeyMissing)
  \/ (lookupKey <> "" /\ e = PluralOtherRequired (locale i)
      /\ exists o count,
           options = Some o /\ o !! "count" = Some (JsNum (Finite count))
           /\ hasKey i (lookupKey +:+ "." +:+ pluralRuleName (preferredForm rt i count)) = false
           /\ hasKey i (lookupKey +:+ ".other") = false).
Proof.
  unfold resolveLookupKey.
  destruct (String.eqb_spec lookupKey "") as [->|Hkey]; [intros [= <-]; by left|].
  destruct options as [o|]; [|discriminate].
  destruct (o !! "count") as [[| | |count| |]|] eqn:Hcount; try discriminate.
  destruct count as [| | |q]; cbn; try discriminate.
  destruct (hasKey i (lookupKey +:+ "." +:+ pluralRuleName (preferredForm rt i q)))
    eqn:Hpreferred; cbn; [discriminate|].
  destruct (hasKey i (lookupKey +:+ ".other")) eqn:Hother; cbn; [discriminate|].
  intros [= <-]. right. split; [done|]. split; [done|]. by exists o, q.
Qed.

(** X18: when [t] throws one of the errors of the engine, its cause is
    there. "Lookup key missing": the lookup key is empty. "Plural form
    .other is required", naming the locale of the engine: the options have
    a finite count, and the translations have an entry neither for the
    preferred form of the key nor for its [other] form. "Cannot replace
    placeholders in string if no option data provided": no options were
    passed and the text under the lookup key has a marker. "No data found
    to replace": the text under the resolved lookup key has the marker
    named and the options have no property for its key. [t] throws none
    of the exceptions of the storage and of the DOM. *)
Theorem translation_errors_have_a_cause (rt : Runtime) (i : Engine)
    (lookupKey : string) (options : option (gmap string JsValue)) (e : JsError) :
  t rt i lookupKey options = Throw e ->
  match e with
  | LookupKeyMissing => lookupKey = ""
  | PluralOtherRequired l =>
      l = locale i
      /\ exists o count,
           options = Some o /\ o !! "count" = Some (JsNum (Finite count))
           /\ hasKey i (lookupKey +:+ "." +:+ pluralRuleName (preferredForm rt i count)) = false
           /\ hasKey i (lookupKey +:+ ".other") = false
  | NoOptionData =>
      options = None
      /\ exists text,
           translations i !! lookupKey = Some (JsString text)
           /\ hasPlaceholders text = true
  | NoDataForPlaceholder marker =>
      exists o resolved text name,
        options = Some o
        /\ resolveLookupKey rt i lookupKey options = Ok resolved
        /\ translations i !! resolved = Some (JsString text)
        /\ Placeholder name ∈ scan text 0
        /\ o !! name = None
        /\ marker = placeholderWithBraces name
  | QuotaExceededError | NotFoundError => False
  end.
Proof.
  unfold t. destruct (resolveLookupKey rt i lookupKey options) as [resolved|e'] eqn:Hresolve.
  - cbn. intros (text & Htext & Hmarkers & Hcause)%lookupAndInterpolate_throws.
    destruct options as [o|].
    + destruct Hcause as (name & Hin & Hnone & ->). by exists o, resolved, text, name.
    + subst e. split; [done|]. exists text. split; [|done].
      unfold resolveLookupKey in Hresolve.
      destruct (String.eqb lookupKey ""); [discriminate|]. by injection Hresolve as <-.
  - cbn. intros [= <-].
    apply resolveLookupKey_throws in Hresolve
      as [[-> ->]|(_ & -> & o & count & -> & Hcount & Hpreferred & Hother)]; [done|].
    split; [done|]. by exists o, count.
Qed.


(** ** Configuration *)

Lemma join_cons (separator x : string) (rest : list string) :
  rest <> [] -> join separator (x :: rest) = x +:+ separator +:+ join separator rest.
Proof. by destruct rest. Qed.

Lemma split_nonempty (s : string) : split s <> [].
Proof. induction s as [|c r IH]; cbn; [done|]. destruct (Ascii.eqb c "."); [done|]. by destruct (split r). Qed.

Lemma join_split (s : string) : join "." (split s) = s.
Proof.
  induction s as [|c r IH]; [done|].
  cbn [split]. destruct (Ascii.eqb_spec c ".") as [->|Hc].
  - rewrite join_cons by apply split_nonempty. by rewrite IH.
  - pose proof (split_nonempty r) as Hne.
    destruct (split r) as [|part parts]; [done|].
    destruct parts as [|p ps]; cbn in *; by rewrite <- IH.
Qed.

Lemma split_plain (s : string) : allChars notDot s = true -> split s = [s].
Proof.
  induction s as [|c r IH]; [done|].
  cbn. unfold notDot at 1. destruct (Ascii.eqb c "."); [done|].
  cbn. intros H. by rewrite IH.
Qed.

Lemma split_plain_app (a b : string) :
  allChars notDot a = true -> split (a +:+ "." +:+ b) = a :: split b.
Proof.
  induction a as [|c r IH]; [done|].
  cbn [allChars]. unfold notDot at 1. rewrite append_String. cbn [split].
  destruct (Ascii.eqb c "."); [done|].
  cbn. intros H. by rewrite IH.
Qed.

Lemma split_head_plain (s : string) :
  exists part parts, split s = part :: parts /\ allChars notDot part = true.
Proof.
  induction s as [|c r (part & parts & Hs & Hp)]; [by exists "", []|].
  cbn [split]. destruct (Ascii.eqb c ".") eqn:Hc; [by exists "", (split r)|].
  rewrite Hs. exists (String c part), parts. split; [done|].
  cbn. unfold notDot at 1. by rewrite Hc.
Qed.

(** What one round of the loop of [extractConfigByNamespace] does, by the
    shape of the key. *)
Lemma extractEntry_cases (namespace key : string) (v : Scalar)
    (newObject : gmap string Scalar) :
  allChars notDot namespace = true ->
  (key = namespace /\ extractEntry namespace newObject (key, v) = <[namespace := v]> newObject)
  \/ (exists name, key = namespace +:+ "." +:+ name
        /\ extractEntry namespace newObject (key, v) = <[name := v]> newObject)
  \/ (key <> namespace /\ (forall name, key <> namespace +:+ "." +:+ name)
        /\ extractEntry namespace newObject (key, v) = newObject).
Proof.
  intros Hplain. unfold extractEntry. cbn [fst snd].
  destruct (decide (head (split key) = Some namespace)) as [Hhead|Hhead].
  - pose proof (join_split key) as Hjoin.
    destruct (split key) as [|part parts] eqn:Hs; [done|].
    cbn in Hhead. injection Hhead as ->.
    destruct parts as [|p ps].
    + left. cbn in Hjoin. subst key. split; [done|]. by rewrite decide_False by (cbn; lia).
    + right; left. exists (join "." (p :: ps)).
      rewrite join_cons in Hjoin by done. split; [done|].
      by rewrite decide_True by (cbn; lia).
  - right; right. split_and!; [| |done].
    + intros ->. by rewrite split_plain in Hhead.
    + intros name ->. by rewrite split_plain_app in Hhead.
Qed.

Lemma extract_lookup (namespace name : string) (entries : list (string * Scalar))
    (newObject : gmap string Scalar) (v : Scalar) :
  allChars notDot namespace = true ->
  name <> namespace ->
  NoDup entries.*1 ->
  fold_left (extractEntry namespace) entries newObject !! name = Some v <->
  (namespace +:+ "." +:+ name, v) ∈ entries
  \/ (newObject !! name = Some v /\ (namespace +:+ "." +:+ name) ∉ entries.*1).
Proof.
  intros Hplain Hname. revert newObject.
  induction entries as [|[key x] rest IH]; intros newObject Hnodup.
  { cbn. split; [intros H; right; split; [done|set_solver]|]. intros [H|[H _]]; [set_solver|done]. }
  cbn [fold_left]. rewrite fmap_cons in Hnodup. apply NoDup_cons in Hnodup as [Hkey Hnodup].
  rewrite IH by done. cbn [fst] in Hkey.
  rewrite fmap_cons, !elem_of_cons. cbn [fst].
  destruct (extractEntry_cases namespace key x newObject Hplain)
    as [[-> ->]|[(name' & -> & ->)|(Hk1 & Hk2 & ->)]].
  - rewrite lookup_insert_ne by done.
    assert (namespace +:+ "." +:+ name <> namespace).
    { intros H. apply (f_equal String.length) in H. rewrite !append_length in H. cbn in H. lia. }
    intuition congruence.
  - destruct (decide (name' = name)) as [->|Hne].
    + rewrite lookup_insert_eq. intuition congruence.
    + rewrite lookup_insert_ne by done.
      assert (namespace +:+ "." +:+ name <> namespace +:+ "." +:+ name').
      { intros H. apply String.app_inj in H. apply (String.app_inj ".") in H. done. }
      intuition congruence.
  - specialize (Hk2 name). intuition congruence.
Qed.

(** Under a namespace with a dot in it nothing is found. *)
Lemma extract_dotted (namespace : string) (entries : list (string * Scalar))
    (newObject : gmap string Scalar) :
  allChars notDot namespace = false ->
  fold_left (extractEntry namespace) entries newObject = newObject.
Proof.
  intros Hdot. revert newObject. induction entries as [|[key x] rest IH]; intros newObject; [done|].
  cbn [fold_left]. rewrite IH. unfold extractEntry. cbn [fst].
  destruct (split_head_plain key) as (part & parts & -> & Hp).
  rewrite decide_False; [done|]. cbn. intros [= ->]. congruence.
Qed.

(** Induction over a configuration value and the values of its properties. *)
Lemma ConfigValue_nested_ind (P : ConfigValue -> Prop) :
  P ConfigNull ->
  (forall v, P (ConfigScalar v)) ->
  (forall properties, Forall (fun entry => P entry.2) properties -> P (ConfigObject properties)) ->
  forall value, P value.
Proof.
  intros Hnull Hscalar Hobject. fix IH 1. intros [|v|properties]; [done|done|].
  apply Hobject. induction properties as [|[key value] rest IHrest]; constructor; [apply IH|apply IHrest].
Qed.

Lemma flattenLoop_nil (prefix : string) (flattenedObject : gmap string Scalar) :
  flattenLoop (ConfigObject []) prefix flattenedObject = flattenedObject.
Proof. reflexivity. Qed.

Lemma flattenLoop_cons (key : string) (value : ConfigValue)
    (rest : list (string * ConfigValue)) (prefix : string)
    (flattenedObject : gmap string Scalar) :
  flattenLoop (ConfigObject ((key, value) :: rest)) prefix flattenedObject =
  flattenLoop (ConfigObject rest) prefix
    match value with
    | ConfigScalar v => <[prefixedKey prefix key := v]> flattenedObject
    | _ => flattenLoop value (prefixedKey prefix key) flattenedObject
    end.
Proof. reflexivity. Qed.

(** The loop only adds to the object it writes into. *)
Lemma flattenLoop_union (obj : ConfigValue) :
  forall prefix flattenedObject,
    flattenLoop obj prefix flattenedObject = flattenLoop obj prefix ∅ ∪ flattenedObject.
Proof.
  induction obj as [|v|properties IH] using ConfigValue_nested_ind; intros prefix acc.
  - cbn. by rewrite (left_id_L ∅ (∪)).
  - cbn. by rewrite (left_id_L ∅ (∪)).
  - revert acc. induction IH as [|[key value] rest Hvalue _ IHrest]; intros acc.
    { rewrite !flattenLoop_nil. by rewrite (left_id_L ∅ (∪)). }
    rewrite !flattenLoop_cons. cbn [snd] in Hvalue.
    rewrite IHrest. rewrite (IHrest (match value with ConfigScalar _ => _ | _ => _ end)).
    rewrite <- (assoc_L (∪)). f_equal.
    destruct value as [|v|properties].
    + rewrite (Hvalue _ acc). done.
    + by rewrite insert_union_singleton_l, insert_empty.
    + rewrite (Hvalue _ acc). done.
Qed.

Lemma prefixedKey_nonempty (prefix key : string) : key <> "" -> prefixedKey prefix key <> "".
Proof. unfold prefixedKey. destruct prefix; cbn; [done|]. by rewrite append_String. Qed.

Lemma prefixedKey_nested (prefix key rest : string) :
  key <> "" ->
  prefixedKey (prefixedKey prefix key) rest = prefixedKey prefix (key +:+ "." +:+ rest).
Proof.
  intros Hkey. unfold prefixedKey at 1.
  destruct (String.eqb_spec (prefixedKey prefix key) "") as [H|_].
  { by apply prefixedKey_nonempty in H. }
  unfold prefixedKey. destruct (String.eqb prefix ""); [done|].
  by rewrite !append_assoc.
Qed.

Lemma prefixedKey_inj (prefix : string) : Inj (=) (=) (prefixedKey prefix).
Proof.
  intros a b. unfold prefixedKey. destruct (String.eqb prefix ""); [done|].
  intros H. apply String.app_inj in H. by apply (String.app_inj ".") in H.
Qed.

Lemma leafAt_nonempty (value : ConfigValue) (path : list string) (v : Scalar) :
  leafAt value path v -> path <> [].
Proof. by destruct 1. Qed.

Lemma leafAt_cons_inv (properties : list (string * ConfigValue)) (entry : string * ConfigValue)
    (path : list string) (v : Scalar) :
  leafAt (ConfigObject (entry :: properties)) path v ->
  leafAt (ConfigObject properties) path v
  \/ (exists path', path = entry.1 :: path' /\
        match path' with
        | [] => entry.2 = ConfigScalar v
        | _ => leafAt entry.2 path' v
        end).
Proof.
  destruct entry as [key0 value0]. cbn [fst snd].
  inversion 1 as [ps key v' Hin|ps key value path' v' Hin Hleaf]; subst.
  - apply elem_of_cons in Hin as [[= -> ->]|Hin]; [right; by exists []|left; by constructor].
  - apply elem_of_cons in Hin as [[= -> ->]|Hin]; [|left; by econstructor].
    right. exists path'. split; [done|]. destruct path'; [|done]. by apply leafAt_nonempty in Hleaf.
Qed.

(** Keys written by the loop are the dotted paths of leaves. *)
Lemma flattenLoop_sound (obj : ConfigValue) :
  forall prefix x v,
    plainKeys obj ->
    flattenLoop obj prefix ∅ !! x = Some v ->
    exists path, leafAt obj path v /\ x = prefixedKey prefix (join "." path).
Proof.
  induction obj as [|s|properties IH] using ConfigValue_nested_ind; intros prefix x v Hplain; [done|done|].
  inversion Hplain as [| |ps _ Hkeys]; subst. clear Hplain.
  induction IH as [|[key value] rest Hvalue _ IHrest].
  { by rewrite flattenLoop_nil. }
  apply Forall_cons in Hkeys as [(Hkey & _ & Hsub) Hkeys]. cbn [fst snd] in *.
  rewrite flattenLoop_cons, flattenLoop_union. intros [Hx|[_ Hx]]%lookup_union_Some_raw.
  { destruct (IHrest Hkeys Hx) as (path & Hleaf & ->). exists path. split; [|done].
    inversion Hleaf; subst; [apply leaf_here|eapply leaf_below; [|done]]; by apply elem_of_cons; right. }
  destruct value as [|s|properties].
  - done.
  - apply lookup_insert_Some in Hx as [[<- <-]|[_ Hx]]; [|done].
    exists [key]. split; [|done]. apply leaf_here. by left.
  - destruct (Hvalue _ _ _ Hsub Hx) as (path & Hleaf & ->).
    exists (key :: path). split; [eapply leaf_below; [by left|done]|].
    rewrite join_cons by by eapply leafAt_nonempty.
    by apply prefixedKey_nested.
Qed.

Lemma leafAt_head (properties : list (string * ConfigValue)) (path : list string) (v : Scalar) :
  leafAt (ConfigObject properties) path v ->
  exists key path', path = key :: path' /\ key ∈ properties.*1.
Proof.
  inversion 1 as [ps key v' Hin|ps key value path' v' Hin Hleaf]; subst.
  - exists key, []. split; [done|]. apply list_elem_of_fmap. by exists (key, ConfigScalar v).
  - exists key, path'. split; [done|]. apply list_elem_of_fmap. by exists (key, value).
Qed.

Lemma split_join_head (key : string) (path : list string) :
  allChars notDot key = true -> head (split (join "." (key :: path))) = Some key.
Proof.
  intros Hplain. destruct path as [|k p].
  - cbn [join]. by rewrite split_plain.
  - rewrite join_cons by done. by rewrite split_plain_app.
Qed.

Lemma plainKeys_tail (entry : string * ConfigValue) (rest : list (string * ConfigValue)) :
  plainKeys (ConfigObject (entry :: rest)) -> plainKeys (ConfigObject rest).
Proof.
  inversion 1 as [| |ps Hnodup Hkeys]; subst. rewrite fmap_cons in Hnodup.
  apply NoDup_cons in Hnodup as [_ Hnodup]. apply Forall_cons in Hkeys as [_ Hkeys].
  by constructor.
Qed.

Lemma plainKeys_key (properties : list (string * ConfigValue)) (key : string) :
  plainKeys (ConfigObject properties) -> key ∈ properties.*1 -> allChars notDot key = true.
Proof.
  inversion 1 as [| |ps _ Hkeys]; subst. intros ([k x] & -> & Hin)%list_elem_of_fmap.
  rewrite Forall_forall in Hkeys. by destruct (Hkeys _ Hin) as (_ & ? & _).
Qed.

(** Every leaf is written under its dotted path. *)
Lemma flattenLoop_complete (obj : ConfigValue) :
  forall prefix path v,
    plainKeys obj ->
    leafAt obj path v ->
    flattenLoop obj prefix ∅ !! prefixedKey prefix (join "." path) = Some v.
Proof.
  induction obj as [|s|properties IH] using ConfigValue_nested_ind; intros prefix path v Hplain Hleaf;
    [inversion Hleaf|inversion Hleaf|].
  induction IH as [|[key value] rest Hvalue _ IHrest].
  { inversion Hleaf as [? ? ? Hin|? ? ? ? ? Hin]; by apply elem_of_nil in Hin. }
  pose proof (plainKeys_tail _ _ Hplain) as Hrest.
  rewrite flattenLoop_cons, flattenLoop_union.
  apply leafAt_cons_inv in Hleaf as [Hleaf|(path' & -> & Hleaf)].
  { apply lookup_union_Some_l. by apply IHrest. }
  cbn [fst snd] in *.
  inversion Hplain as [| |ps Hnodup Hkeys]; subst.
  rewrite fmap_cons in Hnodup. apply NoDup_cons in Hnodup as [Hfresh _].
  apply Forall_cons in Hkeys as [(Hkey & Hdot & Hsub) _]. cbn [fst snd] in *.
  rewrite lookup_union_r.
  - destruct path' as [|k p].
    + subst value. by rewrite lookup_insert_eq.
    + destruct value as [|s|properties]; [inversion Hleaf|inversion Hleaf|].
      rewrite join_cons by done. rewrite <- prefixedKey_nested by done.
      by apply Hvalue.
  - destruct (flattenLoop (ConfigObject rest) prefix ∅ !! _) as [v'|] eqn:Hx; [|done].
    exfalso. apply flattenLoop_sound in Hx as (path2 & Hleaf2 & Heq); [|done].
    apply prefixedKey_inj in Heq.
    destruct (leafAt_head _ _ _ Hleaf2) as (key2 & p2 & -> & Hin).
    apply (f_equal (fun s => head (split s))) in Heq.
    rewrite !split_join_head in Heq by eauto using plainKeys_key.
    by simplify_eq.
Qed.

(** X19: the flattened object has exactly the leaves of the configuration,
    each under the keys that lead to it joined by dots. *)
Theorem flattened_keys_are_dotted_paths (configObject : list (string * ConfigValue))
    (flattenedKey : string) (v : Scalar) :
  plainKeys (ConfigObject configObject) ->
  flattenObject configObject !! flattenedKey = Some v <->
  exists path, leafAt (ConfigObject configObject) path v /\ flattenedKey = join "." path.
Proof.
  intros Hplain. unfold flattenObject. split.
  - intros H. by apply flattenLoop_sound in H.
  - intros (path & Hleaf & ->). by apply (flattenLoop_complete _ "" path v).
Qed.

(** X20: a property whose value is [null] or an object without properties
    leaves no key behind, and a level keyed by the empty string leaves no
    trace in the keys below it. *)
Theorem null_and_empty_key_vanish (configObject nested : list (string * ConfigValue))
    (key : string) :
  flattenObject (configObject ++ [(key, ConfigNull)]) = flattenObject configObject
  /\ flattenObject (configObject ++ [(key, ConfigObject [])]) = flattenObject configObject
  /\ flattenObject [("", ConfigObject nested)] = flattenObject nested.
Proof.
  assert (Hloop : forall value prefix acc,
            flattenLoop (ConfigObject (configObject ++ [(key, value)])) prefix acc =
            flattenLoop (ConfigObject [(key, value)]) prefix
              (flattenLoop (ConfigObject configObject) prefix acc)).
  { intros value prefix. induction configObject as [|[k x] rest IH]; intros acc; [done|].
    rewrite <- app_comm_cons, !flattenLoop_cons. by rewrite IH. }
  unfold flattenObject. by rewrite !Hloop.
Qed.

(** X21: of the objects passed to [mergeConfigs] the last one that has a key
    decides its value. *)
Theorem last_config_wins (configObjects : list (list (string * ConfigValue)))
    (configObject : list (string * ConfigValue)) (flattenedKey : string) :
  mergeConfigs (configObjects ++ [configObject]) !! flattenedKey =
  match flattenObject configObject !! flattenedKey with
  | Some v => Some v
  | None => mergeConfigs configObjects !! flattenedKey
  end.
Proof.
  unfold mergeConfigs. rewrite fold_left_app. cbn [fold_left].
  destruct (flattenObject configObject !! flattenedKey) as [v|] eqn:Hlast.
  - by apply lookup_union_Some_l.
  - by rewrite lookup_union_r.
Qed.

(** Where a key of the extracted object can come from. *)
Lemma extract_source (namespace name : string) (entries : list (string * Scalar))
    (newObject : gmap string Scalar) (v : Scalar) :
  allChars notDot namespace = true ->
  fold_left (extractEntry namespace) entries newObject !! name = Some v ->
  (namespace +:+ "." +:+ name, v) ∈ entries
  \/ (name = namespace /\ (namespace, v) ∈ entries)
  \/ newObject !! name = Some v.
Proof.
  intros Hplain. revert newObject.
  induction entries as [|[key x] rest IH]; intros newObject; [by right; right|].
  cbn [fold_left]. intros [H|[[-> H]|H]]%IH.
  { left. by right. }
  { right; left. split; [done|]. by right. }
  destruct (extractEntry_cases namespace key x newObject Hplain)
    as [[-> Heq]|[(name' & -> & Heq)|(Hk1 & Hk2 & Heq)]]; rewrite Heq in H.
  - apply lookup_insert_Some in H as [[<- <-]|[_ H]]; [|by right; right].
    right; left. split; [done|]. by left.
  - apply lookup_insert_Some in H as [[<- <-]|[_ H]]; [|by right; right].
    left. by left.
  - by right; right.
Qed.

(** A flat object flattens to itself, dots in its keys included. *)
Lemma flattenObject_objectOf (entries : list (string * Scalar)) (m : gmap string Scalar) :
  enumerates entries m -> flattenObject (objectOf entries) = m.
Proof.
  intros [Hnodup Hm]. apply map_eq. intros key. apply option_eq. intros v.
  rewrite <- Hm. clear Hm. unfold flattenObject. revert key v.
  induction entries as [|[k x] rest IH]; intros key v.
  { cbn. rewrite lookup_empty. split; [done|]. by intros ?%elem_of_nil. }
  rewrite fmap_cons in Hnodup. apply NoDup_cons in Hnodup as [Hfresh Hnodup].
  unfold objectOf. rewrite fmap_cons. cbn [prod_map fst snd id].
  rewrite flattenLoop_cons, flattenLoop_union.
  fold (objectOf rest). rewrite elem_of_cons.
  change (prefixedKey "" k) with k.
  split.
  - intros [H|[_ H]]%lookup_union_Some_raw; [right; by apply IH|].
    apply lookup_insert_Some in H as [[<- <-]|[_ H]]; [by left|done].
  - intros [[= -> ->]|H].
    + rewrite lookup_union_r; [by rewrite lookup_insert_eq|].
      destruct (flattenLoop _ _ _ !! k) as [v'|] eqn:Hk; [|done].
      exfalso. apply Hfresh. apply IH in Hk; [|done]. cbn.
      apply list_elem_of_fmap. by exists (k, v').
    + apply lookup_union_Some_l. by apply IH.
Qed.

Lemma mergeConfigs_three (first second third : list (string * ConfigValue)) :
  mergeConfigs [first; second; third] =
  flattenObject third ∪ (flattenObject second ∪ flattenObject first).
Proof. unfold mergeConfigs. cbn [fold_left]. by rewrite (right_id_L ∅ (∪)). Qed.

(** X22: [extractConfigByNamespace] returns under [name] what the flattened
    object holds under [namespace.name]; what is held under the namespace
    itself keeps its key. *)
Theorem namespace_is_stripped (entries : list (string * Scalar)) (namespace : string) :
  NoDup entries.*1 ->
  namespace <> "" ->
  allChars notDot namespace = true ->
  exists newObject,
    extractConfigByNamespace (Some entries) namespace = inr newObject
    /\ (forall name v,
          name <> namespace ->
          newObject !! name = Some v <-> (namespace +:+ "." +:+ name, v) ∈ entries)
    /\ (forall v,
          newObject !! namespace = Some v ->
          (namespace, v) ∈ entries \/ (namespace +:+ "." +:+ namespace, v) ∈ entries).
Proof.
  intros Hnodup Hns Hplain. eexists. unfold extractConfigByNamespace.
  destruct (String.eqb_spec namespace "") as [|_]; [done|].
  split; [done|]. split.
  - intros name v Hname. rewrite extract_lookup by done.
    rewrite lookup_empty. intuition congruence.
  - intros v [H|[[_ H]|H]]%extract_source; [by right|by left|done|done].
Qed.

(** X23: a namespace with a dot in it matches no key. *)
Theorem dotted_namespace_finds_nothing (entries : list (string * Scalar)) (namespace : string) :
  allChars notDot namespace = false ->
  extractConfigByNamespace (Some entries) namespace = inr ∅.
Proof.
  intros Hdot. unfold extractConfigByNamespace.
  destruct (String.eqb_spec namespace "") as [->|_]; [done|].
  by rewrite extract_dotted.
Qed.

(** X24: the messages the component is built with: for each name, the data
    attribute [i18n.name] if there is one, else the leaf [i18n.name] of the
    configuration passed in, else that of the defaults. *)
Theorem messages_come_from_dataset_then_config_then_defaults
    (config : option (list (string * ConfigValue)))
    (dataset : gmap string Scalar) (datasetEntries entries : list (string * Scalar))
    (name : string) :
  enumerates datasetEntries dataset ->
  enumerates entries (resolvedConfig config datasetEntries) ->
  name <> "i18n" ->
  exists translations,
    extractConfigByNamespace (Some entries) "i18n" = inr translations
    /\ translations !! name =
       match dataset !! ("i18n." +:+ name) with
       | Some v => Some v
       | None =>
           match flattenObject (default [] config) !! ("i18n." +:+ name) with
           | Some v => Some v
           | None => flattenObject defaultsObject !! ("i18n." +:+ name)
           end
       end.
Proof.
  intros Hdataset [Hnodup Hentries] Hname.
  eexists. split; [done|].
  apply option_eq. intros v. rewrite extract_lookup by done.
  change ("i18n" +:+ "." +:+ name) with ("i18n." +:+ name).
  rewrite lookup_empty, Hentries. unfold resolvedConfig.
  rewrite mergeConfigs_three, (flattenObject_objectOf _ _ Hdataset).
  rewrite !lookup_union.
  destruct (dataset !! _), (flattenObject (default [] config) !! _),
    (flattenObject defaultsObject !! _); intuition congruence.
Qed.

Lemma flattenObject_defaults :
  flattenObject defaultsObject =
  <["i18n.hideAllSections" := ScalarString "Hide all sections"]>
  (<["i18n.hideSection" := ScalarString "Hide"]>
  (<["i18n.hideSectionAriaLabel" := ScalarString "Hide this section"]>
  (<["i18n.showAllSections" := ScalarString "Show all sections"]>
  (<["i18n.showSection" := ScalarString "Show"]>
  (<["i18n.showSectionAriaLabel" := ScalarString "Show this section"]>
  (<["rememberExpanded" := ScalarBoolean true]> ∅)))))).
Proof. vm_compute. reflexivity. Qed.

Lemma defaults_message (name : string) :
  valueOf <$> flattenObject defaultsObject !! ("i18n." +:+ name) = defaultI18n !! name.
Proof.
  rewrite flattenObject_defaults. unfold defaultI18n.
  repeat match goal with
  | |- context [<[ ?k := _ ]> _ !! name] =>
      destruct (decide (k = name)) as [<-|?];
      [vm_compute; reflexivity|
       rewrite (lookup_insert_ne _ k name) by done;
       rewrite (lookup_insert_ne _ ("i18n." +:+ k) ("i18n." +:+ name))
         by (intros ?%(String.app_inj "i18n."); done)]
  end.
  rewrite lookup_insert_ne by (rewrite append_String; discriminate).
  by rewrite !lookup_empty.
Qed.

(** X25: when neither the data attributes nor the configuration passed in
    have a key under [i18n], the component is built with the messages of
    [Accordion.defaults]. *)
Theorem untouched_messages_are_the_defaults
    (config : option (list (string * ConfigValue)))
    (dataset : gmap string Scalar) (datasetEntries entries : list (string * Scalar)) :
  enumerates datasetEntries dataset ->
  enumerates entries (resolvedConfig config datasetEntries) ->
  (forall key, head (split key) = Some "i18n" ->
     dataset !! key = None /\ flattenObject (default [] config) !! key = None) ->
  exists translations,
    extractConfigByNamespace (Some entries) "i18n" = inr translations
    /\ valueOf <$> translations = i18nConfig defaults.
Proof.
  intros Hdataset [Hnodup Hentries] Hnone.
  eexists. split; [done|].
  assert (Hresolved : forall key,
            head (split key) = Some "i18n" ->
            resolvedConfig config datasetEntries !! key = flattenObject defaultsObject !! key).
  { intros key [Hd Hc]%Hnone. unfold resolvedConfig.
    rewrite mergeConfigs_three, (flattenObject_objectOf _ _ Hdataset).
    by rewrite !lookup_union, Hd, Hc, !(left_id_L None union). }
  apply map_eq. intros name. rewrite lookup_fmap.
  destruct (decide (name = "i18n")) as [->|Hname].
  - destruct (fold_left _ _ _ !! "i18n") as [v|] eqn:Hv; [|done].
    exfalso. apply extract_source in Hv as [Hv|[[_ Hv]|Hv]]; [| |done|done];
      apply Hentries in Hv; rewrite Hresolved in Hv by done; by vm_compute in Hv.
  - rewrite <- defaults_message. f_equal. apply option_eq. intros v.
    rewrite extract_lookup by done. rewrite lookup_empty.
    change ("i18n" +:+ "." +:+ name) with ("i18n." +:+ name).
    rewrite Hentries.
    rewrite Hresolved
      by (change ("i18n." +:+ name) with ("i18n" +:+ "." +:+ name); by rewrite split_plain_app).
    intuition congruence.
Qed.

(** X26: a data attribute reaches the configuration normalised, under its own
    key, whatever the configuration passed in and the defaults hold. *)
Theorem data_attribute_is_normalised_and_wins (toNumber : string -> JsNumber)
    (config : option (list (string * ConfigValue)))
    (dataset : gmap string string) (datasetEntries : list (string * Scalar))
    (key value : string) :
  enumerates datasetEntries (normaliseDataset toNumber dataset) ->
  dataset !! key = Some value ->
  resolvedConfig config datasetEntries !! key =
  Some (normaliseString toNumber (ScalarString value)).
Proof.
  intros Hentries Hkey. unfold resolvedConfig.
  rewrite mergeConfigs_three, (flattenObject_objectOf _ _ Hentries).
  apply lookup_union_Some_l. unfold normaliseDataset. by rewrite lookup_fmap, Hkey.
Qed.

(** X27: normalising a normalised value changes nothing, and a string is
    never turned into a number that is not finite. *)
Theorem normalised_values_are_stable_and_finite (toNumber : string -> JsNumber)
    (value : Scalar) :
  normaliseString toNumber (normaliseString toNumber value) = normaliseString toNumber value
  /\ (forall s n,
        value = ScalarString s ->
        normaliseString toNumber value = ScalarNumber n ->
        isFinite n = true).
Proof.
  split.
  - destruct value as [|b|n|s]; [done..|].
    assert (Hcases : (exists b, normaliseString toNumber (ScalarString s) = ScalarBoolean b)
                     \/ (exists n, normaliseString toNumber (ScalarString s) = ScalarNumber n)
                     \/ normaliseString toNumber (ScalarString s) = ScalarString s).
    { unfold normaliseString.
      destruct (String.eqb (trim s) "true"); [by left; eexists|].
      destruct (String.eqb (trim s) "false"); [by left; eexists|].
      destruct (_ && _); [by right; left; eexists|by right; right]. }
    destruct Hcases as [[b H]|[[n H]|H]]; by rewrite !H.
  - intros s n -> H. unfold normaliseString in H.
    destruct (String.eqb (trim s) "true"); [done|].
    destruct (String.eqb (trim s) "false"); [done|].
    destruct (_ && _) eqn:Hnumber; [|done].
    injection H as <-. by apply andb_prop in Hnumber as [_ ?].
Qed.

(** ** The further properties on the components of the scenarios *)

Lemma constructor_returns_when_messages_resolve_witness :
  let rt := Scenario.noIntl "en" in
  let st := Scenario.emptyStorage 1000 in
  (exists a, new rt defaults Scenario.threeSections st
             = (snd (checkForSessionStorage st), Ok (Some a)))
  /\ new rt defaults Scenario.spanOutsideHeading st
     = (snd (checkForSessionStorage st), Throw NotFoundError)
  /\ new rt defaults {| supported := true; moduleId := "accordion-default";
                        markupSections := [] |} st
     = (st, Ok None).
Proof.
  intros rt st. split; [|split].
  - exact (constructor_returns_when_messages_resolve rt defaults Scenario.threeSections st
             (default_messages_resolve rt)).
  - exact (constructor_returns_when_messages_resolve rt defaults Scenario.spanOutsideHeading
             st (default_messages_resolve rt)).
  - exact (constructor_returns_when_messages_resolve rt defaults
             {| supported := true; moduleId := "accordion-default"; markupSections := [] |}
             st (default_messages_resolve rt)).
Defined.

Lemma handlers_throw_only_storage_exceptions_witness :
  let rt := Scenario.noIntl "en" in
  let w0 := Scenario.start rt defaults Scenario.threeSections (Scenario.emptyStorage 1000) in
  let w := (fst w0, Scenario.fullStorage) in
  snd (handle rt (ClickSection 0) w) = Throw QuotaExceededError
  /\ browserSupportsSessionStorage (fst w) = true
  /\ rememberExpanded (config (fst w)) = true.
Proof.
  intros rt w0 w.
  assert (Hi : i18n (fst w) = I18n.construct rt (Some (i18nConfig defaults)) None)
    by (vm_compute; reflexivity).
  assert (Hthrow : snd (handle rt (ClickSection 0) w) = Throw QuotaExceededError)
    by (vm_compute; reflexivity).
  clearbody w rt.
  assert (Hres : messagesResolve rt (i18n (fst w)))
    by (rewrite Hi; apply default_messages_resolve).
  split; [exact Hthrow|].
  refine (proj2 (handlers_throw_only_storage_exceptions rt (ClickSection 0) w
                   (fst (handle rt (ClickSection 0) w)) QuotaExceededError Hres _)).
  rewrite <- Hthrow. apply surjective_pairing.
Defined.

Lemma well_formed_sections_stay_coherent_witness :
  let rt := Scenario.noIntl "en" in
  let w0 := Scenario.start rt defaults Scenario.threeSections (Scenario.emptyStorage 1000) in
  let w := fst (handle rt (ClickSection 1) w0) in
  exists s, sections (fst w) !! 1%nat = Some s /\ coherent rt (i18n (fst w)) s.
Proof.
  intros rt w0 w.
  assert (Hnew : new rt defaults Scenario.threeSections (Scenario.emptyStorage 1000)
                 = (snd w0, Ok (Some (fst w0)))) by (vm_compute; reflexivity).
  assert (Hs : exists s, sections (fst w) !! 1%nat = Some s /\ wellFormed s = true).
  { vm_compute. eexists. split; reflexivity. }
  assert (Hhandle : handle rt (ClickSection 1) (fst w0, snd w0)
                    = (w, snd (handle rt (ClickSection 1) w0))).
  { rewrite <- (surjective_pairing w0). apply surjective_pairing. }
  clearbody w w0 rt.
  destruct Hs as (s & Hs & Hwf). exists s. split; [exact Hs|].
  refine (well_formed_sections_stay_coherent rt defaults Scenario.threeSections w
            (default_messages_resolve rt) _ 1%nat s Hs Hwf).
  exact (reachable_handle rt defaults Scenario.threeSections _ _ _ _
           (reachable_new rt defaults Scenario.threeSections _ _ _ Hnew) Hhandle).
Defined.

Lemma show_all_agrees_in_reachable_states_witness :
  let rt := Scenario.noIntl "en" in
  let w0 := Scenario.start rt defaults Scenario.threeSections (Scenario.emptyStorage 1000) in
  let w := fst (handle rt ClickShowAll w0) in
  showAllAgrees rt (fst w).
Proof.
  intros rt w0 w.
  assert (Hnew : new rt defaults Scenario.threeSections (Scenario.emptyStorage 1000)
                 = (snd w0, Ok (Some (fst w0)))) by (vm_compute; reflexivity).
  assert (Hwf : forallb wellFormed (sections (fst w)) = true) by (vm_compute; reflexivity).
  assert (Hhandle : handle rt ClickShowAll (fst w0, snd w0)
                    = (w, snd (handle rt ClickShowAll w0))).
  { rewrite <- (surjective_pairing w0). apply surjective_pairing. }
  clearbody w w0 rt.
  refine (show_all_agrees_in_reachable_states rt defaults Scenario.threeSections w
            (default_messages_resolve rt) _ (allWellFormed_forallb _ Hwf)).
  exact (reachable_handle rt defaults Scenario.threeSections _ _ _ _
           (reachable_new rt defaults Scenario.threeSections _ _ _ Hnew) Hhandle).
Defined.

Lemma malformed_section_is_never_modified_witness :
  let rt := Scenario.noIntl "en" in
  let markup := Scenario.secondWithoutContent in
  let w := Scenario.start rt defaults markup (Scenario.emptyStorage 1000) in
  exists m,
    markupSections markup !! 1%nat = Some m
    /\ sections (fst w) !! 1%nat = Some (enhanced (moduleId markup) 1 m)
    /\ (forall e, setExpanded rt e 1 (fst w) = (fst w, Ok ()))
    /\ (forall w' r, onSectionToggle rt 1 w = (w', r) -> fst w' = fst w).
Proof.
  intros rt markup w.
  assert (Hnew : new rt defaults markup (Scenario.emptyStorage 1000)
                 = (snd w, Ok (Some (fst w)))) by (vm_compute; reflexivity).
  assert (Hm : exists m, markupSections markup !! 1%nat = Some m
                 /\ wellFormed (enhanced (moduleId markup) 1 m) = false).
  { eexists. split; [reflexivity|]. vm_compute. reflexivity. }
  clearbody w rt.
  destruct Hm as (m & Hm & Hwf). exists m. split; [exact Hm|].
  apply (malformed_section_is_never_modified rt defaults markup w 1 m); [|exact Hm|exact Hwf].
  rewrite (surjective_pairing w). exact (reachable_new rt defaults markup _ _ _ Hnew).
Defined.

Lemma constructed_keys_are_distinct_witness :
  let m := Scenario.sectionMarkup false "Writing well for the web" None in
  ariaControls (enhanced "accordion-default" 0 m)
  <> ariaControls (enhanced "accordion-default" 1 m).
Proof.
  intros m.
  refine (constructed_keys_are_distinct "accordion-default" 0 1 m m _ _ _ _
            eq_refl eq_refl eq_refl _ eq_refl eq_refl eq_refl _ _);
    [vm_compute; reflexivity|vm_compute; reflexivity|discriminate].
Defined.

Lemma section_toggle_writes_only_its_key_witness :
  let rt := Scenario.noIntl "en" in
  let w := Scenario.start rt defaults Scenario.threeSections (Scenario.emptyStorage 1000) in
  let w' := fst (onSectionToggle rt 1 (fst w, snd w)) in
  quota (snd w') = quota (snd w)
  /\ getItem "accordion-default-content-1" (snd w')
     = getItem "accordion-default-content-1" (snd w).
Proof.
  intros rt w w'.
  assert (Hkey : ariaControls <$> sections (fst w) !! 1%nat
                 <> Some (Some "accordion-default-content-1"))
    by (vm_compute; discriminate).
  clearbody w rt.
  destruct (section_toggle_writes_only_its_key rt 1 (fst w) (snd w) w'
              (snd (onSectionToggle rt 1 (fst w, snd w))) (surjective_pairing _))
    as [Hquota Hother].
  split; [exact Hquota|]. exact (Hother _ Hkey).
Defined.

Lemma section_toggle_stores_the_new_state_witness :
  let rt := Scenario.noIntl "en" in
  let w := Scenario.start rt defaults Scenario.threeSections (Scenario.emptyStorage 1000) in
  let w' := fst (onSectionToggle rt 1 (fst w, snd w)) in
  isExpanded <$> sections (fst w') !! 1%nat = Some true
  /\ getItem "accordion-default-content-2" (snd w') = Some "true".
Proof.
  intros rt w w'.
  assert (Hs : exists s, sections (fst w) !! 1%nat = Some s /\ wellFormed s = true
                 /\ ariaControls s = Some "accordion-default-content-2"
                 /\ isExpanded s = false).
  { vm_compute. eexists. split_and!; reflexivity. }
  assert (Hworks : browserSupportsSessionStorage (fst w) = true) by (vm_compute; reflexivity).
  assert (Hremember : rememberExpanded (config (fst w)) = true) by (vm_compute; reflexivity).
  assert (Htoggle : onSectionToggle rt 1 (fst w, snd w) = ((fst w', snd w'), Ok ()))
    by (vm_compute; reflexivity).
  clearbody w' w rt.
  destruct Hs as (s & Hs & Hwf & Hkey & Hcollapsed).
  pose proof (section_toggle_stores_the_new_state rt 1 (fst w) (fst w') (snd w) (snd w') s
                "accordion-default-content-2" () Hs Hwf Hkey ltac:(discriminate)
                Hworks Hremember Htoggle) as H.
  rewrite Hcollapsed in H. exact H.
Defined.

Lemma sections_have_keys (a : Accordion) :
  forallb (fun s => match ariaControls s with
                    | Some key => negb (String.eqb key "")
                    | None => false
                    end) (sections a) = true ->
  forall j s, sections a !! j = Some s -> exists key, ariaControls s = Some key /\ key <> "".
Proof.
  intros H j s Hs. rewrite forallb_forall in H.
  specialize (H s). cbv beta in H.
  destruct (ariaControls s) as [key|].
  - exists key. split; [done|]. intros ->.
    by specialize (H ltac:(apply list_elem_of_In; by eapply list_elem_of_lookup_2)).
  - by specialize (H ltac:(apply list_elem_of_In; by eapply list_elem_of_lookup_2)).
Qed.

Lemma show_all_toggle_stores_every_section_witness :
  let rt := Scenario.noIntl "en" in
  let w := Scenario.start rt defaults Scenario.threeSections (Scenario.emptyStorage 1000) in
  let w' := fst (onShowOrHideAllToggle rt (fst w, snd w)) in
  getItem "accordion-default-content-3" (snd w') = Some "true"
  /\ isExpanded <$> sections (fst w') !! 2%nat = Some true.
Proof.
  intros rt w w'.
  assert (Hwf : forallb wellFormed (sections (fst w)) = true) by (vm_compute; reflexivity).
  assert (Hkeys : forallb (fun s => match ariaControls s with
                                    | Some key => negb (String.eqb key "")
                                    | None => false
                                    end) (sections (fst w)) = true)
    by (vm_compute; reflexivity).
  assert (Hs : exists s, sections (fst w) !! 2%nat = Some s
                 /\ ariaControls s = Some "accordion-default-content-3").
  { vm_compute. eexists. split; reflexivity. }
  assert (Hnone : checkIfAllSectionsOpen (fst w) = false) by (vm_compute; reflexivity).
  assert (Hworks : browserSupportsSessionStorage (fst w) = true) by (vm_compute; reflexivity).
  assert (Hremember : rememberExpanded (config (fst w)) = true) by (vm_compute; reflexivity).
  assert (Htoggle : onShowOrHideAllToggle rt (fst w, snd w) = ((fst w', snd w'), Ok ()))
    by (vm_compute; reflexivity).
  clearbody w' w rt.
  destruct Hs as (s & Hs & Hkey).
  pose proof (show_all_toggle_stores_every_section rt (fst w) (fst w') (snd w) (snd w') ()
                (allWellFormed_forallb _ Hwf) Hworks Hremember (sections_have_keys _ Hkeys)
                Htoggle 2%nat s "accordion-default-content-3" Hs Hkey) as H.
  rewrite Hnone in H. exact H.
Defined.

Lemma show_all_toggle_survives_reload_witness :
  let rt := Scenario.noIntl "en" in
  let markup := Scenario.threeSections in
  let w := Scenario.start rt defaults markup (Scenario.emptyStorage 1000) in
  let w' := fst (onShowOrHideAllToggle rt (fst w, snd w)) in
  let again := Scenario.start rt defaults markup (snd w') in
  (forall s, s ∈ sections (fst again) -> isExpanded s = true)
  /\ checkIfAllSectionsOpen (fst again) = true
  /\ showAllAriaExpanded (fst again) = "true".
Proof.
  intros rt markup w w' again.
  assert (Hnew : new rt defaults markup (Scenario.emptyStorage 1000)
                 = (snd w, Ok (Some (fst w)))) by (vm_compute; reflexivity).
  assert (Hwf : forallb wellFormed (sections (fst w)) = true) by (vm_compute; reflexivity).
  assert (Hnone : checkIfAllSectionsOpen (fst w) = false) by (vm_compute; reflexivity).
  assert (Hworks : browserSupportsSessionStorage (fst w) = true) by (vm_compute; reflexivity).
  assert (Htoggle : onShowOrHideAllToggle rt (fst w, snd w) = ((fst w', snd w'), Ok ()))
    by (vm_compute; reflexivity).
  assert (Hagain : new rt defaults markup (snd w') = (snd again, Ok (Some (fst again))))
    by (vm_compute; reflexivity).
  assert (Hworks' : browserSupportsSessionStorage (fst again) = true)
    by (vm_compute; reflexivity).
  assert (Hkeys : forall idx m, markupSections markup !! idx = Some m ->
            exists key, ariaControls (enhanced (moduleId markup) idx m) = Some key
              /\ key <> "" /\ key <> testString).
  { intros idx m Hm.
    destruct idx as [|[|[|idx]]]; cbn in Hm; [| | |done]; injection Hm as <-;
      (eexists; split; [vm_compute; reflexivity|split; discriminate]). }
  clearbody again w' w rt.
  pose proof (show_all_toggle_survives_reload rt defaults markup (fst w) (fst w') (fst again)
                (snd w) (snd w') (snd again) ()
                (reachable_new rt defaults markup _ _ _ Hnew)
                (allWellFormed_forallb _ Hwf) Hworks eq_refl Hkeys Htoggle Hagain Hworks') as H.
  rewrite Hnone in H. exact H.
Defined.

Lemma probe_cleans_up_after_itself_witness :
  let st := Scenario.emptyStorage 1000 in
  let st' := snd (checkForSessionStorage st) in
  getItem testString st' = None
  /\ isOk (setItem testString testString st) = true
  /\ checkForSessionStorage st' = (true, st').
Proof.
  intros st st'.
  assert (Hprobe : checkForSessionStorage st = (true, st')) by (vm_compute; reflexivity).
  clearbody st'.
  destruct (probe_cleans_up_after_itself st st' true Hprobe) as (_ & _ & Hclean & _ & Hagain).
  destruct (Hclean eq_refl) as [Hgone Hroom].
  split; [exact Hgone|]. split; [exact Hroom|exact Hagain].
Defined.

Lemma russian_never_other_witness : pluralRules russian 5 <> other.
Proof. apply russian_never_other. lia. Defined.

Lemma fallback_selection_rounds_counts_witness :
  let i := {| translations := Scenario.noData; locale := "en" |} in
  selectPluralFormUsingFallbackRules i (3 # 2)
  = selectPluralFormUsingFallbackRules i (inject_Z (Qfloor (3 # 2)))
  /\ selectPluralFormUsingFallbackRules i (Qopp (3 # 2))
     = selectPluralFormUsingFallbackRules i (inject_Z (Qceiling (3 # 2))).
Proof.
  intros i. apply fallback_selection_rounds_counts. unfold Qle. cbn. lia.
Defined.

Lemma region_suffix_is_ignored_witness :
  getPluralRulesForLocale {| translations := Scenario.noData; locale := "en" |} = Some german
  /\ getPluralRulesForLocale {| translations := Scenario.noData; locale := "en" +:+ "-" +:+ "GB" |}
     = Some german.
Proof.
  refine (region_suffix_is_ignored german _ "en" "GB" Scenario.noData _ _ _).
  - apply list_elem_of_In. do 3 right. left. reflexivity.
  - apply list_elem_of_In. do 8 right. left. reflexivity.
  - discriminate.
Defined.

Lemma text_outside_markers_is_kept_witness :
  replacePlaceholders (Scenario.noIntl "en")
    {| translations := Scenario.noData; locale := "en" |} "Hide this section" Scenario.noData
  = Ok "Hide this section".
Proof.
  exact (proj2 (text_outside_markers_is_kept (Scenario.noIntl "en")
                  {| translations := Scenario.noData; locale := "en" |}
                  Scenario.noData "Hide this section") eq_refl).
Defined.

Lemma marker_is_read_up_to_the_last_brace_witness :
  scan (placeholderWithBraces "hours" +:+ " left") 0
  = Placeholder "hours" :: scan " left" 0
  /\ scan (placeholderWithBraces "hours" +:+ placeholderWithBraces "minutes" +:+ " left") 0
     = Placeholder ("hours" +:+ "}%{" +:+ "minutes") :: scan " left" 0.
Proof.
  destruct (marker_is_read_up_to_the_last_brace "h" "ours" " left"
              eq_refl ltac:(discriminate) eq_refl eq_refl) as [Hone Htwo].
  split; [exact Hone|]. exact (Htwo "minutes" eq_refl).
Defined.

Lemma translation_errors_have_a_cause_witness :
  let rt := Scenario.noIntl "en" in
  let i := {| translations := Scenario.greeting; locale := "en" |} in
  exists o resolved text name,
    Some Scenario.noData = Some o
    /\ resolveLookupKey rt i "greeting" (Some Scenario.noData) = Ok resolved
    /\ translations i !! resolved = Some (JsString text)
    /\ Placeholder name ∈ scan text 0
    /\ o !! name = None
    /\ placeholderWithBraces "name" = placeholderWithBraces name.
Proof.
  intros rt i.
  exact (translation_errors_have_a_cause rt i "greeting" (Some Scenario.noData)
           (NoDataForPlaceholder (placeholderWithBraces "name")) eq_refl).
Defined.

Lemma enumerates_map_to_list (m : gmap string Scalar) : enumerates (map_to_list m) m.
Proof.
  split; [apply NoDup_fst_map_to_list|].
  intros key v. apply elem_of_map_to_list.
Qed.

Ltac solve_plainKeys :=
  lazymatch goal with
  | |- plainKeys (ConfigScalar _) => apply plain_scalar
  | |- plainKeys ConfigNull => apply plain_null
  | |- plainKeys (ConfigObject _) =>
      apply plain_object;
      [apply (bool_decide_unpack _); vm_compute; exact I|solve_plainKeys]
  | |- Forall _ [] => constructor
  | |- Forall _ (_ :: _) =>
      apply Forall_cons; cbn [fst snd]; split;
      [split_and!; [discriminate|reflexivity|solve_plainKeys]|solve_plainKeys]
  end.

Lemma flattened_keys_are_dotted_paths_witness :
  flattenObject defaultsObject !! "i18n.showSection" = Some (ScalarString "Show") <->
  exists path,
    leafAt (ConfigObject defaultsObject) path (ScalarString "Show")
    /\ "i18n.showSection" = join "." path.
Proof.
  apply flattened_keys_are_dotted_paths. unfold defaultsObject. solve_plainKeys.
Defined.

Lemma namespace_is_stripped_witness :
  let entries := [("i18n.showSection", ScalarString "Open");
                  ("rememberExpanded", ScalarBoolean false)] in
  exists newObject,
    extractConfigByNamespace (Some entries) "i18n" = inr newObject
    /\ (forall name v,
          name <> "i18n" ->
          newObject !! name = Some v <-> ("i18n" +:+ "." +:+ name, v) ∈ entries)
    /\ (forall v,
          newObject !! "i18n" = Some v ->
          ("i18n", v) ∈ entries \/ ("i18n" +:+ "." +:+ "i18n", v) ∈ entries).
Proof.
  intros entries. apply namespace_is_stripped; [|discriminate|reflexivity].
  apply (bool_decide_unpack _). vm_compute. exact I.
Defined.

Lemma dotted_namespace_finds_nothing_witness :
  extractConfigByNamespace
    (Some [("i18n.section.show", ScalarString "Open")]) "i18n.section" = inr ∅.
Proof. apply dotted_namespace_finds_nothing. reflexivity. Defined.

Lemma messages_come_from_dataset_then_config_then_defaults_witness :
  let dataset : gmap string Scalar := {[ "i18n.showSection" := ScalarString "Open" ]} in
  let entries := map_to_list (resolvedConfig None (map_to_list dataset)) in
  exists translations,
    extractConfigByNamespace (Some entries) "i18n" = inr translations
    /\ translations !! "showSection" =
       match dataset !! ("i18n." +:+ "showSection") with
       | Some v => Some v
       | None =>
           match flattenObject (default [] None) !! ("i18n." +:+ "showSection") with
           | Some v => Some v
           | None => flattenObject defaultsObject !! ("i18n." +:+ "showSection")
           end
       end.
Proof.
  intros dataset entries.
  apply (messages_come_from_dataset_then_config_then_defaults None dataset
           (map_to_list dataset) entries "showSection");
    [apply enumerates_map_to_list|apply enumerates_map_to_list|discriminate].
Defined.

Lemma untouched_messages_are_the_defaults_witness :
  let entries := map_to_list (resolvedConfig None (map_to_list (∅ : gmap string Scalar))) in
  exists translations,
    extractConfigByNamespace (Some entries) "i18n" = inr translations
    /\ valueOf <$> translations = i18nConfig defaults.
Proof.
  intros entries.
  apply (untouched_messages_are_the_defaults None ∅ (map_to_list ∅) entries);
    [apply enumerates_map_to_list|apply enumerates_map_to_list|].
  intros key _. split; apply lookup_empty.
Defined.

Lemma data_attribute_is_normalised_and_wins_witness :
  let toNumber := fun _ : string => NaN in
  let dataset : gmap string string := {[ "rememberExpanded" := "false" ]} in
  resolvedConfig None (map_to_list (normaliseDataset toNumber dataset)) !! "rememberExpanded"
  = Some (normaliseString toNumber (ScalarString "false")).
Proof.
  intros toNumber dataset.
  apply (data_attribute_is_normalised_and_wins toNumber None dataset _ "rememberExpanded" "false");
    [apply enumerates_map_to_list|reflexivity].
Defined.

Lemma normalised_values_are_stable_and_finite_witness :
  let toNumber := fun _ : string => Finite (12 # 1) in
  normaliseString toNumber (normaliseString toNumber (ScalarString "12"))
  = normaliseString toNumber (ScalarString "12")
  /\ isFinite (Finite (12 # 1)) = true.
Proof.
  intros toNumber.
  destruct (normalised_values_are_stable_and_finite toNumber (ScalarString "12"))
    as [Hstable Hfinite].
  split; [exact Hstable|]. exact (Hfinite "12" (Finite (12 # 1)) eq_refl eq_refl).
Defined.
